(** * Savior: storage and recovery engine

    A shallow embedding of the backup engine of Savior (content store,
    incremental differ, retention policy, restore, safe extraction and the
    daemon's IPC gate) together with the properties its specification
    states about them.

    Conventions of the embedding:
    - a [pathlib.Path] is the list of its components, root first;
    - a file system is a finite map from paths to regular files; the
      primitives ([stat], [copy2], [unlink], ...) succeed whenever the
      file they name exists, and raise [OSError] (modelled by [None])
      when it does not;
    - Python dictionaries are [gmap]s, Python sets are [gset]s;
    - library functions whose result does not matter to a property
      (SHA-256, [fnmatch]) are section variables. *)

From Stdlib Require Import ZArith Lia Bool List Ascii String.
From stdpp Require Import base option list gmap sets strings.

Local Open Scope string_scope.
Local Open Scope list_scope.
Local Open Scope nat_scope.

(** ** Paths and files *)

Module Fs.

Definition Path := list string.

(** A regular file: its bytes, its permission bits and its modification
    time.  [st_size] is the number of bytes. *)
Record File := mkFile { data : string; st_mode : Z; st_mtime : Z }.

Definition st_size (f : File) : nat := String.length (data f).

#[export] Instance File_eq_dec : EqDecision File.
Proof. solve_decision. Defined.

(** [Path.name]: the final component. *)
Definition name (p : Path) : string := List.last p "".

(** [Path.parent]. *)
Definition parent (p : Path) : Path := removelast p.

(** [Path.relative_to]: [None] stands for [ValueError]. *)
Fixpoint relative_to (p base : Path) {struct base} : option Path :=
  match base with
  | [] => Some p
  | b :: base' =>
      match p with
      | [] => None
      | c :: p' => if String.eqb c b then relative_to p' base' else None
      end
  end.

(** [str.rfind(c)]. *)
Fixpoint rfind (c : ascii) (s : string) : option nat :=
  match s with
  | EmptyString => None
  | String a s' =>
      match rfind c s' with
      | Some i => Some (S i)
      | None => if Ascii.eqb a c then Some 0 else None
      end
  end.

(** [Path.suffix]: the part of the name from its last dot on, unless the
    dot is the first or the last character of the name. *)
Definition suffix (p : Path) : string :=
  let nm := name p in
  match rfind "."%char nm with
  | Some i =>
      if ((0 <? i) && (i <? String.length nm - 1))%nat
      then substring i (String.length nm - i) nm
      else ""
  | None => ""
  end.

(** [str.lower] on ASCII text. *)
Definition lower_ascii (c : ascii) : ascii :=
  let n := nat_of_ascii c in
  if ((65 <=? n) && (n <=? 90))%nat then ascii_of_nat (n + 32) else c.

Fixpoint lower (s : string) : string :=
  match s with
  | EmptyString => EmptyString
  | String c s' => String (lower_ascii c) (lower s')
  end.

(** [s.split(sep)] for a one-character separator. *)
Fixpoint split (sep : ascii) (s : string) : list string :=
  match s with
  | EmptyString => [EmptyString]
  | String c s' =>
      if Ascii.eqb c sep then EmptyString :: split sep s'
      else match split sep s' with
           | [] => [String c EmptyString]
           | w :: ws => String c w :: ws
           end
  end.

(** [str(path)] of a relative path: its components joined by [os.sep]
    (the empty path prints as a dot). *)
Fixpoint join_sep (l : list string) : string :=
  match l with
  | [] => ""
  | [x] => x
  | x :: l' => x +:+ String "/"%char (join_sep l')
  end.

Definition str (p : Path) : string :=
  match p with
  | [] => "."
  | _ => join_sep p
  end.

(** [os.path.basename]. *)
Definition basename (s : string) : string := List.last (split "/"%char s) "".

Definition startswith (s pre : string) : bool := String.prefix pre s.

Fixpoint endswith_char (s : string) (c : ascii) : bool :=
  match s with
  | EmptyString => false
  | String a EmptyString => Ascii.eqb a c
  | String _ s' => endswith_char s' c
  end.

(** [needle in s]. *)
Fixpoint contains (needle s : string) : bool :=
  String.prefix needle s
  || match s with
     | EmptyString => false
     | String _ s' => contains needle s'
     end.

(** [s[:-1]]. *)
Fixpoint drop_last (s : string) : string :=
  match s with
  | EmptyString => EmptyString
  | String _ EmptyString => EmptyString
  | String a s' => String a (drop_last s')
  end.

(** ASCII white space, as [str.strip] removes it. *)
Definition is_space (c : ascii) : bool :=
  let n := nat_of_ascii c in
  ((n =? 32) || ((9 <=? n) && (n <=? 13)))%nat.

Fixpoint lstrip (s : string) : string :=
  match s with
  | EmptyString => EmptyString
  | String c s' => if is_space c then lstrip s' else s
  end.

Fixpoint rstrip (s : string) : string :=
  match s with
  | EmptyString => EmptyString
  | String c s' =>
      match rstrip s' with
      | EmptyString => if is_space c then EmptyString else String c EmptyString
      | r => String c r
      end
  end.

Definition strip (s : string) : string := lstrip (rstrip s).

(** The lines of a text file. *)
Definition lines (text : string) : list string :=
  match text with
  | EmptyString => []
  | _ => split (ascii_of_nat 10) text
  end.

(** What the code sees of the regular files on disk: the file at a
    path, if there is one. *)
Definition FsView := Path → option File.

(** [Path.stat().st_size]; [None] stands for [OSError]. *)
Definition stat_size (fs : FsView) (p : Path) : option nat :=
  st_size <$> fs p.

(** [os.access(path, os.R_OK)] for the owner: the 0o400 bit. *)
Definition readable (f : File) : bool := Z.testbit (st_mode f) 8.

(** *** Directory trees

    Where the code walks a directory ([os.walk]) the file system is a
    tree: a directory maps the names of its entries to regular files and
    sub-directories. *)
Inductive Node :=
| NFile (f : File)
| NDir (entries : gmap string Node).

Fixpoint tree_lookup (p : Path) (n : Node) : option Node :=
  match p with
  | [] => Some n
  | nm :: p' =>
      match n with
      | NDir es => es !! nm ≫= tree_lookup p'
      | NFile _ => None
      end
  end.

(** The regular file at a path, if any. *)
Definition tree_file (p : Path) (n : Node) : option File :=
  match tree_lookup p n with
  | Some (NFile f) => Some f
  | _ => None
  end.

(** [Path.unlink()] of a regular file (no effect when there is none). *)
Fixpoint tree_unlink (p : Path) (n : Node) : Node :=
  match p, n with
  | [nm], NDir es =>
      match es !! nm with
      | Some (NFile _) => NDir (delete nm es)
      | _ => n
      end
  | nm :: p', NDir es => NDir (alter (tree_unlink p') nm es)
  | _, _ => n
  end.

(** [path.parent.mkdir(parents=True, exist_ok=True)] followed by
    writing the regular file [path].  [None] stands for [OSError]: a
    regular file where a directory is needed, or a directory where the
    file is to be written. *)
Fixpoint tree_put (p : Path) (f : File) (n : Node) : option Node :=
  match n with
  | NFile _ => None
  | NDir es =>
      match p with
      | [] => None
      | [nm] =>
          match es !! nm with
          | Some (NDir _) => None
          | _ => Some (NDir (<[nm := NFile f]> es))
          end
      | nm :: p' =>
          c' ← tree_put p' f (default (NDir ∅) (es !! nm));
          Some (NDir (<[nm := c']> es))
      end
  end.

(** [dst.parent.mkdir(parents=True, exist_ok=True)] followed by
    [shutil.copy2(src, dst)], where [src] has the name of [dst]: when
    [dst] is an existing directory the copy lands inside it. *)
Definition copy2 (dst : Path) (f : File) (n : Node) : option Node :=
  match tree_lookup dst n with
  | Some (NDir _) => tree_put (dst ++ [name dst]) f n
  | _ => tree_put dst f n
  end.

(** [os.makedirs(path, exist_ok=True)]. *)
Fixpoint tree_makedirs (p : Path) (n : Node) : option Node :=
  match n with
  | NFile _ => None
  | NDir es =>
      match p with
      | [] => Some n
      | nm :: p' =>
          c' ← tree_makedirs p' (default (NDir ∅) (es !! nm));
          Some (NDir (<[nm := c']> es))
      end
  end.

(** [os.walk(top)], top-down and without pruning: for every directory
    its path below [top], the names of its sub-directories and the names
    of its non-directory entries. *)
Fixpoint os_walk (root : Path) (n : Node) {struct n}
    : list (Path * list string * list string) :=
  match n with
  | NFile _ => []
  | NDir es =>
      (root,
       map_fold (λ nm c acc, match c with NDir _ => nm :: acc | _ => acc end) [] es,
       map_fold (λ nm c acc, match c with NFile _ => nm :: acc | _ => acc end) [] es)
      :: map_fold (λ d c acc,
                     match c with
                     | NDir _ => os_walk (root ++ [d]) c ++ acc
                     | NFile _ => acc
                     end) [] es
  end.

End Fs.

Import Fs.

(** ** dedup.py *)

Module Dedup.

(** *** SmartDeduplicator *)

Definition SKIP_DEDUP_EXTENSIONS : list string :=
  [ ".zip"; ".gz"; ".bz2"; ".xz"; ".7z"; ".rar";
    ".jpg"; ".jpeg"; ".png"; ".gif"; ".webp";
    ".mp3"; ".mp4"; ".avi"; ".mkv"; ".mov";
    ".pdf";
    ".exe"; ".dll"; ".so"; ".dylib";
    ".db"; ".sqlite"; ".mdb" ].

Definition MIN_DEDUP_SIZE : nat := 1024.

Definition should_deduplicate (fs : FsView) (file_path : Path) : bool :=
  match stat_size fs file_path with
  | None => false
  | Some file_size =>
      if (file_size <? MIN_DEDUP_SIZE)%nat then false
      else if bool_decide (lower (suffix file_path) ∈ SKIP_DEDUP_EXTENSIONS)
           then false
           else true
  end.

(** *** DeduplicationStore *)

(** One entry of [index.json]. *)
Record IndexEntry := mkEntry {
  e_size : nat;   (* the entry's 'size' *)
  refs : list string;
  ref_count : nat;
  first_seen : string;
  chunk_path : Path
}.

(** [stats.json] ([dedup_ratio] is recomputed by [get_dedup_stats] and
    never read back). *)
Record Stats := mkStats {
  total_stored : Z;
  total_deduplicated : Z;
  space_saved : Z
}.

(** The store: the index document, the stats document and the regular
    files below [store_dir] (paths relative to it). *)
Record DeduplicationStore := mkStore {
  index : gmap string IndexEntry;
  stats : Stats;
  disk : gmap Path File
}.

(** The metadata [store_file] returns for the manifest. *)
Record FileMeta := mkMeta {
  hash : string;
  meta_size : nat;
  deduplicated : bool
}.

(** [_init_store] on a fresh backup directory. *)
Definition _init_store : DeduplicationStore :=
  {| index := ∅;
     stats := {| total_stored := 0; total_deduplicated := 0; space_saved := 0 |};
     disk := ∅ |}.

(** [chunks_dir / content_hash[:2] / content_hash]. *)
Definition _get_chunk_path (content_hash : string) : Path :=
  ["chunks"; substring 0 2 content_hash; content_hash].

Section Store.

(** [hashlib.sha256(...).hexdigest()] of a file's bytes. *)
Variable sha256 : string → string.

Definition store_file (fs : FsView) (now : string)
    (s : DeduplicationStore) (file_path : Path) (backup_id : string)
    : DeduplicationStore * option FileMeta :=
  match fs file_path with
  | None => (s, None)
  | Some f =>
      let content_hash := sha256 (data f) in
      if String.eqb content_hash "" then (s, None)
      else
        let file_size := st_size f in
        let chunk := _get_chunk_path content_hash in
        let s' :=
          match index s !! content_hash with
          | Some e =>
              let rs : gset string := list_to_set (refs e) ∪ {[backup_id]} in
              let e' := {| e_size := e_size e;
                           refs := elements rs;
                           ref_count := length (elements rs);
                           first_seen := first_seen e;
                           chunk_path := chunk_path e |} in
              {| index := <[content_hash := e']> (index s);
                 stats := {| total_stored := total_stored (stats s);
                             total_deduplicated :=
                               total_deduplicated (stats s) + Z.of_nat file_size;
                             space_saved :=
                               space_saved (stats s) + Z.of_nat file_size |};
                 disk := disk s |}
          | None =>
              let e' := {| e_size := file_size;
                           refs := [backup_id];
                           ref_count := 1;
                           first_seen := now;
                           chunk_path := chunk |} in
              {| index := <[content_hash := e']> (index s);
                 stats := {| total_stored :=
                               total_stored (stats s) + Z.of_nat file_size;
                             total_deduplicated := total_deduplicated (stats s);
                             space_saved := space_saved (stats s) |};
                 disk := <[chunk := f]> (disk s) |}
          end in
        (s', Some {| hash := content_hash;
                     meta_size := file_size;
                     deduplicated :=
                       match index s' !! content_hash with
                       | Some e => (1 <? ref_count e)%nat
                       | None => false
                       end |})
  end.

End Store.

(** [retrieve_file]; the destination is a path below the root of the
    tree [tr]. *)
Definition retrieve_file (s : DeduplicationStore) (content_hash : string)
    (destination : Path) (tr : Node) : Node * bool :=
  match index s !! content_hash with
  | None => (tr, false)
  | Some _ =>
      match disk s !! _get_chunk_path content_hash with
      | None => (tr, false)
      | Some f =>
          match copy2 destination f tr with
          | Some tr' => (tr', true)
          | None => (tr, false)
          end
      end
  end.

Definition remove_reference (s : DeduplicationStore)
    (content_hash backup_id : string) : DeduplicationStore * bool :=
  match index s !! content_hash with
  | None => (s, false)
  | Some e =>
      let rs : gset string := list_to_set (refs e) ∖ {[backup_id]} in
      let e' := {| e_size := e_size e;
                   refs := elements rs;
                   ref_count := length (elements rs);
                   first_seen := first_seen e;
                   chunk_path := chunk_path e |} in
      if (ref_count e' =? 0)%nat then
        ({| index := delete content_hash (index s);
            stats := {| total_stored := total_stored (stats s) - Z.of_nat (e_size e');
                        total_deduplicated := total_deduplicated (stats s);
                        space_saved := space_saved (stats s) |};
            disk := delete (_get_chunk_path content_hash) (disk s) |}, true)
      else
        ({| index := <[content_hash := e']> (index s);
            stats := stats s;
            disk := disk s |}, true)
  end.

(** *** DedupBackupManifest *)

(** A manifest document: the backup id, the creation time and, for every
    stored file, its metadata by relative path (the summary statistics
    are sums over this map). *)
Record Manifest := mkManifest {
  backup_id : string;
  manifest_timestamp : string;
  files : gmap Path FileMeta
}.

(** [manifests_dir / f"{backup_id}.json"], below [backup_dir]. *)
Definition manifest_path (backup_dir : Path) (backup_id : string) : Path :=
  backup_dir ++ [".dedup_manifests"; backup_id +:+ ".json"].

Definition create_manifest (backup_id now : string)
    (files : gmap Path FileMeta) : Manifest :=
  {| backup_id := backup_id; manifest_timestamp := now; files := files |}.

(** *** Maintenance of the store *)

(** Does [cleanup_orphaned_chunks] delete the file at this path of the
    store?  It visits the regular files in the sub-directories of
    [chunks] and takes the name of a file for its hash. *)
Definition is_orphan (index : gmap string IndexEntry) (q : Path) : bool :=
  match q with
  | [d; _; chunk_hash] =>
      String.eqb d "chunks"
      && match index !! chunk_hash with
         | Some e => (ref_count e =? 0)%nat
         | None => true
         end
  | _ => false
  end.

(** The body of the loop, on the store and [cleaned]. *)
Definition cleanup_chunk (index : gmap string IndexEntry) (chunk_file : Path)
    (acc : gmap Path File * nat) : gmap Path File * nat :=
  if is_orphan index chunk_file then (delete chunk_file acc.1, S acc.2) else acc.

(** [cleanup_orphaned_chunks]: the store afterwards, and [cleaned].
    (The store holds files only: a sub-directory emptied by the loop is
    gone with its last file.) *)
Definition cleanup_orphaned_chunks (s : DeduplicationStore)
    : DeduplicationStore * nat :=
  let '(d, cleaned) :=
    map_fold (λ chunk_file _ acc, cleanup_chunk (index s) chunk_file acc)
      (disk s, 0) (disk s) in
  ({| index := index s; stats := stats s; disk := d |}, cleaned).

End Dedup.

(** ** The [tarfile] library, as the code uses it *)

Module Tarfile.

Inductive MemberType := REGTYPE | DIRTYPE | SYMTYPE | LNKTYPE.

#[export] Instance MemberType_eq_dec : EqDecision MemberType.
Proof. solve_decision. Defined.

(** A member of an archive.  [content] holds the bytes of a regular
    member; [mode] holds permission bits only. *)
Record TarInfo := mkTarInfo {
  name : string;
  mtype : MemberType;
  mode : Z;
  mtime : Z;
  linkname : string;
  content : string
}.

(** [member.size]. *)
Definition size (m : TarInfo) : nat := String.length (content m).

Definition issym (m : TarInfo) : bool := bool_decide (mtype m = SYMTYPE).
Definition islnk (m : TarInfo) : bool := bool_decide (mtype m = LNKTYPE).

(** An archive file: whether it is gzip-compressed, and its members. *)
Record TarFile := mkTarFile { gz : bool; members : list TarInfo }.

(** [tarfile.open(path, 'r:gz')]: [None] stands for the exception raised
    when there is no such file or when the file is not gzip-compressed
    ([ReadError]). *)
Definition open_r_gz (a : option TarFile) : option (list TarInfo) :=
  match a with
  | Some t => if gz t then Some (members t) else None
  | None => None
  end.

Fixpoint lstrip_slash (s : string) : string :=
  match s with
  | String c s' => if Ascii.eqb c "/"%char then lstrip_slash s' else s
  | EmptyString => EmptyString
  end.

(** [tar.add(file_path, arcname=arcname)] for a regular file. *)
Definition tar_add (f : File) (arcname : string) : TarInfo :=
  {| name := lstrip_slash arcname;
     mtype := REGTYPE;
     mode := Z.land (st_mode f) 4095 (* 0o7777 *);
     mtime := st_mtime f;
     linkname := "";
     content := data f |}.

(** [os.path.normpath] of [base] joined with further components:
    empty and dot components vanish, a double dot removes the component
    before it (and is dropped at the root). *)
Definition normalize (base : Path) (comps : list string) : Path :=
  fold_left (λ acc c,
               if bool_decide (c = "" ∨ c = ".") then acc
               else if bool_decide (c = "..") then removelast acc
               else acc ++ [c]) comps base.

Definition isabs (s : string) : bool := startswith s "/".

(** [os.path.join(dest, name)], normalised. *)
Definition join_norm (dest : Path) (nm : string) : Path :=
  if isabs nm then normalize [] (split "/"%char nm)
  else normalize dest (split "/"%char nm).

(** [os.path.commonpath([target, dest]) == dest]. *)
Fixpoint is_under (dest target : Path) : bool :=
  match dest, target with
  | [], _ => true
  | d :: dest', t :: target' => String.eqb d t && is_under dest' target'
  | _ :: _, [] => false
  end.

Inductive Filter := fully_trusted | data_filter.

(** The permission bits the [data] filter lets through. *)
Definition data_mode (m : TarInfo) : Z :=
  let md := Z.land (mode m) 493 (* 0o755 *) in
  match mtype m with
  | REGTYPE | LNKTYPE =>
      let md := if Z.eqb (Z.land md 64 (* 0o100 *)) 0
                then Z.land md (Z.lnot 73 (* 0o111 *)) else md in
      Z.lor md 384 (* 0o600 *)
  | _ => md
  end.

(** The [data] filter: the member as it will be extracted below [dest],
    or [None] when the filter raises ([OutsideDestinationError],
    [AbsoluteLinkError], [LinkOutsideDestinationError]).  Leading
    slashes of the name are stripped, not refused. *)
Definition apply_data_filter (dest : Path) (m : TarInfo) : option TarInfo :=
  let name' := lstrip_slash (name m) in
  if negb (is_under dest (join_norm dest name')) then None
  else
    let link_ok :=
      if issym m || islnk m then
        if isabs (linkname m) then false
        else
          let base := if issym m
                      then normalize dest (removelast (split "/"%char name'))
                      else dest in
          is_under dest (join_norm base (linkname m))
      else true in
    if link_ok then
      Some {| name := name'; mtype := mtype m; mode := data_mode m;
              mtime := mtime m; linkname := linkname m; content := content m |}
    else None.

Definition apply_filter (flt : Filter) (dest : Path) (m : TarInfo) : option TarInfo :=
  match flt with
  | fully_trusted => Some m
  | data_filter => apply_data_filter dest m
  end.

(** Does writing the regular file [target] clash with the files there
    are: one of them where a directory is needed, or [target] being a
    directory that holds one of them? *)
Definition clashes (fs : gmap Path File) (target : Path) : bool :=
  bool_decide (∃ q, q ∈ dom fs ∧ q ≠ target ∧ (q `prefix_of` target ∨ target `prefix_of` q)).

(** Extraction of one (filtered) member below [dest]. Only regular
    members leave a regular file; directories and links add none. *)
Definition extract_member (dest : Path) (m : TarInfo) (fs : gmap Path File)
    : option (gmap Path File) :=
  match mtype m with
  | REGTYPE =>
      let target := join_norm dest (name m) in
      if clashes fs target then None
      else Some (<[target := {| data := content m;
                                st_mode := Z.lor 32768 (* S_IFREG *) (mode m);
                                st_mtime := mtime m |}]> fs)
  | _ => Some fs
  end.

(** [tar.extractall(dest, filter=flt)]: members are filtered and
    extracted in order; the first exception stops the extraction (what
    was extracted before stays on disk) and is propagated ([inl]). *)
Fixpoint extractall (flt : Filter) (dest : Path) (ms : list TarInfo)
    (fs : gmap Path File) : gmap Path File + gmap Path File :=
  match ms with
  | [] => inr fs
  | m :: ms' =>
      match apply_filter flt dest m with
      | None => inl fs
      | Some m' =>
          match extract_member dest m' fs with
          | None => inl fs
          | Some fs' => extractall flt dest ms' fs'
          end
      end
  end.

End Tarfile.


(** ** [datetime], as the code uses it *)

Module Datetime.

Local Open Scope Z_scope.

(** A naive [datetime]. *)
Record datetime := mkDatetime {
  year : Z; month : Z; day : Z;
  hour : Z; minute : Z; second : Z; microsecond : Z
}.

#[export] Instance datetime_eq_dec : EqDecision datetime.
Proof. solve_decision. Defined.

Definition is_leap (y : Z) : bool :=
  (y mod 4 =? 0) && (negb (y mod 100 =? 0) || (y mod 400 =? 0)).

Definition days_before_year (y : Z) : Z :=
  let y := y - 1 in y * 365 + y / 4 - y / 100 + y / 400.

Definition days_before_month (y m : Z) : Z :=
  nth (Z.to_nat m) [0; 0; 31; 59; 90; 120; 151; 181; 212; 243; 273; 304; 334] 0
  + (if (2 <? m) && is_leap y then 1 else 0).

(** [date.toordinal()]. *)
Definition ymd2ord (y m d : Z) : Z :=
  days_before_year y + days_before_month y m + d.

(** Microseconds since the start of day 0: the position of a naive
    datetime on the time line; differences of two of them are the
    [timedelta] between the datetimes. *)
Definition to_micro (t : datetime) : Z :=
  ((ymd2ord (year t) (month t) (day t) * 24 + hour t) * 60 + minute t) * 60 * 1000000
  + second t * 1000000 + microsecond t.

(** [timedelta(days=d)] and [timedelta(hours=h)], in microseconds. *)
Definition days (d : Z) : Z := d * 86400 * 1000000.
Definition hours (h : Z) : Z := h * 3600 * 1000000.

(** Decimal digits, zero-padded to a width ([%02d], [%04d]). *)
Definition digit (n : Z) : ascii := ascii_of_nat (48 + Z.to_nat (n mod 10)).

Definition pad2 (n : Z) : string :=
  String (digit (n / 10)) (String (digit n) EmptyString).

Definition pad4 (n : Z) : string :=
  String (digit (n / 1000)) (String (digit (n / 100)) (pad2 n)).

(** [strftime("[%H:%M] [%m-%d-%Y]")]. *)
Definition folder_name (t : datetime) : string :=
  "[" +:+ pad2 (hour t) +:+ ":" +:+ pad2 (minute t) +:+ "] ["
  +:+ pad2 (month t) +:+ "-" +:+ pad2 (day t) +:+ "-" +:+ pad4 (year t) +:+ "]".

(** [strftime("%Y-%m-%d_%I-%M%p").lower()]. *)
Definition human_time (t : datetime) : string :=
  let h12 := if hour t mod 12 =? 0 then 12 else hour t mod 12 in
  pad4 (year t) +:+ "-" +:+ pad2 (month t) +:+ "-" +:+ pad2 (day t) +:+ "_"
  +:+ pad2 h12 +:+ "-" +:+ pad2 (minute t) +:+ (if hour t <? 12 then "am" else "pm").

(** [strftime("%Y%m%d_%H%M%S")]. *)
Definition compact_time (t : datetime) : string :=
  pad4 (year t) +:+ pad2 (month t) +:+ pad2 (day t) +:+ "_"
  +:+ pad2 (hour t) +:+ pad2 (minute t) +:+ pad2 (second t).

End Datetime.


(** ** conflicts.py *)

Module Conflicts.

Inductive ConflictType :=
| UNCOMMITTED_CHANGES
| MODIFIED_SINCE_BACKUP
| NEW_FILES
| DELETED_FILES
| PERMISSION_CHANGES.

Inductive ConflictResolution :=
| OVERWRITE | KEEP_CURRENT | MERGE | BACKUP_CURRENT | SKIP.

#[export] Instance ConflictType_eq_dec : EqDecision ConflictType.
Proof. solve_decision. Defined.

(** What [restore_backup] records about a file of the backup. *)
Record BackupMeta := mkBackupMeta {
  backup_hash : string;
  backup_size : nat;
  backup_mode : Z
}.

(** What the detector records about a file of the working tree. *)
Record CurrentMeta := mkCurrentMeta {
  current_hash : string;
  current_mtime : Z;
  current_size : nat;
  current_mode : Z
}.

(** A conflict: the affected path and the current and backup metadata
    reported with it. *)
Record Conflict := mkConflict {
  path : Path;
  current : option CurrentMeta;
  backup : option BackupMeta
}.

(** The dictionary [detect_file_conflicts] returns: one list per kind. *)
Record FileConflicts := mkFileConflicts {
  modified_since_backup : list Conflict;
  new_files : list Conflict;
  deleted_files : list Conflict;
  permission_changes : list Conflict
}.

(** The result of [detect_git_conflicts] (the answers of [git]). *)
Record GitConflicts := mkGitConflicts {
  staged : list Path;
  modified : list Path;
  untracked : list Path
}.

Record Actions := mkActions {
  backed_up : list Path;
  skipped : list Path;
  overwritten : list Path;
  kept : list Path
}.

Section Detector.

Variable sha256 : string → string.

(** The scan of [detect_file_conflicts]: the files of the working
    tree, by relative path, except those in a directory whose path has
    a [.savior] component. *)
Definition scan_current (project_dir : Path) (tree : Node)
    : gmap Path CurrentMeta :=
  fold_left
    (λ current_files '(root, _, files),
       if bool_decide (".savior" ∈ project_dir ++ root) then current_files
       else
         fold_left
           (λ current_files file,
              let rel_path := root ++ [file] in
              match tree_file rel_path tree with
              | Some f =>
                  <[rel_path := {| current_hash := sha256 (data f);
                                   current_mtime := st_mtime f;
                                   current_size := st_size f;
                                   current_mode := st_mode f |}]> current_files
              | None => current_files
              end) files current_files)
    (os_walk [] tree) ∅.

(** [ConflictDetector.detect_file_conflicts]. *)
Definition detect_file_conflicts (project_dir : Path) (tree : Node)
    (backup_files : gmap Path BackupMeta) : FileConflicts :=
  let current_files := scan_current project_dir tree in
  let compared :=
    fold_left
      (λ conflicts '(backup_path, backup_meta),
         match current_files !! backup_path with
         | Some cur =>
             let conflicts :=
               if bool_decide (current_hash cur ≠ backup_hash backup_meta)
               then {| modified_since_backup :=
                         modified_since_backup conflicts
                         ++ [mkConflict backup_path (Some cur) (Some backup_meta)];
                       new_files := new_files conflicts;
                       deleted_files := deleted_files conflicts;
                       permission_changes := permission_changes conflicts |}
               else conflicts in
             if bool_decide (current_mode cur ≠ backup_mode backup_meta)
             then {| modified_since_backup := modified_since_backup conflicts;
                     new_files := new_files conflicts;
                     deleted_files := deleted_files conflicts;
                     permission_changes :=
                       permission_changes conflicts
                       ++ [mkConflict backup_path (Some cur) (Some backup_meta)] |}
             else conflicts
         | None =>
             {| modified_since_backup := modified_since_backup conflicts;
                new_files := new_files conflicts;
                deleted_files :=
                  deleted_files conflicts
                  ++ [mkConflict backup_path None (Some backup_meta)];
                permission_changes := permission_changes conflicts |}
         end)
      (map_to_list backup_files)
      (mkFileConflicts [] [] [] []) in
  fold_left
    (λ conflicts '(current_path, cur),
       if bool_decide (current_path ∉ dom backup_files)
       then {| modified_since_backup := modified_since_backup conflicts;
               new_files := new_files conflicts
                            ++ [mkConflict current_path (Some cur) None];
               deleted_files := deleted_files conflicts;
               permission_changes := permission_changes conflicts |}
       else conflicts)
    (map_to_list current_files) compared.

End Detector.

(** [ConflictResolver.suggest_resolution_strategy]. *)
Definition suggest_resolution_strategy (conflict_type : ConflictType)
    : ConflictResolution :=
  match conflict_type with
  | UNCOMMITTED_CHANGES => BACKUP_CURRENT
  | MODIFIED_SINCE_BACKUP => BACKUP_CURRENT
  | NEW_FILES => KEEP_CURRENT
  | DELETED_FILES => OVERWRITE
  | PERMISSION_CHANGES => SKIP
  end.

(** The conflicts in the order in which the dictionary is iterated. *)
Definition items (conflicts : FileConflicts) : list (ConflictType * list Conflict) :=
  [ (MODIFIED_SINCE_BACKUP, modified_since_backup conflicts);
    (NEW_FILES, new_files conflicts);
    (DELETED_FILES, deleted_files conflicts);
    (PERMISSION_CHANGES, permission_changes conflicts) ].

(** [any(file_conflicts.values())]. *)
Definition any_conflicts (conflicts : FileConflicts) : bool :=
  existsb (λ '(_, l), match l with [] => false | _ => true end) (items conflicts).

Definition any_git_conflicts (g : GitConflicts) : bool :=
  negb (bool_decide (staged g = [])) || negb (bool_decide (modified g = []))
  || negb (bool_decide (untracked g = [])).

(** [ConflictResolver.apply_resolution_strategy]: the working tree after
    the conflicting files were copied below [.savior/conflict_backups],
    and the actions taken.  An [OSError] of a copy ends the loop: the
    tree stays as the copies made so far left it and no actions are
    returned ([None]). *)
Definition apply_resolution_strategy (tree : Node) (conflicts : FileConflicts)
    (strategy : ConflictType → ConflictResolution) : Node * option Actions :=
  foldl
    (λ acc '(conflict_type, its),
       foldl
         (λ '(tree, res) item,
            match res with
            | None => (tree, None)
            | Some actions =>
                match strategy conflict_type with
                | SKIP =>
                    (tree, Some {| backed_up := backed_up actions;
                                   skipped := skipped actions ++ [path item];
                                   overwritten := overwritten actions;
                                   kept := kept actions |})
                | KEEP_CURRENT =>
                    (tree, Some {| backed_up := backed_up actions;
                                   skipped := skipped actions;
                                   overwritten := overwritten actions;
                                   kept := kept actions ++ [path item] |})
                | OVERWRITE =>
                    (tree, Some {| backed_up := backed_up actions;
                                   skipped := skipped actions;
                                   overwritten := overwritten actions ++ [path item];
                                   kept := kept actions |})
                | BACKUP_CURRENT =>
                    match tree_lookup (path item) tree with
                    | Some (NFile f) =>
                        match copy2 ([".savior"; "conflict_backups"] ++ path item)
                                f tree with
                        | Some tree' =>
                            (tree',
                             Some {| backed_up := backed_up actions ++ [path item];
                                     skipped := skipped actions;
                                     overwritten := overwritten actions ++ [path item];
                                     kept := kept actions |})
                        | None => (tree, None)
                        end
                    | Some (NDir _) => (tree, None)
                    | None => (tree, Some actions)
                    end
                | MERGE => (tree, Some actions)
                end
            end) acc its)
    (tree, Some (mkActions [] [] [] [])) (items conflicts).

(** The regular files [create_pre_restore_backup] adds to the safety
    archive: all but those in a directory with a [.savior] component. *)
Definition pre_restore_members (project_dir : Path) (tree : Node)
    : list Tarfile.TarInfo :=
  flat_map
    (λ '(root, _, files),
       if bool_decide (".savior" ∈ project_dir ++ root) then []
       else
         flat_map (λ file,
                     match tree_file (root ++ [file]) tree with
                     | Some f => [Tarfile.tar_add f (str (root ++ [file]))]
                     | None => []
                     end) files)
    (os_walk [] tree).

(** [ConflictResolver.create_pre_restore_backup]: the name of the safety
    archive below [backup_dir], and the archive. *)
Definition create_pre_restore_backup (project_dir : Path) (tree : Node)
    (now : Datetime.datetime) : string * Tarfile.TarFile :=
  ("pre-restore-safety_" +:+ Datetime.human_time now +:+ ".tar.gz",
   Tarfile.mkTarFile true (pre_restore_members project_dir tree)).

End Conflicts.


(** ** core.py: the ignore engine and file collection *)

Module Core.

Section Ignore.

(** [fnmatch.fnmatch(name, pattern)]. *)
Variable fnmatch : string → string → bool.

(** [SaviorIgnore._load_ignore_patterns]; [ignore_file] is the text of
    [.saviorignore], or [None] when the file does not exist. *)
Definition _load_ignore_patterns (ignore_file : option string)
    (exclude_git : bool) (extra_patterns : list string) : list string :=
  let patterns := [".savior/"; "__pycache__/"; "*.pyc"; ".DS_Store"] in
  let patterns := if exclude_git then patterns ++ [".git/"] else patterns in
  let patterns := patterns ++ extra_patterns in
  match ignore_file with
  | Some text =>
      patterns ++
      filter (λ line, line ≠ "" ∧ startswith line "#" = false)
             (map strip (lines text))
  | None => patterns
  end.

(** [SaviorIgnore.should_ignore]. *)
Fixpoint should_ignore (patterns : list string) (path : string) : bool :=
  match patterns with
  | [] => false
  | pattern :: rest =>
      if fnmatch path pattern || fnmatch (basename path) pattern then true
      else if endswith_char pattern "/"%char
              && bool_decide (drop_last pattern ∈ split "/"%char path)
           then true
           else should_ignore rest path
  end.

(** The size ceiling of [_collect_files]. *)
Definition MAX_FILE_SIZE : nat := 100 * 1024 * 1024.

(** [Savior._collect_files]: the visit of [os.walk] at the directory
    [rel_root] below [project_dir]; ignored sub-directories are pruned
    from [dirs] and not descended into. *)
Fixpoint _collect_walk (patterns : list string) (project_dir rel_root : Path)
    (n : Node) {struct n} : list Path :=
  match n with
  | NFile _ => []
  | NDir entries =>
      map_fold
        (λ filename c acc,
           match c with
           | NFile f =>
               let rel_path := rel_root ++ [filename] in
               if negb (should_ignore patterns (str rel_path))
                  && (st_size f <? MAX_FILE_SIZE)%nat && readable f
               then (project_dir ++ rel_path) :: acc else acc
           | NDir _ => acc
           end) [] entries
      ++
      map_fold
        (λ d c acc,
           match c with
           | NDir _ =>
               if should_ignore patterns (str (rel_root ++ [d])) then acc
               else _collect_walk patterns project_dir (rel_root ++ [d]) c ++ acc
           | NFile _ => acc
           end) [] entries
  end.

Definition _collect_files (patterns : list string) (project_dir : Path)
    (tree : Node) : gset Path :=
  list_to_set (_collect_walk patterns project_dir [] tree).

End Ignore.

(** *** Backups and project metadata *)

Import Datetime.

Record Backup := mkBackup {
  timestamp : datetime;
  path : Path;
  description : string;
  bsize : nat   (* the backup's 'size' *)
}.

#[export] Instance Backup_eq_dec : EqDecision Backup.
Proof. solve_decision. Defined.

(** [metadata.json] (sessions are kept by the command line only). *)
Record Metadata := mkMetadata {
  backups : list Backup;
  watching : bool
}.

(** A file written below [backup_dir] whose content the engine reads
    back: a tar archive or a manifest document. *)
Inductive StoredFile :=
| TarStored (t : Tarfile.TarFile)
| ManifestStored (m : Dedup.Manifest).

(** A project on disk: the regular files and directories below
    [project_dir], the archives and manifests the engine wrote (by
    absolute path), and the metadata document, if it exists. *)
Record Project := mkProject {
  tree : Node;
  store : gmap Path StoredFile;
  metadata_file : option Metadata
}.

(** A [Savior] object. *)
Record Savior := mkSavior {
  project_dir : Path;
  patterns : list string   (* [self.ignore.patterns] *)
}.

Definition backup_dir (sv : Savior) : Path := project_dir sv ++ [".savior"].

Inductive Exn :=
| ValueError (msg : string)
| IOError (msg : string)
| FileExistsError.

Definition _load_metadata (p : Project) : Metadata :=
  default {| backups := []; watching := false |} (metadata_file p).

(** [_save_metadata]: the document replaces the previous one. *)
Definition _save_metadata (p : Project) (metadata : Metadata) : Project :=
  {| tree := tree p; store := store p; metadata_file := Some metadata |}.

(** [sorted(backups, key=lambda b: b.timestamp, reverse=True)]: a stable
    sort, newest first. *)
Fixpoint insert_desc (b : Backup) (l : list Backup) : list Backup :=
  match l with
  | [] => [b]
  | x :: l' =>
      if (to_micro (timestamp x) <=? to_micro (timestamp b))%Z then b :: l
      else x :: insert_desc b l'
  end.

Definition sorted_desc (l : list Backup) : list Backup := foldr insert_desc [] l.

(** [backup.path.unlink()]. *)
Definition unlink_stored (path : Path) (st : gmap Path StoredFile)
    : gmap Path StoredFile := delete path st.

(** *** Retention *)

(** What the loop of [_cleanup_old_backups] does with one backup that is
    not among the ten most recent. *)
Inductive Verdict := Keep | Remove.

#[export] Instance Verdict_eq_dec : EqDecision Verdict.
Proof. solve_decision. Defined.

Definition retention_verdict (now : datetime) (backup : Backup) : Verdict :=
  let age := (to_micro now - to_micro (timestamp backup))%Z in
  if (days 30 <? age)%Z then Remove
  else if (age <? hours 24)%Z then Keep
  else if (age <? days 7)%Z && (hour (timestamp backup) mod 6 =? 0)%Z then Keep
  else if (age <? days 30)%Z && (day (timestamp backup) mod 7 =? 0)%Z then Keep
  else Remove.

(** Removal of duplicates by path, first occurrence kept. *)
Fixpoint unique_by_path (seen : gset Path) (l : list Backup) : list Backup :=
  match l with
  | [] => []
  | b :: l' =>
      if bool_decide (path b ∈ seen) then unique_by_path seen l'
      else b :: unique_by_path ({[path b]} ∪ seen) l'
  end.

(** The body of the loop of [_cleanup_old_backups], on the backups
    kept so far, the stored files and [removed_count]. *)
Definition cleanup_step (now : datetime) (recent_paths : gset Path)
    (acc : list Backup * gmap Path StoredFile * nat) (backup : Backup)
    : list Backup * gmap Path StoredFile * nat :=
  let '(kept_backups, st, removed_count) := acc in
  if bool_decide (path backup ∈ recent_paths)
  then (kept_backups, st, removed_count)
  else
    match retention_verdict now backup with
    | Keep => (kept_backups ++ [backup], st, removed_count)
    | Remove =>
        if bool_decide (path backup ∈ dom st)
        then (kept_backups, unlink_stored (path backup) st, S removed_count)
        else (kept_backups, st, removed_count)
    end.

(** [Savior._cleanup_old_backups]; the count is [removed_count].  A
    removed archive that was alone in its folder takes the folder with
    it: the store holds files only. *)
Definition _cleanup_old_backups (now : datetime) (p : Project) : Project * nat :=
  let metadata := _load_metadata p in
  let recent_backups := take 10 (sorted_desc (backups metadata)) in
  let recent_paths : gset Path := list_to_set (map path recent_backups) in
  let '(kept_backups, st, removed_count) :=
    fold_left (cleanup_step now recent_paths)
      (sorted_desc (backups metadata)) (recent_backups, store p, 0) in
  (_save_metadata {| tree := tree p; store := st; metadata_file := metadata_file p |}
     {| backups := unique_by_path ∅ kept_backups; watching := watching metadata |},
   removed_count).

(** *** Creating a backup *)

(** [re.sub(r'[^\w\s-]', '', description.lower())], then
    [re.sub(r'[-\s]+', '-', ...)], then [[:50].strip('-')], on ASCII. *)
Definition is_word (c : ascii) : bool :=
  let n := nat_of_ascii c in
  ((48 <=? n) && (n <=? 57)) || ((65 <=? n) && (n <=? 90))
  || ((97 <=? n) && (n <=? 122)) || (n =? 95).

Definition is_dash (c : ascii) : bool := Ascii.eqb c "-"%char.

Fixpoint keep_word_space_dash (s : string) : string :=
  match s with
  | EmptyString => EmptyString
  | String c s' =>
      if is_word c || is_space c || is_dash c
      then String c (keep_word_space_dash s') else keep_word_space_dash s'
  end.

Fixpoint collapse_runs (in_run : bool) (s : string) : string :=
  match s with
  | EmptyString => EmptyString
  | String c s' =>
      if is_dash c || is_space c
      then if in_run then collapse_runs true s'
           else String "-"%char (collapse_runs true s')
      else String c (collapse_runs false s')
  end.

Fixpoint lstrip_dash (s : string) : string :=
  match s with
  | String c s' => if is_dash c then lstrip_dash s' else s
  | EmptyString => EmptyString
  end.

Fixpoint rstrip_dash (s : string) : string :=
  match s with
  | EmptyString => EmptyString
  | String c s' =>
      match rstrip_dash s' with
      | EmptyString => if is_dash c then EmptyString else String c EmptyString
      | r => String c r
      end
  end.

Definition clean_desc (description : string) : string :=
  lstrip_dash (rstrip_dash
    (substring 0 50 (collapse_runs false (keep_word_space_dash (lower description))))).

(** [psutil.disk_usage(backup_dir)]: total and free bytes. *)
Record DiskUsage := mkDiskUsage { total : Z; free : Z }.

(** [_check_disk_space]: is there room?  Without an answer from
    [psutil] the backup proceeds. *)
Definition _check_disk_space (usage : option DiskUsage) (required_bytes : Z) : bool :=
  match usage with
  | Some u =>
      negb ((10 * free u <? total u)%Z
            || (free u <? required_bytes + 100 * 1024 * 1024)%Z)
  | None => true
  end.

(** [_estimate_backup_size]: 40% of the bytes to back up, rounded down. *)
Definition _estimate_backup_size (sv : Savior) (tr : Node) (files : list Path) : Z :=
  let total_size :=
    foldr (λ file_path acc,
             match relative_to file_path (project_dir sv) ≫= λ rel, tree_file rel tr with
             | Some f => (Z.of_nat (st_size f) + acc)%Z
             | None => acc
             end) 0%Z files in
  (total_size * 2 / 5)%Z.

(** The instants [datetime.now()] returns during [create_backup]: in
    the first cleanup, for the backup itself, in the second cleanup. *)
Record Clock := mkClock {
  t_cleanup : datetime;
  t_backup : datetime;
  t_cleanup_after : datetime
}.

Section Backup.

Variable fnmatch : string → string → bool.

(** [backup_path.stat().st_size] of a written archive. *)
Variable archive_size : Tarfile.TarFile → nat.

(** [Savior.__init__]: the ignore patterns are read once. *)
Definition Savior_init (project_dir : Path) (tr : Node) (exclude_git : bool)
    (extra_ignores : list string) : Savior :=
  {| project_dir := project_dir;
     patterns := _load_ignore_patterns (data <$> tree_file [".saviorignore"] tr)
                   exclude_git extra_ignores |}.

(** The members [create_backup] adds to the archive; a file that
    cannot be added is skipped. *)
Definition archive_members (sv : Savior) (tr : Node) (files : list Path)
    : list Tarfile.TarInfo :=
  flat_map
    (λ file_path,
       match relative_to file_path (project_dir sv) with
       | Some rel_path =>
           match tree_file rel_path tr with
           | Some f => [Tarfile.tar_add f (str rel_path)]
           | None => []
           end
       | None => []
       end) files.

(** [Savior.create_backup] (cloud storage disabled). *)
Definition create_backup (sv : Savior) (clock : Clock) (usage : option DiskUsage)
    (description : string) (compression_level : Z) (p : Project)
    : Project * (Backup + Exn) :=
  match tree_makedirs [".savior"] (tree p) with
  | None => (p, inr FileExistsError)
  | Some tr =>
      let p := {| tree := tr; store := store p; metadata_file := metadata_file p |} in
      let p := fst (_cleanup_old_backups (t_cleanup clock) p) in
      let files := elements (_collect_files fnmatch (patterns sv) (project_dir sv) (tree p)) in
      match files with
      | [] => (p, inr (ValueError "No files to backup"))
      | _ =>
          let estimated_size := _estimate_backup_size sv (tree p) files in
          if negb (_check_disk_space usage estimated_size)
          then (p, inr (IOError "Insufficient disk space"))
          else
            let timestamp := t_backup clock in
            let extension := if (0 <? compression_level)%Z then ".tar.gz" else ".tar" in
            let backup_folder := backup_dir sv ++ [folder_name timestamp] in
            let backup_filename :=
              if bool_decide (description = "") then "backup" +:+ extension
              else clean_desc description +:+ extension in
            let backup_path := backup_folder ++ [backup_filename] in
            let archive :=
              {| Tarfile.gz := negb (compression_level =? 0)%Z;
                 Tarfile.members := archive_members sv (tree p) files |} in
            let backup :=
              {| timestamp := timestamp;
                 path := backup_path;
                 description := if bool_decide (description = "")
                                then "Automatic backup" else description;
                 bsize := archive_size archive |} in
            let p := {| tree := tree p;
                        store := <[backup_path := TarStored archive]> (store p);
                        metadata_file := metadata_file p |} in
            let metadata := _load_metadata p in
            let p := _save_metadata p
                       {| backups := backups metadata ++ [backup];
                          watching := watching metadata |} in
            let p := fst (_cleanup_old_backups (t_cleanup_after clock) p) in
            (p, inl backup)
      end
  end.

End Backup.

(** *** Restoring a backup *)

Section Restore.

Variable sha256 : string → string.

(** The metadata [restore_backup] builds from the files extracted
    below [temp_dir]. *)
Definition build_backup_files (temp_dir : Path) (extracted : gmap Path File)
    : gmap Path Conflicts.BackupMeta :=
  list_to_map
    (omap (λ '(src_file, f),
             rel_path ← relative_to src_file temp_dir;
             Some (rel_path,
                   {| Conflicts.backup_hash := sha256 (data f);
                      Conflicts.backup_size := st_size f;
                      Conflicts.backup_mode := st_mode f |}))
          (map_to_list extracted)).

(** The first loop of the restoration: working-tree files that are
    not in the backup are removed, except in directories whose path
    has a [.savior] component and except files whose relative path
    starts with [.savior]. *)
Definition remove_absent (sv : Savior)
    (backup_files : gmap Path Conflicts.BackupMeta) (tr : Node) : Node :=
  fold_left
    (λ tr '(root, _, files),
       if bool_decide (".savior" ∈ project_dir sv ++ root) then tr
       else
         fold_left
           (λ tr file,
              let rel_path := root ++ [file] in
              if bool_decide (rel_path ∉ dom backup_files)
                 && negb (startswith (str rel_path) ".savior")
              then tree_unlink rel_path tr else tr) files tr)
    (os_walk [] tr) tr.

(** The second loop: every extracted file is copied to its place.
    An [OSError] ends the loop; the flag tells whether all were
    copied. *)
Definition copy_extracted (temp_dir : Path) (extracted : gmap Path File)
    (tr : Node) : Node * bool :=
  fold_left
    (λ (acc : Node * bool) '(src_file, f),
       let '(tr, ok) := acc in
       if (ok : bool) then
         match relative_to src_file temp_dir with
         | Some rel_path =>
             match copy2 rel_path f tr with
             | Some tr' => (tr', true)
             | None => (tr, false)
             end
         | None => (tr, false)
         end
       else (tr, false))
    (map_to_list extracted) (tr, true).

(** [Savior.restore_backup].  [temp_dir] is the fresh directory
    [tempfile.mkdtemp] returns (removed again on every path),
    [git_conflicts] is what [git] reports, [now] is the time of the
    safety backup.  Every exception is caught and turned into the
    result [False]; changes made before it stay. *)
Definition restore_backup (sv : Savior) (temp_dir : Path)
    (git_conflicts : Conflicts.GitConflicts) (now : datetime)
    (backup_index : Z) (check_conflicts auto_backup force : bool)
    (p : Project) : Project * bool :=
  let bs := backups (_load_metadata p) in
  if bool_decide (bs = []) || (backup_index <? 0)%Z
     || (Z.of_nat (length bs) <=? backup_index)%Z
  then (p, false)
  else
    match sorted_desc bs !! Z.to_nat backup_index with
    | None => (p, false)
    | Some backup =>
        match store p !! path backup with
        | None => (p, false)
        | Some stored =>
            match Tarfile.open_r_gz
                    (match stored with TarStored t => Some t | _ => None end) with
            | None => (p, false)
            | Some ms =>
                match Tarfile.extractall Tarfile.data_filter temp_dir ms ∅ with
                | inl _ => (p, false)
                | inr extracted =>
                    let backup_files := build_backup_files temp_dir extracted in
                    let '(p, ok) :=
                      if check_conflicts && negb force then
                        let file_conflicts :=
                          Conflicts.detect_file_conflicts sha256 (project_dir sv)
                            (tree p) backup_files in
                        if Conflicts.any_conflicts file_conflicts
                           || Conflicts.any_git_conflicts git_conflicts
                        then
                          let st :=
                            if auto_backup then
                              let '(nm, t) :=
                                Conflicts.create_pre_restore_backup (project_dir sv)
                                  (tree p) now in
                              <[backup_dir sv ++ [nm] := TarStored t]> (store p)
                            else store p in
                          let '(tr, actions) :=
                            Conflicts.apply_resolution_strategy (tree p) file_conflicts
                              Conflicts.suggest_resolution_strategy in
                          ({| tree := tr; store := st;
                              metadata_file := metadata_file p |},
                           bool_decide (is_Some actions))
                        else (p, true)
                      else (p, true) in
                    if ok then
                      let tr := remove_absent sv backup_files (tree p) in
                      let '(tr, ok) := copy_extracted temp_dir extracted tr in
                      ({| tree := tr; store := store p;
                          metadata_file := metadata_file p |}, ok)
                    else (p, false)
                end
            end
        end
    end.

End Restore.

(** *** Purging *)

(** [l[:k]] and [l[k:]] split a list at the same place; a negative [k]
    counts from the end of the list. *)
Definition slice_index {A} (l : list A) (k : Z) : nat :=
  if (k <? 0)%Z then length l - Z.to_nat (- k) else Z.to_nat k.

Definition slice_to {A} (l : list A) (k : Z) : list A := take (slice_index l k) l.

Definition slice_from {A} (l : list A) (k : Z) : list A := drop (slice_index l k) l.

(** [Savior.purge_backups]. *)
Definition purge_backups (keep_recent : Z) (p : Project) : Project :=
  let metadata := _load_metadata p in
  let sorted_backups := sorted_desc (backups metadata) in
  let st :=
    fold_left
      (λ st backup,
         if bool_decide (path backup ∈ dom st) then unlink_stored (path backup) st
         else st)
      (slice_from sorted_backups keep_recent) (store p) in
  _save_metadata {| tree := tree p; store := st; metadata_file := metadata_file p |}
    {| backups := slice_to sorted_backups keep_recent;
       watching := watching metadata |}.

End Core.

(** ** core_dedup.py *)

Module CoreDedup.
Import Datetime Core.

(** [Path.stem]: the name without its suffix. *)
Definition stem (p : Path) : string :=
  substring 0 (String.length (name p) - String.length (suffix p)) (name p).

(** A project with its content store. *)
Record DedupProject := mkDedupProject {
  project : Project;
  dedup_store : Dedup.DeduplicationStore
}.

(** The regular files of a project as the content store reads them. *)
Definition view (sv : Savior) (tr : Node) : FsView :=
  λ file_path, relative_to file_path (project_dir sv) ≫= λ rel, tree_file rel tr.

(** [strftime("%Y%m%d_%H%M%S_dedup")]. *)
Definition make_backup_id (timestamp : datetime) : string :=
  compact_time timestamp +:+ "_dedup".

Section Dedup.

Variable fnmatch : string → string → bool.
Variable archive_size : Tarfile.TarFile → nat.
Variable sha256 : string → string.

(** The body of the loop of [create_backup_dedup], on the store and
    [dedup_files]. *)
Definition dedup_step (sv : Savior) (tr : Node) (now_iso backup_id : string)
    (acc : Dedup.DeduplicationStore * gmap Path Dedup.FileMeta) (file_path : Path)
    : Dedup.DeduplicationStore * gmap Path Dedup.FileMeta :=
  let '(ds, dedup_files) := acc in
  if Dedup.should_deduplicate (view sv tr) file_path then
    match relative_to file_path (project_dir sv) with
    | Some rel_path =>
        match Dedup.store_file sha256 (view sv tr) now_iso ds file_path backup_id with
        | (ds', Some metadata) => (ds', <[rel_path := metadata]> dedup_files)
        | (ds', None) => (ds', dedup_files)
        end
    | None => (ds, dedup_files)
    end
  else (ds, dedup_files).

(** The loop of [create_backup_dedup] over the collected files: the
    store and [dedup_files] afterwards. *)
Definition dedup_loop (sv : Savior) (tr : Node) (now_iso backup_id : string)
    (file_list : list Path) (ds : Dedup.DeduplicationStore)
    : Dedup.DeduplicationStore * gmap Path Dedup.FileMeta :=
  fold_left (dedup_step sv tr now_iso backup_id) file_list (ds, ∅).

(** [SaviorWithDedup.create_backup_dedup] with deduplication enabled;
    [now_iso] is the ISO text of the instants recorded in the store. *)
Definition create_backup_dedup (sv : Savior) (clock : Clock)
    (usage : option DiskUsage) (now_iso description : string)
    (dp : DedupProject) : DedupProject * option Backup :=
  match tree_makedirs [".savior"] (tree (project dp)) with
  | None => (dp, None)
  | Some tr =>
      let p := {| tree := tr; store := store (project dp);
                  metadata_file := metadata_file (project dp) |} in
      let p := fst (_cleanup_old_backups (t_cleanup clock) p) in
      let file_list :=
        elements (_collect_files fnmatch (patterns sv) (project_dir sv) (tree p)) in
      match file_list with
      | [] => ({| project := p; dedup_store := dedup_store dp |}, None)
      | _ =>
          if negb (_check_disk_space usage (_estimate_backup_size sv (tree p) file_list))
          then ({| project := p; dedup_store := dedup_store dp |}, None)
          else
            let timestamp := t_backup clock in
            let backup_id := make_backup_id timestamp in
            let '(ds, dedup_files) :=
              dedup_loop sv (tree p) now_iso backup_id file_list (dedup_store dp) in
            let manifest := Dedup.create_manifest backup_id now_iso dedup_files in
            let manifest_path := Dedup.manifest_path (backup_dir sv) backup_id in
            let backup :=
              {| timestamp := timestamp;
                 path := manifest_path;
                 description := description +:+ " [DEDUP]";
                 bsize := map_fold (λ _ f acc, Dedup.meta_size f + acc) 0 dedup_files |} in
            let p := {| tree := tree p;
                        store := <[manifest_path := ManifestStored manifest]> (store p);
                        metadata_file := metadata_file p |} in
            let metadata := _load_metadata p in
            let p := _save_metadata p
                       {| backups := backups metadata ++ [backup];
                          watching := watching metadata |} in
            ({| project := p; dedup_store := ds |}, Some backup)
      end
  end.

(** [SaviorWithDedup.restore_backup_dedup]. *)
Definition restore_backup_dedup (sv : Savior) (temp_dir : Path)
    (git_conflicts : Conflicts.GitConflicts) (now : datetime)
    (backup_index : Z) (dp : DedupProject) : DedupProject * bool :=
  let p := project dp in
  let bs := backups (_load_metadata p) in
  if bool_decide (bs = []) || (backup_index <? 0)%Z
     || (Z.of_nat (length bs) <=? backup_index)%Z
  then (dp, false)
  else
    match sorted_desc bs !! Z.to_nat backup_index with
    | None => (dp, false)
    | Some backup =>
        if negb (contains "[DEDUP]" (description backup)) then
          let '(p', r) :=
            restore_backup sha256 sv temp_dir git_conflicts now backup_index
              true true false p in
          ({| project := p'; dedup_store := dedup_store dp |}, r)
        else
          let backup_id := stem (path backup) in
          match store p !! Dedup.manifest_path (backup_dir sv) backup_id with
          | Some (ManifestStored manifest) =>
              let '(tr, restored) :=
                fold_left
                  (λ '(tr, restored) '(file_path, metadata),
                     match Dedup.retrieve_file (dedup_store dp)
                             (Dedup.hash metadata) file_path tr with
                     | (tr', true) => (tr', S restored)
                     | (tr', false) => (tr', restored)
                     end)
                  (map_to_list (Dedup.files manifest)) (tree p, 0) in
              ({| project := {| tree := tr; store := store p;
                                metadata_file := metadata_file p |};
                  dedup_store := dedup_store dp |},
               (0 <? restored))
          | _ => (dp, false)
          end
    end.

End Dedup.

End CoreDedup.


(** ** incremental.py *)

Module Incremental.

(** An entry of [file_states.json]. *)
Record FileInfo := mkFileInfo {
  hash : string;
  mtime : Z;
  fsize : nat   (* the entry's 'size' *)
}.

(** An [IncrementalBackup] object.  [project_dir] is [None] while the
    object has no attribute of that name. *)
Record IncrementalBackup := mkIncrementalBackup {
  backup_dir : Path;
  project_dir : option Path;
  file_states : gmap string FileInfo
}.

(** [IncrementalBackup.__init__]; [state_file] is the content of
    [file_states.json], if the file exists. *)
Definition init (backup_dir : Path) (state_file : option (gmap string FileInfo))
    : IncrementalBackup :=
  {| backup_dir := backup_dir;
     project_dir := None;
     file_states := default ∅ state_file |}.

Section Differ.

Variable sha256 : string → string.

(** [_get_file_info]; [None] stands for the [OSError] of a missing
    file. *)
Definition _get_file_info (fs : FsView) (filepath : Path) : option FileInfo :=
  f ← fs filepath;
  Some {| hash := sha256 (data f); mtime := st_mtime f; fsize := st_size f |}.

(** What the loop of [find_changed_files] has built so far. *)
Record Diff := mkDiff {
  added : gset Path;
  modified : gset Path;
  current_files : gmap string FileInfo
}.

(** The body of the loop: any exception (the missing attribute
    [project_dir], a path outside of it, an unreadable file) skips the
    file. *)
Definition diff_step (self : IncrementalBackup) (fs : FsView) (d : Diff)
    (file_path : Path) : Diff :=
  match project_dir self with
  | None => d
  | Some dir =>
      match relative_to file_path dir with
      | None => d
      | Some rel =>
          let rel_path := str rel in
          match _get_file_info fs file_path with
          | None => d
          | Some info =>
              let current_files := <[rel_path := info]> (current_files d) in
              match file_states self !! rel_path with
              | None =>
                  {| added := {[file_path]} ∪ added d; modified := modified d;
                     current_files := current_files |}
              | Some old =>
                  if bool_decide (hash old ≠ hash info)
                  then {| added := added d; modified := {[file_path]} ∪ modified d;
                          current_files := current_files |}
                  else {| added := added d; modified := modified d;
                          current_files := current_files |}
              end
          end
      end
  end.

(** [IncrementalBackup.find_changed_files]: the object with its new
    file states (also what is saved to [file_states.json]), and the
    sets returned. *)
Definition find_changed_files (self : IncrementalBackup) (fs : FsView)
    (files : gset Path)
    : IncrementalBackup * (gset Path * gset Path * gset string) :=
  let d := fold_left (diff_step self fs) (elements files) (mkDiff ∅ ∅ ∅) in
  let deleted_paths := dom (file_states self) ∖ dom (current_files d) in
  ({| backup_dir := backup_dir self;
      project_dir := project_dir self;
      file_states := current_files d |},
   (added d, modified d, deleted_paths)).

End Differ.

Section Restore.

(** The filter [extractall] applies when the call names none: the
    trusting one up to Python 3.13, the [data] filter from 3.14 on. *)
Variable default_filter : Tarfile.Filter.

(** [json.load(f).get('deleted_files', [])] of the manifest text. *)
Variable deleted_files_of : string → list string.

(** [IncrementalBackup.restore_incremental] on the files of the machine
    (absolute paths); [temp_dir] is the directory [tempfile.mkdtemp]
    returns.  Nothing is caught: [inl] is the state in which an
    exception leaves the files. *)
Definition restore_incremental (incremental_backup base_backup : option Tarfile.TarFile)
    (target_dir temp_dir : Path) (fs : gmap Path File)
    : gmap Path File + gmap Path File :=
  match Tarfile.open_r_gz base_backup with
  | None => inl fs
  | Some base_members =>
      match Tarfile.extractall default_filter target_dir base_members fs with
      | inl fs => inl fs
      | inr fs =>
          match Tarfile.open_r_gz incremental_backup with
          | None => inl fs
          | Some inc_members =>
              match Tarfile.extractall default_filter temp_dir inc_members fs with
              | inl fs => inl fs
              | inr fs =>
                  let fs :=
                    match fs !! (temp_dir ++ ["MANIFEST.json"]) with
                    | Some manifest =>
                        fold_left
                          (λ fs deleted_file,
                             delete (Tarfile.join_norm target_dir deleted_file) fs)
                          (deleted_files_of (data manifest)) fs
                    | None => fs
                    end in
                  let fs :=
                    fold_left
                      (λ fs '(file_path, f),
                         match relative_to file_path temp_dir with
                         | Some rel_path =>
                             if bool_decide (rel_path ≠ [])
                                && negb (String.eqb (name file_path) "MANIFEST.json")
                             then <[target_dir ++ rel_path := f]> fs
                             else fs
                         | None => fs
                         end)
                      (map_to_list fs) fs in
                  inr (filter (λ '(q, _), Tarfile.is_under temp_dir q = false) fs)
              end
          end
      end
  end.

End Restore.

Section Create.

Variable sha256 : string → string.

(** The manifest file as [json.dump] writes it: the time of the backup,
    the base backup and the deleted paths. *)
Variable manifest_file : Datetime.datetime → option Path → list string → File.

(** The members [create_incremental_backup] adds for the changed
    files; [None] stands for the exception of a file that cannot be
    added. *)
Definition changed_members (fs : FsView) (changed : list Path)
    : option (list Tarfile.TarInfo) :=
  foldr
    (λ file_path acc,
       match fs file_path, relative_to file_path (parent (parent file_path)), acc with
       | Some f, Some rel_path, Some ms => Some (Tarfile.tar_add f (str rel_path) :: ms)
       | _, _, _ => None
       end)
    (Some []) changed.

(** [IncrementalBackup.create_incremental_backup]: the object with its
    new file states, and the path and content of the archive.  (The
    manifest is written next to the archive and removed again once the
    archive is closed.) *)
Definition create_incremental_backup (self : IncrementalBackup) (fs : FsView)
    (files : gset Path) (base_backup : option Path) (timestamp : Datetime.datetime)
    : IncrementalBackup * option (Path * Tarfile.TarFile) :=
  let backup_name := "incremental_" +:+ Datetime.human_time timestamp +:+ ".tar.gz" in
  let backup_path := backup_dir self ++ [backup_name] in
  let '(self', (added, modified, deleted)) := find_changed_files sha256 self fs files in
  let manifest := manifest_file timestamp base_backup (elements deleted) in
  (self',
   ms ← changed_members fs (elements (added ∪ modified));
   Some (backup_path,
         Tarfile.mkTarFile true (Tarfile.tar_add manifest "MANIFEST.json" :: ms))).

End Create.

End Incremental.

(** ** safety.py *)

Module Safety.

Inductive ExtractError :=
| UnsafePath (name : string)
| UnsafeLink (linkname : string)
| ArchiveTooLarge (total_size : nat)
| ExtractionFailed.

(** The checks [safe_extract] runs over the members before it extracts
    anything: the first complaint, if there is one. *)
Fixpoint check_members (max_size total_size : nat) (ms : list Tarfile.TarInfo)
    : option ExtractError :=
  match ms with
  | [] => None
  | member :: ms' =>
      let total_size := total_size + Tarfile.size member in
      if startswith (Tarfile.name member) "/" || contains ".." (Tarfile.name member)
      then Some (UnsafePath (Tarfile.name member))
      else if (Tarfile.issym member || Tarfile.islnk member)
              && (startswith (Tarfile.linkname member) "/"
                  || contains ".." (Tarfile.linkname member))
      then Some (UnsafeLink (Tarfile.linkname member))
      else if max_size <? total_size then Some (ArchiveTooLarge total_size)
      else check_members max_size total_size ms'
  end.

(** [SafeFileOperations.safe_extract] on the files of the machine. *)
Definition safe_extract (archive : option Tarfile.TarFile) (extract_to : Path)
    (max_size_mb : nat) (fs : gmap Path File)
    : gmap Path File * (bool * option ExtractError) :=
  let max_size := max_size_mb * 1024 * 1024 in
  match Tarfile.open_r_gz archive with
  | None => (fs, (false, Some ExtractionFailed))
  | Some ms =>
      match check_members max_size 0 ms with
      | Some err => (fs, (false, Some err))
      | None =>
          match Tarfile.extractall Tarfile.data_filter extract_to ms fs with
          | inr fs' => (fs', (true, None))
          | inl fs' => (fs', (false, Some ExtractionFailed))
          end
      end
  end.

(** *** BackupIntegrityChecker *)

(** White space as [str.split()] sees it in ASCII text. *)
Definition is_whitespace (c : ascii) : bool :=
  let n := nat_of_ascii c in
  is_space c || ((28 <=? n) && (n <=? 31)).

Fixpoint take_word (s : string) : string :=
  match s with
  | EmptyString => EmptyString
  | String c s' => if is_whitespace c then EmptyString else String c (take_word s')
  end.

(** [text.split()[0]]; [None] stands for the [IndexError] of a text
    without a word. *)
Fixpoint first_word (s : string) : option string :=
  match s with
  | EmptyString => None
  | String c s' => if is_whitespace c then first_word s' else Some (take_word s)
  end.

(** [Path.with_suffix(suffix)]; [None] stands for the [ValueError] of a
    path with an empty name. *)
Definition with_suffix (p : Path) (suffix : string) : option Path :=
  if String.eqb (Fs.name p) "" then None
  else Some (parent p ++ [CoreDedup.stem p +:+ suffix]).

Section Integrity.

Variable sha256 : string → string.

(** [calculate_checksum] on the bytes of the files; [None] stands for
    the exception of a file that cannot be opened. *)
Definition calculate_checksum (fs : gmap Path string) (filepath : Path)
    : option string :=
  sha256 <$> fs !! filepath.

(** [create_checksum_file]. *)
Definition create_checksum_file (fs : gmap Path string) (archive_path : Path)
    : gmap Path string * bool :=
  match calculate_checksum fs archive_path with
  | None => (fs, false)
  | Some checksum =>
      match with_suffix archive_path ".sha256" with
      | None => (fs, false)
      | Some checksum_path =>
          (<[checksum_path :=
               checksum +:+ "  " +:+ Fs.name archive_path
               +:+ String (ascii_of_nat 10) EmptyString]> fs,
           true)
      end
  end.

(** [verify_checksum]; [None] stands for the [ValueError] that
    [with_suffix] raises before the [try]. *)
Definition verify_checksum (fs : gmap Path string) (archive_path : Path)
    : option bool :=
  match with_suffix archive_path ".sha256" with
  | None => None
  | Some checksum_path =>
      match fs !! checksum_path with
      | None => Some true
      | Some text =>
          match first_word text with
          | None => Some false
          | Some expected_checksum =>
              match calculate_checksum fs archive_path with
              | None => Some false
              | Some actual_checksum =>
                  Some (String.eqb expected_checksum actual_checksum)
              end
          end
      end
  end.

End Integrity.

End Safety.


(** ** daemon.py: the IPC gate *)

Module Daemon.

(** A JSON value, as [json.loads] builds it. *)
Inductive Json :=
| JNull
| JBool (b : bool)
| JNum (n : Z)
| JStr (s : string)
| JList (l : list Json)
| JObj (o : gmap string Json).

(** [d.get(key)]: [None] when the key is missing. *)
Definition get (d : gmap string Json) (key : string) : Json :=
  default JNull (d !! key).

(** [value == s] for a string [s]. *)
Definition eq_str (value : Json) (s : string) : bool :=
  match value with
  | JStr s' => String.eqb s' s
  | _ => false
  end.

(** What [client.recv(...).decode('utf-8')] and [json.loads] make of a
    connection. *)
Inductive Received :=
| RecvTimeout
| UndecodableBytes
| InvalidJson
| Loaded (command : Json).

(** How a call ends: with a value, with an exception, or by leaving
    the process ([sys.exit]). *)
Inductive Outcome :=
| Returns (response : Json)
| Raises
| Exits.

(** What the client gets. *)
Inductive Reply :=
| Sent (response : Json)
| NoReply.

Definition error (msg : string) : Json := JObj {[ "error" := JStr msg ]}.

Section Server.

(** The daemon's state and its command handlers. *)
Variable State : Type.
Variable _add_project : Json → Json → State → State * Outcome.
Variable _remove_project : Json → State → State * Outcome.
Variable _list_projects : State → State * Outcome.
Variable _get_status : State → State * Outcome.
Variable stop : State → State * Outcome.
Variable _log : string → State → State.

(** [str(value)] inside a message. *)
Variable py_str : Json → string.

(** [SaviorDaemon._process_command]. *)
Definition _process_command (command : gmap string Json) (st : State)
    : State * Outcome :=
  let cmd_type := get command "type" in
  if eq_str cmd_type "add_project" then
    match command !! "path" with
    | Some path => _add_project path (default (JObj ∅) (command !! "options")) st
    | None => (st, Raises)
    end
  else if eq_str cmd_type "remove_project" then
    match command !! "path" with
    | Some path => _remove_project path st
    | None => (st, Raises)
    end
  else if eq_str cmd_type "list_projects" then _list_projects st
  else if eq_str cmd_type "status" then _get_status st
  else if eq_str cmd_type "stop" then
    match stop st with
    | (st', Returns _) => (st', Returns (JObj {[ "status" := JStr "stopping" ]}))
    | r => r
    end
  else (st, Returns (error ("Unknown command: " +:+ py_str cmd_type))).

(** [SaviorDaemon._handle_client]. *)
Definition _handle_client (auth_token : string) (received : Received) (st : State)
    : State * Reply :=
  match received with
  | RecvTimeout => (st, Sent (error "Request timeout"))
  | InvalidJson => (st, Sent (error "Invalid JSON"))
  | UndecodableBytes => (_log "Client error" st, Sent (error "Internal error"))
  | Loaded (JObj command) =>
      if negb (eq_str (get command "auth") auth_token)
      then (st, Sent (error "Authentication failed"))
      else
        match _process_command command st with
        | (st', Returns response) => (st', Sent response)
        | (st', Raises) => (_log "Client error" st', Sent (error "Internal error"))
        | (st', Exits) => (st', NoReply)
        end
  | Loaded _ => (_log "Client error" st, Sent (error "Internal error"))
  end.

End Server.

(** ** daemon.py: the command handlers *)

(** An entry of [projects.json]. *)
Record ProjectInfo := mkProjectInfo {
  pid : Z;
  started : string;
  options : Json
}.

(** The daemon: the content of [projects.json], the keys of
    [self.processes], the messages written to the log, the processes
    sent [SIGTERM], [self.running], and whether the pid file exists. *)
Record DaemonState := mkDaemonState {
  projects : gmap string ProjectInfo;
  processes : gset string;
  log : list string;
  terminated : list Z;
  running : bool;
  pid_file : bool
}.

Definition max_projects : nat := 20.

Definition forbidden : list string :=
  ["/etc"; "/bin"; "/sbin"; "/usr"; "/var"; "/sys"; "/proc"].

(** [str(path)] of an absolute path. *)
Definition abs_str (p : Path) : string := "/" +:+ join_sep p.

(** The truth value of a JSON value. *)
Definition truthy (v : Json) : bool :=
  match v with
  | JNull => false
  | JBool b => b
  | JNum n => negb (n =? 0)%Z
  | JStr s => negb (String.eqb s "")
  | JList l => match l with [] => false | _ => true end
  | JObj o => negb (bool_decide (o = ∅))
  end.

Definition info_json (info : ProjectInfo) : Json :=
  JObj {[ "pid" := JNum (pid info);
          "started" := JStr (started info);
          "options" := options info ]}.

Section Handlers.

(** [Path(path).resolve()]; [None] stands for an exception. *)
Variable resolve : string → option Path.

(** [Path.home()] and [Path.cwd()]. *)
Variable home cwd : Path.

(** [subprocess.Popen(cmd, cwd=path, ...)]: the pid of the child, or
    the text of the exception. *)
Variable popen : list string → string → Z + string.

(** [sys.executable], [datetime.now().isoformat()],
    [psutil.pid_exists], [os.getpid()]. *)
Variable executable : string.
Variable now_iso : string.
Variable pid_exists : Z → bool.
Variable getpid : Z.

(** [str(value)]. *)
Variable py_str : Json → string.

(** [SaviorDaemon._log] (the line's time stamp is left out). *)
Definition _log (message : string) (st : DaemonState) : DaemonState :=
  {| projects := projects st; processes := processes st;
     log := log st ++ [message]; terminated := terminated st;
     running := running st; pid_file := pid_file st |}.

(** [SaviorDaemon._validate_project_path]: a path that is no string
    makes [Path(path)] raise, which the handler turns into [False]. *)
Definition _validate_project_path (path : Json) : bool :=
  match path with
  | JStr s =>
      match resolve s with
      | Some project_path =>
          if existsb (λ forbidden_path, startswith (abs_str project_path) forbidden_path)
               forbidden
          then false
          else if bool_decide (is_Some (relative_to project_path home)) then true
          else bool_decide (is_Some (relative_to project_path cwd))
      | None => false
      end
  | _ => false
  end.

(** [str(min(options.get('interval', 20), 1440))]; [None] stands for
    the [TypeError] of a value that does not compare with a number. *)
Definition interval_arg (options : gmap string Json) : option string :=
  match default (JNum 20) (options !! "interval") with
  | JNum n => Some (py_str (JNum (Z.min n 1440)))
  | JBool b => Some (py_str (JBool b))
  | _ => None
  end.

(** [SaviorDaemon._add_project]. *)
Definition _add_project (path options : Json) (st : DaemonState)
    : DaemonState * Outcome :=
  if negb (_validate_project_path path)
  then (st, Returns (error "Invalid or forbidden project path"))
  else if (max_projects <=? size (projects st))%nat
  then (st, Returns (error "Maximum number of projects (20) reached"))
  else
    match path with
    | JStr p =>
        if bool_decide (p ∈ dom (projects st))
        then (st, Returns (error "Project already being watched"))
        else
          match options with
          | JObj o =>
              match interval_arg o with
              | Some interval =>
                  let cmd :=
                    [executable; "-m"; "savior.cli"; "watch"; "--interval"; interval]
                    ++ (if truthy (get o "smart") then ["--smart"] else [])
                    ++ (if truthy (get o "incremental") then ["--incremental"] else [])
                    ++ (if truthy (get o "exclude_git") then ["--exclude-git"] else []) in
                  match popen cmd p with
                  | inl child =>
                      (_log ("Added project: " +:+ p +:+ " (PID: "
                             +:+ py_str (JNum child) +:+ ")")
                         {| projects :=
                              <[p := {| pid := child; started := now_iso;
                                        options := options |}]> (projects st);
                            processes := {[p]} ∪ processes st;
                            log := log st; terminated := terminated st;
                            running := running st; pid_file := pid_file st |},
                       Returns (JObj {[ "status" := JStr "added";
                                        "pid" := JNum child ]}))
                  | inr e => (st, Returns (error e))
                  end
              | None => (st, Raises)
              end
          | _ => (st, Raises)
          end
    | _ => (st, Returns (error "Invalid or forbidden project path"))
    end.

(** [SaviorDaemon._remove_project]: a list or an object is not
    hashable, so looking it up raises. *)
Definition _remove_project (path : Json) (st : DaemonState)
    : DaemonState * Outcome :=
  match path with
  | JList _ | JObj _ => (st, Raises)
  | JStr p =>
      match projects st !! p with
      | None => (st, Returns (error "Project not being watched"))
      | Some project =>
          (_log ("Removed project: " +:+ p)
             {| projects := delete p (projects st);
                processes := processes st ∖ {[p]};
                log := log st; terminated := terminated st ++ [pid project];
                running := running st; pid_file := pid_file st |},
           Returns (JObj {[ "status" := JStr "removed" ]}))
      end
  | _ => (st, Returns (error "Project not being watched"))
  end.

(** [SaviorDaemon._list_projects]. *)
Definition _list_projects (st : DaemonState) : DaemonState * Outcome :=
  let projects' := filter (λ kv, pid_exists (pid kv.2) = true) (projects st) in
  ({| projects := projects'; processes := processes st;
      log := log st; terminated := terminated st;
      running := running st; pid_file := pid_file st |},
   Returns (JObj {[ "projects" := JObj (info_json <$> projects') ]})).

(** [SaviorDaemon._get_status]. *)
Definition _get_status (st : DaemonState) : DaemonState * Outcome :=
  (st, Returns (JObj {[ "daemon_pid" := JNum getpid;
                        "projects_count" := JNum (Z.of_nat (size (projects st)));
                        "running" := JBool true ]})).

(** [SaviorDaemon.stop]. *)
Definition stop (st : DaemonState) : DaemonState * Outcome :=
  let st := _log "Stopping daemon" st in
  ({| projects := projects st; processes := processes st;
      log := log st;
      terminated := terminated st ++ map (λ kv, pid kv.2) (map_to_list (projects st));
      running := false; pid_file := false |},
   Exits).

(** The daemon's dispatcher and its connection handler. *)
Definition process_command : gmap string Json → DaemonState → DaemonState * Outcome :=
  _process_command DaemonState _add_project _remove_project _list_projects
    _get_status stop py_str.

Definition handle_client (auth_token : string)
    : Received → DaemonState → DaemonState * Reply :=
  _handle_client DaemonState _add_project _remove_project _list_projects
    _get_status stop _log py_str auth_token.

End Handlers.

End Daemon.

(** ** Persisting documents *)

Module Persist.

(** The text of each file on disk. *)
Abbreviation Disk := (gmap Path string).

(** The steps by which the code changes files. *)
Inductive Step :=
| OpenTruncate (p : Path)            (* [open(p, 'w')]: create or empty *)
| Write (p : Path) (chunk : string)  (* bytes reaching the file *)
| Mkstemp (p : Path)                 (* a fresh, empty temporary file *)
| Replace (src dst : Path).          (* [os.replace(src, dst)] *)

Definition run_step (d : Disk) (s : Step) : Disk :=
  match s with
  | OpenTruncate p => <[p := ""]> d
  | Write p chunk => <[p := default "" (d !! p) +:+ chunk]> d
  | Mkstemp p => <[p := ""]> d
  | Replace src dst =>
      match d !! src with
      | Some text => <[dst := text]> (delete src d)
      | None => d
      end
  end.

(** The disk after each step, in order. *)
Fixpoint trace (d : Disk) (steps : list Step) : list Disk :=
  match steps with
  | [] => []
  | s :: steps' => run_step d s :: trace (run_step d s) steps'
  end.

(** [json.dump(document, f, indent=2)] inside [with open(path, 'w')]:
    the file is emptied, then the text reaches it in chunks. *)
Definition dump_to (path : Path) (chunks : list string) : list Step :=
  OpenTruncate path :: map (Write path) chunks.

(** [DeduplicationStore._save_index]. *)
Definition _save_index (index_file : Path) (chunks : list string) : list Step :=
  dump_to index_file chunks.

(** [DeduplicationStore._save_stats]. *)
Definition _save_stats (stats_file : Path) (chunks : list string) : list Step :=
  dump_to stats_file chunks.

(** [Savior._save_metadata]: the text goes to a temporary file of the
    same directory, which then replaces the metadata file. *)
Definition _save_metadata (metadata_file temp_path : Path) (chunks : list string)
    : list Step :=
  Mkstemp temp_path :: map (Write temp_path) chunks ++ [Replace temp_path metadata_file].

(** A document is persisted atomically when the file holds, after each
    step, either what it held before or the whole new text. *)
Definition atomic (path : Path) (d : Disk) (steps : list Step) (new : string) : Prop :=
  ∀ d', d' ∈ trace d steps → d' !! path = d !! path ∨ d' !! path = Some new.

(** [SafeFileOperations.atomic_write] when no call fails: the content
    goes to a temporary file of the same directory (whose permissions
    are then set), which is renamed to [filepath]. *)
Definition atomic_write (filepath temp_path : Path) (content : string) : list Step :=
  [Mkstemp temp_path; Write temp_path content; Replace temp_path filepath].

End Persist.


(** * Properties *)

(** ** Inputs for concrete runs *)

Module Examples.

(** A stand-in digest: injective and never empty. *)
Definition toy_digest (content : string) : string := "h" +:+ content.

(** A text of [n] bytes. *)
Fixpoint text_of_size (n : nat) : string :=
  match n with
  | 0 => EmptyString
  | S n' => String "x"%char (text_of_size n')
  end.

End Examples.

(** ** The content store *)

Module DedupSpec.
Import Dedup.

(** The operations a client can apply to the store. *)
Inductive op :=
| OpStore (fs : FsView) (file_path : Path) (backup_id now : string)
| OpRemove (content_hash backup_id : string).

Section Run.

Variable sha256 : string → string.

Definition step (s : DeduplicationStore) (o : op) : DeduplicationStore :=
  match o with
  | OpStore fs p b now => fst (store_file sha256 fs now s p b)
  | OpRemove h b => fst (remove_reference s h b)
  end.

Definition run (ops : list op) (s : DeduplicationStore) : DeduplicationStore :=
  fold_left step ops s.

(** The backups that currently cite a hash: those that stored content
    with that hash and have not released it since. *)
Definition cite_step (g : string → gset string) (o : op) : string → gset string :=
  match o with
  | OpStore fs p b _ =>
      match fs p with
      | Some f =>
          let h := sha256 (data f) in
          if String.eqb h "" then g
          else λ x, if decide (x = h) then g x ∪ {[b]} else g x
      | None => g
      end
  | OpRemove h b => λ x, if decide (x = h) then g x ∖ {[b]} else g x
  end.

Definition citing (ops : list op) : string → gset string :=
  fold_left cite_step ops (λ _, ∅).

(** The reference count the index records for a hash (0 when the hash
    has no entry). *)
Definition refcount (s : DeduplicationStore) (h : string) : nat :=
  match index s !! h with
  | Some e => ref_count e
  | None => 0
  end.

Definition chunk_on_disk (s : DeduplicationStore) (h : string) : Prop :=
  is_Some (disk s !! _get_chunk_path h).

(** The invariant relating the store to the citing backups. *)
Definition store_inv (s : DeduplicationStore) (g : string → gset string) : Prop :=
  (∀ h, match index s !! h with
        | Some e =>
            list_to_set (refs e) = g h ∧ ref_count e = size (g h)
            ∧ 0 < ref_count e ∧ chunk_on_disk s h
        | None => g h = ∅ ∧ ¬ chunk_on_disk s h
        end)
  ∧ dom (disk s) = set_map _get_chunk_path (dom (index s)).

Lemma _get_chunk_path_inj h1 h2 :
  _get_chunk_path h1 = _get_chunk_path h2 → h1 = h2.
Proof. unfold _get_chunk_path. congruence. Qed.

Lemma length_elements_size (X : gset string) : length (elements X) = size X.
Proof. reflexivity. Qed.

Lemma list_to_set_elements_gset (X : gset string) :
  list_to_set (elements X) = X.
Proof. apply list_to_set_elements_L. Qed.

Lemma store_inv_init : store_inv _init_store (λ _, ∅).
Proof.
  split.
  - intros h. simpl. rewrite lookup_empty. split; [done|].
    unfold chunk_on_disk. simpl. rewrite lookup_empty. by intros [? ?].
  - simpl. rewrite !dom_empty_L. set_solver.
Qed.

Lemma store_inv_step s g o :
  store_inv s g → store_inv (step s o) (cite_step g o).
Proof.
  intros [Hinv Hdom]. destruct o as [fs p b now | h b]; simpl.
  - unfold store_file. destruct (fs p) as [f|] eqn:Hf; simpl; [|by split].
    destruct (String.eqb (sha256 (data f)) "") eqn:Hh; simpl; [by split|].
    set (h := sha256 (data f)).
    destruct (index s !! h) as [e|] eqn:He.
    + pose proof (Hinv h) as Hh0. rewrite He in Hh0.
      destruct Hh0 as (Hrefs & Hcnt & Hpos & Hdisk).
      split.
      * intros x. simpl. destruct (decide (x = h)) as [->|Hne].
        -- rewrite lookup_insert_eq. simpl.
           rewrite list_to_set_elements_gset, length_elements_size, Hrefs.
           repeat split; try done.
           assert (size (g h ∪ {[b]}) ≠ 0); [|lia].
           apply size_non_empty_iff. set_solver.
        -- rewrite lookup_insert_ne by done. specialize (Hinv x).
           destruct (index s !! x); unfold chunk_on_disk in *; simpl; done.
      * simpl. rewrite dom_insert_L.
        assert (h ∈ dom (index s)) by (apply elem_of_dom; eauto).
        rewrite Hdom. set_solver.
    + pose proof (Hinv h) as Hh0. rewrite He in Hh0.
      destruct Hh0 as (Hrefs & Hdisk).
      split.
      * intros x. simpl. destruct (decide (x = h)) as [->|Hne].
        -- rewrite lookup_insert_eq. simpl. rewrite Hrefs.
           split; [set_solver|]. split; [|split].
           ++ rewrite (left_id_L ∅ (∪)). by rewrite size_singleton.
           ++ lia.
           ++ unfold chunk_on_disk. simpl. rewrite lookup_insert_eq. eauto.
        -- rewrite lookup_insert_ne by done. specialize (Hinv x).
           assert (_get_chunk_path h ≠ _get_chunk_path x)
             by (intros Heq; apply _get_chunk_path_inj in Heq; done).
           destruct (index s !! x); unfold chunk_on_disk in *; simpl;
             rewrite lookup_insert_ne by done; done.
      * simpl. rewrite !dom_insert_L, Hdom. set_solver.
  - unfold remove_reference.
    destruct (index s !! h) as [e|] eqn:He; simpl.
    + pose proof (Hinv h) as Hh0. rewrite He in Hh0.
      destruct Hh0 as (Hrefs & Hcnt & Hpos & Hdisk).
      rewrite length_elements_size, Hrefs.
      destruct (size (g h ∖ {[b]}) =? 0)%nat eqn:Hz.
      * apply Nat.eqb_eq in Hz. apply size_empty_iff in Hz.
        apply leibniz_equiv in Hz.
        split.
        -- intros x. simpl. destruct (decide (x = h)) as [->|Hne].
           ++ rewrite lookup_delete_eq. split; [done|].
              unfold chunk_on_disk. simpl. rewrite lookup_delete_eq.
              by intros [? ?].
           ++ rewrite lookup_delete_ne by done. specialize (Hinv x).
              assert (_get_chunk_path h ≠ _get_chunk_path x)
                by (intros Heq; apply _get_chunk_path_inj in Heq; done).
              destruct (index s !! x); unfold chunk_on_disk in *; simpl;
                rewrite lookup_delete_ne by done; done.
        -- simpl. rewrite !dom_delete_L, Hdom.
           apply set_eq. intros q. rewrite elem_of_difference, !elem_of_map.
           split.
           ++ intros [(y & -> & Hy) Hq]. exists y. split; [done|].
              apply elem_of_difference. split; [done|].
              intros ->%elem_of_singleton. apply Hq. by apply elem_of_singleton.
           ++ intros (y & -> & [Hy Hyh]%elem_of_difference). split; [eauto|].
              intros Heq%elem_of_singleton. apply _get_chunk_path_inj in Heq.
              apply Hyh. by apply elem_of_singleton.
      * apply Nat.eqb_neq in Hz.
        split.
        -- intros x. simpl. destruct (decide (x = h)) as [->|Hne].
           ++ rewrite lookup_insert_eq. simpl.
              rewrite list_to_set_elements_gset.
              repeat split; try done. lia.
           ++ rewrite lookup_insert_ne by done. specialize (Hinv x).
              destruct (index s !! x); unfold chunk_on_disk in *; simpl; done.
        -- simpl. rewrite dom_insert_L.
           assert (h ∈ dom (index s)) by (apply elem_of_dom; eauto).
           rewrite Hdom. set_solver.
    + split; [|done]. intros x. destruct (decide (x = h)) as [->|Hne]; [|apply Hinv].
      pose proof (Hinv h) as Hh0. rewrite He in *. destruct Hh0 as [Hg ?].
      split; [|done]. rewrite Hg. set_solver.
Qed.

Lemma store_inv_run ops : ∀ s g,
  store_inv s g → store_inv (fold_left step ops s) (fold_left cite_step ops g).
Proof.
  induction ops as [|o ops IH]; intros s g H; simpl; [done|].
  apply IH. by apply store_inv_step.
Qed.

Lemma store_inv_reachable ops :
  store_inv (run ops _init_store) (citing ops).
Proof. apply store_inv_run, store_inv_init. Qed.

Lemma store_inv_refcount s g h :
  store_inv s g → refcount s h = size (g h).
Proof.
  intros [Hinv _]. specialize (Hinv h). unfold refcount.
  destruct (index s !! h) as [e|]; [tauto|].
  destruct Hinv as [-> _]. by rewrite size_empty.
Qed.

Lemma store_inv_chunk s g h :
  store_inv s g → chunk_on_disk s h ↔ 0 < refcount s h.
Proof.
  intros [Hinv _]. specialize (Hinv h). unfold refcount.
  destruct (index s !! h) as [e|]; [tauto|].
  split; [tauto|lia].
Qed.

Lemma store_inv_dom s g h :
  store_inv s g → h ∈ dom (index s) ↔ g h ≠ ∅.
Proof.
  intros [Hinv _]. specialize (Hinv h). rewrite elem_of_dom.
  destruct (index s !! h) as [e|].
  - destruct Hinv as (_ & Hc & Hp & _). split; [|eauto].
    intros _ Hg. rewrite Hg, size_empty in Hc. lia.
  - destruct Hinv as [-> _]. split; [by intros [? ?]|done].
Qed.

(** Citing backups after storing one file under the ids [bs]. *)
Lemma citing_same_file fs p f now bs : ∀ g,
  fs p = Some f → sha256 (data f) ≠ "" →
  ∀ x, fold_left cite_step (map (λ b, OpStore fs p b now) bs) g x
       = if decide (x = sha256 (data f)) then g x ∪ list_to_set bs else g x.
Proof.
  induction bs as [|b bs IH]; intros g Hf Hh x; simpl.
  - case_decide; [|done]. by rewrite (right_id_L ∅ (∪)).
  - rewrite IH by done. rewrite Hf.
    apply String.eqb_neq in Hh. rewrite Hh.
    case_decide; [|done]. set_solver.
Qed.

(** C2. Reference-count invariant of the content store.  After any
    sequence of [store_file] and [remove_reference] calls on a fresh
    store, for every content hash: the chunk file is on disk exactly
    when the recorded reference count is positive, and that count is
    the number of distinct backup ids currently citing the hash.  In
    particular storing one content under N distinct backup ids gives
    reference count N and a single chunk file, and releasing the last
    citing backup removes both the chunk and the index entry. *)
Theorem refcount_invariant (ops : list op) (h : string) :
  let s := run ops _init_store in
  (chunk_on_disk s h ↔ 0 < refcount s h)
  ∧ refcount s h = size (citing ops h)
  ∧ (∀ fs p f now bs,
       fs p = Some f → sha256 (data f) ≠ "" → NoDup bs → bs ≠ [] →
       let s' := run (map (λ b, OpStore fs p b now) bs) _init_store in
       refcount s' (sha256 (data f)) = length bs ∧ size (disk s') = 1)
  ∧ (∀ b, citing ops h = {[b]} →
       let s' := step s (OpRemove h b) in
       index s' !! h = None ∧ ¬ chunk_on_disk s' h).
Proof.
  intros s. pose proof (store_inv_reachable ops) as Hinv. fold s in Hinv.
  split; [by eapply store_inv_chunk|].
  split; [by eapply store_inv_refcount|].
  split.
  - intros fs p f now bs Hf Hh Hnd Hne s'.
    pose proof (store_inv_reachable (map (λ b, OpStore fs p b now) bs)) as Hinv'.
    fold s' in Hinv'.
    assert (Hg : ∀ x, citing (map (λ b, OpStore fs p b now) bs) x
                      = if decide (x = sha256 (data f))
                        then list_to_set bs else ∅).
    { intros x. unfold citing. rewrite (citing_same_file fs p f) by done.
      case_decide; [|done]. by rewrite (left_id_L ∅ (∪)). }
    split.
    + rewrite (store_inv_refcount _ _ _ Hinv'), Hg.
      rewrite decide_True by done. by apply size_list_to_set.
    + assert (Hdom : dom (index s') = {[sha256 (data f)]}).
      { apply set_eq. intros x. rewrite (store_inv_dom _ _ _ Hinv'), Hg.
        rewrite elem_of_singleton. case_decide; [|tauto].
        split; [done|]. intros _ Hempty. destruct bs as [|b0 bs]; [done|].
        assert (b0 ∈ (list_to_set (b0 :: bs) : gset string)) by set_solver.
        rewrite Hempty in H0. set_solver. }
      destruct Hinv' as [_ Hd].
      rewrite <- size_dom, Hd, Hdom, set_map_singleton_L.
      apply size_singleton.
  - intros b Hb s'.
    pose proof (store_inv_step s (citing ops) (OpRemove h b) Hinv) as [Hinv' _].
    fold s' in Hinv'. specialize (Hinv' h). simpl in Hinv'.
    rewrite decide_True in Hinv' by done.
    destruct (index s' !! h) as [e|]; [|tauto].
    destruct Hinv' as (_ & Hc & Hp & _).
    rewrite Hb in Hc.
    replace ({[b]} ∖ {[b]} : gset string) with (∅ : gset string) in Hc
      by set_solver.
    rewrite size_empty in Hc. lia.
Qed.

End Run.

Definition demo_fs : FsView :=
  λ p, if decide (p = ["proj"; "a.txt"]) then Some (mkFile "hello" 33188 0) else None.

Lemma refcount_invariant_witness :
  let s' := run Examples.toy_digest
              (map (λ b, OpStore demo_fs ["proj"; "a.txt"] b "t0")
                   ["backup_001"; "backup_002"; "backup_003"])
              _init_store in
  refcount s' (Examples.toy_digest "hello") = 3 ∧ size (disk s') = 1.
Proof.
  destruct (refcount_invariant Examples.toy_digest [] "") as (_ & _ & H & _).
  apply (H demo_fs ["proj"; "a.txt"] (mkFile "hello" 33188 0) "t0"
           ["backup_001"; "backup_002"; "backup_003"]).
  - reflexivity.
  - discriminate.
  - repeat constructor; set_solver.
  - discriminate.
Defined.

End DedupSpec.

(** ** Paths *)

Module PathFacts.

Lemma relative_to_Some p base rel :
  relative_to p base = Some rel → p = base ++ rel.
Proof.
  revert p. induction base as [|b base IH]; intros p; simpl.
  - by intros [= ->].
  - destruct p as [|c p]; [done|].
    destruct (String.eqb_spec c b) as [->|]; [|done].
    intros H. by rewrite (IH _ H).
Qed.

Lemma relative_to_app base rel : relative_to (base ++ rel) base = Some rel.
Proof.
  induction base as [|b base IH]; simpl; [done|]. by rewrite String.eqb_refl.
Qed.

End PathFacts.

(** ** Directory trees *)

Module TreeFacts.

Fixpoint Node_size (n : Node) : nat :=
  match n with
  | NFile _ => 1
  | NDir es => S (map_fold (λ _ c acc, Node_size c + acc) 0 es)
  end.

Lemma foldr_sum_elem {A} (g : A → nat) (x : A) (l : list A) :
  x ∈ l → g x ≤ foldr (λ y acc, g y + acc) 0 l.
Proof.
  induction l as [|y l IH]; intros Hin; [by apply elem_of_nil in Hin|].
  apply elem_of_cons in Hin as [->|Hin]; simpl; [lia|].
  specialize (IH Hin). lia.
Qed.

Lemma Node_size_child es k c :
  es !! k = Some c → Node_size c < Node_size (NDir es).
Proof.
  intros Hk. cbn [Node_size]. rewrite map_fold_foldr.
  apply elem_of_map_to_list in Hk.
  pose proof (foldr_sum_elem (λ kc, Node_size kc.2) (k, c) _ Hk) as Hle.
  simpl in Hle.
  assert (Heq : foldr (uncurry (λ (_ : string) c0 acc, Node_size c0 + acc)) 0
                  (map_to_list es)
                = foldr (λ y acc, Node_size y.2 + acc) 0 (map_to_list es)).
  { apply foldr_ext; [|done..]. by intros [??] ?. }
  rewrite Heq. lia.
Qed.

(** Induction on trees: a directory inherits from its entries. *)
Lemma Node_child_ind (P : Node → Prop) :
  (∀ f, P (NFile f)) →
  (∀ es, (∀ k c, es !! k = Some c → P c) → P (NDir es)) →
  ∀ n, P n.
Proof.
  intros Hf Hd n.
  remember (Node_size n) as m eqn:Hm. revert n Hm.
  induction m as [m IH] using lt_wf_ind. intros n ->.
  destruct n as [f|es]; [apply Hf|].
  apply Hd. intros k c Hk. eapply IH; [|reflexivity].
  by eapply Node_size_child.
Qed.

(** Membership in a [map_fold] that adds to an accumulated list. *)
Lemma elem_of_map_fold_app {A B} (f : string → A → list B → list B)
    (g : string → A → list B) (m : gmap string A) (x : B) :
  (∀ k a acc, f k a acc = g k a ++ acc) →
  x ∈ map_fold f [] m ↔ ∃ k a, m !! k = Some a ∧ x ∈ g k a.
Proof.
  intros Hfg. rewrite map_fold_foldr. setoid_rewrite <- elem_of_map_to_list.
  induction (map_to_list m) as [|[k a] l IH]; simpl.
  - split; [by intros ?%elem_of_nil|]. by intros (? & ? & ?%elem_of_nil & _).
  - rewrite Hfg, elem_of_app, IH. split.
    + intros [H|(k' & a' & Hin & Hx)]; [exists k, a; split; [left|done]|].
      exists k', a'. split; [by right|done].
    + intros (k' & a' & Hin & Hx). apply elem_of_cons in Hin as [[= -> ->]|Hin];
        [by left|]. right. eauto.
Qed.

End TreeFacts.

(** ** The ignore engine *)

Module IgnoreSpec.
Import Core TreeFacts.




Section Ignore.

Variable fnmatch : string → string → bool.





End Ignore.

Definition demo_tree : Node :=
  NDir {[ "a.txt" := NFile (mkFile "hello" 33188 0);
          ".savior" := NDir {[ "metadata.json" := NFile (mkFile "{}" 33188 0) ]} ]}.


End IgnoreSpec.

(** ** Retention *)

Module RetentionSpec.
Import Core Datetime.

Lemma insert_desc_perm b l : insert_desc b l ≡ₚ b :: l.
Proof.
  induction l as [|x l IH]; simpl; [done|].
  destruct (to_micro (timestamp x) <=? to_micro (timestamp b))%Z; [done|].
  rewrite IH. apply Permutation_swap.
Qed.

Lemma sorted_desc_perm l : sorted_desc l ≡ₚ l.
Proof.
  induction l as [|x l IH]; simpl; [done|].
  by rewrite insert_desc_perm, IH.
Qed.

Lemma elem_of_sorted_desc b l : b ∈ sorted_desc l ↔ b ∈ l.
Proof. by rewrite sorted_desc_perm. Qed.

Lemma loop_kept now recent_paths l : ∀ kept st n,
  (fold_left (cleanup_step now recent_paths) l (kept, st, n)).1.1
  = kept ++ filter (λ b, (path b ∉ recent_paths) ∧ retention_verdict now b = Keep) l.
Proof.
  induction l as [|b l IH]; intros kept st n; simpl.
  - by rewrite app_nil_r.
  - rewrite filter_cons. case_bool_decide as Hex.
    + rewrite IH. rewrite decide_False by tauto. done.
    + destruct (retention_verdict now b) eqn:Hv.
      * rewrite IH. rewrite decide_True by tauto. by rewrite <- app_assoc.
      * rewrite decide_False by (intros [_ ?]; congruence).
        case_bool_decide; apply IH.
Qed.

Definition removed_by (now : datetime) (recent_paths : gset Path)
    (l : list Backup) (q : Path) : Prop :=
  ∃ b, b ∈ l ∧ path b = q ∧ (path b ∉ recent_paths)
       ∧ retention_verdict now b = Remove.

Lemma loop_store now recent_paths l : ∀ kept st n q,
  let st' := (fold_left (cleanup_step now recent_paths) l (kept, st, n)).1.2 in
  (removed_by now recent_paths l q → st' !! q = None)
  ∧ (¬ removed_by now recent_paths l q → st' !! q = st !! q)
  ∧ (st !! q = None → st' !! q = None).
Proof.
  unfold removed_by.
  induction l as [|b l IH]; intros kept st n q; cbn [fold_left].
  - simpl. split; [|done]. by intros (? & ?%elem_of_nil & _).
  - assert (Hcase : ∀ acc, cleanup_step now recent_paths (kept, st, n) b = acc →
      (path b = q ∧ (path b ∉ recent_paths) ∧ retention_verdict now b = Remove
         → acc.1.2 !! q = None)
      ∧ (¬ (path b = q ∧ (path b ∉ recent_paths) ∧ retention_verdict now b = Remove)
         → acc.1.2 !! q = st !! q)
      ∧ (st !! q = None → acc.1.2 !! q = None)).
    { intros acc <-. unfold cleanup_step. case_bool_decide as Hex; simpl; [tauto|].
      destruct (retention_verdict now b) eqn:Hv; simpl.
      { split; [|done]. intros (_ & _ & ?); congruence. }
      case_bool_decide as Hdom; simpl; unfold unlink_stored.
      - split; [intros [<- _]; apply lookup_delete_eq|].
        split; [intros Hn; apply lookup_delete_ne; tauto|].
        intros Hq. rewrite lookup_delete. by case_decide.
      - split; [|done]. intros [<- _]. by apply not_elem_of_dom. }
    destruct (cleanup_step now recent_paths (kept, st, n) b) as [[kept' st'] n'] eqn:Hs.
    specialize (Hcase _ eq_refl) as (Hc1 & Hc2 & Hc3). simpl in Hc1, Hc2, Hc3.
    specialize (IH kept' st' n' q) as (IH1 & IH2 & IH3). split; [|split].
    + intros (b0 & Hin & Hb0).
      apply elem_of_cons in Hin as [->|Hin]; [by apply IH3, Hc1|].
      apply IH1. eauto.
    + intros Hn. rewrite IH2.
      * apply Hc2. intros Hb. apply Hn. exists b. split; [left|done].
      * intros (b1 & Hin & Hb1). apply Hn. exists b1. split; [by right|done].
    + intros Hq. by apply IH3, Hc3.
Qed.

Lemma unique_by_path_sub seen l b : b ∈ unique_by_path seen l → b ∈ l.
Proof.
  revert seen. induction l as [|x l IH]; intros seen; simpl; [done|].
  case_bool_decide; [right; eauto|].
  intros [->|?]%elem_of_cons; [left|right; eauto].
Qed.



(** The ten most recent backups and the paths exempted with them. *)
Definition recent (p : Project) : list Backup :=
  take 10 (sorted_desc (backups (_load_metadata p))).

Definition recent_paths (p : Project) : gset Path :=
  list_to_set (map path (recent p)).

Definition age (now : datetime) (b : Backup) : Z :=
  (to_micro now - to_micro (timestamp b))%Z.

Lemma cleanup_unfold now p kept st n :
  fold_left (cleanup_step now (recent_paths p))
    (sorted_desc (backups (_load_metadata p))) (recent p, store p, 0)
  = (kept, st, n) →
  _cleanup_old_backups now p
  = ({| tree := tree p; store := st;
        metadata_file :=
          Some {| backups := unique_by_path ∅ kept;
                  watching := watching (_load_metadata p) |} |}, n).
Proof.
  intros H. unfold _cleanup_old_backups.
  unfold recent_paths, recent in H. by rewrite H.
Qed.

Lemma cleanup_backups now p :
  backups (_load_metadata (_cleanup_old_backups now p).1)
  = unique_by_path ∅
      (recent p ++
       filter (λ b, (path b ∉ recent_paths p) ∧ retention_verdict now b = Keep)
              (sorted_desc (backups (_load_metadata p)))).
Proof.
  destruct (fold_left (cleanup_step now (recent_paths p))
              (sorted_desc (backups (_load_metadata p))) (recent p, store p, 0))
    as [[kept st] n] eqn:Hf.
  rewrite (cleanup_unfold _ _ _ _ _ Hf). simpl.
  pose proof (loop_kept now (recent_paths p)
                (sorted_desc (backups (_load_metadata p))) (recent p) (store p) 0) as Hk.
  rewrite Hf in Hk. simpl in Hk. by rewrite Hk.
Qed.

Lemma cleanup_store now p q :
  (removed_by now (recent_paths p) (backups (_load_metadata p)) q →
     store (_cleanup_old_backups now p).1 !! q = None)
  ∧ (¬ removed_by now (recent_paths p) (backups (_load_metadata p)) q →
     store (_cleanup_old_backups now p).1 !! q = store p !! q).
Proof.
  destruct (fold_left (cleanup_step now (recent_paths p))
              (sorted_desc (backups (_load_metadata p))) (recent p, store p, 0))
    as [[kept st] n] eqn:Hf.
  rewrite (cleanup_unfold _ _ _ _ _ Hf). simpl.
  pose proof (loop_store now (recent_paths p)
                (sorted_desc (backups (_load_metadata p))) (recent p) (store p) 0 q)
    as (H1 & H2 & _).
  rewrite Hf in H1, H2. simpl in H1, H2.
  assert (Hiff : removed_by now (recent_paths p) (sorted_desc (backups (_load_metadata p))) q
                 ↔ removed_by now (recent_paths p) (backups (_load_metadata p)) q).
  { unfold removed_by. by setoid_rewrite elem_of_sorted_desc. }
  rewrite <- Hiff. tauto.
Qed.



(** Twelve backups: ten from the last hours, and two taken three days
    earlier, twenty minutes apart, at noon. *)
Definition demo_backup (d h m : Z) (nm : string) : Backup :=
  {| timestamp := mkDatetime 2025 9 d h m 0 0;
     path := ["proj"; ".savior"; nm; "backup.tar.gz"];
     description := "Automatic backup";
     bsize := 1 |}.

Definition demo_now : datetime := mkDatetime 2025 9 21 15 0 0 0.

Definition demo_old_1 : Backup := demo_backup 18 12 0 "old1".
Definition demo_old_2 : Backup := demo_backup 18 12 20 "old2".

Definition demo_backups : list Backup :=
  [ demo_old_1; demo_old_2;
    demo_backup 21 10 0 "r0"; demo_backup 21 10 20 "r1";
    demo_backup 21 10 40 "r2"; demo_backup 21 11 0 "r3";
    demo_backup 21 11 20 "r4"; demo_backup 21 11 40 "r5";
    demo_backup 21 12 0 "r6"; demo_backup 21 12 20 "r7";
    demo_backup 21 12 40 "r8"; demo_backup 21 13 0 "r9" ].

Definition demo_project : Project :=
  {| tree := NDir ∅;
     store := list_to_map
                (map (λ b, (path b, TarStored (Tarfile.mkTarFile true [])))
                     demo_backups);
     metadata_file := Some {| backups := demo_backups; watching := false |} |}.


(** The six-hour bucket of an instant. *)
Definition bucket6 (t : datetime) : Z := (to_micro t / hours 6)%Z.

(** One snapshot per six-hour bucket, for the tier between 24 hours and
    7 days: of the backups that are not among the ten most recent, each
    six-hour bucket with a backup in it keeps exactly one. *)
Definition one_per_six_hour_bucket (now : datetime) (p : Project) : Prop :=
  let K := backups (_load_metadata (_cleanup_old_backups now p).1) in
  ∀ b, b ∈ backups (_load_metadata p) → b ∉ recent p →
       (hours 24 ≤ age now b < days 7)%Z →
       length (filter (λ k, (k ∉ recent p)
                            ∧ bucket6 (timestamp k) = bucket6 (timestamp b)) K) = 1.

(** C4, on the code: retention tiers.  The loop keeps a backup of the
    tier between 24 hours and 7 days whenever its hour is a multiple of
    6, with no regard to the other backups of its bucket: of two backups
    taken twenty minutes apart at noon three days ago, both are kept;
    the bucket does not keep exactly one. *)
Theorem retention_one_per_bucket_fails :
  ¬ one_per_six_hour_bucket demo_now demo_project.
Proof.
  intros H. specialize (H demo_old_1).
  assert (Hlen : length (filter (λ k, (k ∉ recent demo_project)
                            ∧ bucket6 (timestamp k) = bucket6 (timestamp demo_old_1))
                    (backups (_load_metadata
                       (_cleanup_old_backups demo_now demo_project).1))) = 2)
    by (vm_compute; reflexivity).
  rewrite Hlen in H. 
  assert (2 = 1) as Habs; [|discriminate Habs].
  apply H.
  - left.
  - compute_done.
  - compute_done.
Qed.

End RetentionSpec.

(** ** Deduplication eligibility *)

Module EligibilitySpec.
Import Core CoreDedup Dedup PathFacts.

Lemma should_deduplicate_spec (fs : FsView) (file_path : Path) :
  should_deduplicate fs file_path = true ↔
  ∃ f, fs file_path = Some f ∧ 1024 ≤ st_size f
       ∧ lower (suffix file_path) ∉ SKIP_DEDUP_EXTENSIONS.
Proof.
  unfold should_deduplicate, stat_size, MIN_DEDUP_SIZE.
  destruct (fs file_path) as [f|]; simpl.
  - destruct (Nat.ltb_spec (st_size f) 1024).
    + split; [done|]. intros (f' & [= <-] & ? & _). lia.
    + case_bool_decide as Hin.
      * split; [done|]. intros (f' & _ & _ & ?). done.
      * split; [|done]. intros _. eauto.
  - split; [done|]. by intros (? & ? & _).
Qed.

Section Loop.

Variable sha256 : string → string.

Lemma dedup_loop_eligible sv tr now_iso backup_id file_list : ∀ ds acc,
  (∀ rel, rel ∈ dom acc →
          should_deduplicate (view sv tr) (project_dir sv ++ rel) = true) →
  ∀ rel,
    rel ∈ dom (fold_left (dedup_step sha256 sv tr now_iso backup_id)
                 file_list (ds, acc)).2 →
    should_deduplicate (view sv tr) (project_dir sv ++ rel) = true.
Proof.
  induction file_list as [|fp l IH]; intros ds acc Hacc rel; cbn [fold_left];
    [apply Hacc|].
  unfold dedup_step at 2.
  destruct (should_deduplicate (view sv tr) fp) eqn:Hel; [|by apply IH].
  destruct (relative_to fp (project_dir sv)) as [rel_path|] eqn:Hrel; [|by apply IH].
  destruct (store_file sha256 (view sv tr) now_iso ds fp backup_id) as [ds' [m|]];
    [|by apply IH].
  apply IH. intros r. rewrite dom_insert_L, elem_of_union, elem_of_singleton.
  intros [->|?]; [|by apply Hacc].
  by rewrite <- (relative_to_Some _ _ _ Hrel).
Qed.

Lemma dedup_loop_skips sv tr now_iso backup_id file_list ds :
  Forall (λ file_path, should_deduplicate (view sv tr) file_path = false) file_list →
  dedup_loop sha256 sv tr now_iso backup_id file_list ds = (ds, ∅).
Proof.
  unfold dedup_loop. generalize (∅ : gmap Path FileMeta).
  intros acc H. induction H as [|fp l Hfp _ IH]; cbn [fold_left]; [done|].
  unfold dedup_step at 2. by rewrite Hfp.
Qed.

(** C8. Dedup eligibility.  [should_deduplicate] answers true exactly
    for a file that exists, has at least 1024 bytes and whose
    lower-cased extension is not in the skip set; the backup loop
    hands only such files to the content store, so that a manifest
    lists eligible files only and a run over ineligible files leaves
    the store as it was. *)
Theorem dedup_eligibility (sv : Savior) (tr : Node) (now_iso backup_id : string)
    (file_list : list Path) (ds : DeduplicationStore) :
  (∀ fs file_path,
     should_deduplicate fs file_path = true ↔
     ∃ f, fs file_path = Some f ∧ 1024 ≤ st_size f
          ∧ lower (suffix file_path) ∉ SKIP_DEDUP_EXTENSIONS)
  ∧ (∀ rel,
       rel ∈ dom (dedup_loop sha256 sv tr now_iso backup_id file_list ds).2 →
       should_deduplicate (view sv tr) (project_dir sv ++ rel) = true)
  ∧ (Forall (λ file_path, should_deduplicate (view sv tr) file_path = false)
            file_list →
     dedup_loop sha256 sv tr now_iso backup_id file_list ds = (ds, ∅)).
Proof.
  split; [apply should_deduplicate_spec|]. split.
  - intros rel. unfold dedup_loop. apply dedup_loop_eligible.
    intros r. rewrite dom_empty_L. set_solver.
  - apply dedup_loop_skips.
Qed.

End Loop.

Definition demo_tree : Node :=
  NDir {[ "main.py" := NFile (mkFile (Examples.text_of_size 2000) 33188 0);
          "tiny.txt" := NFile (mkFile "hi" 33188 0);
          "archive.ZIP" := NFile (mkFile (Examples.text_of_size 3000) 33188 0) ]}.

Definition demo_savior : Savior :=
  {| project_dir := ["home"; "u"; "proj"]; patterns := [".savior/"] |}.

Definition demo_files : list Path :=
  [ ["home"; "u"; "proj"; "main.py"];
    ["home"; "u"; "proj"; "tiny.txt"];
    ["home"; "u"; "proj"; "archive.ZIP"] ].

Lemma dedup_eligibility_witness :
  should_deduplicate (view demo_savior demo_tree) ["home"; "u"; "proj"; "main.py"] = true
  ∧ dom (dedup_loop Examples.toy_digest demo_savior demo_tree "t0" "id0"
           demo_files _init_store).2 = {[ ["main.py"] ]}.
Proof.
  assert (Hdom : dom (dedup_loop Examples.toy_digest demo_savior demo_tree "t0" "id0"
                        demo_files _init_store).2 = {[ ["main.py"] ]})
    by (vm_compute; reflexivity).
  split; [|exact Hdom].
  destruct (dedup_eligibility Examples.toy_digest demo_savior demo_tree "t0" "id0"
              demo_files _init_store) as (_ & H & _).
  apply (H ["main.py"]). rewrite Hdom. by apply elem_of_singleton.
Defined.

End EligibilitySpec.

(** ** Restore and the metadata directory *)

Module RestoreSpec.
Import Core Conflicts.

Lemma fold_left_inv {A B} (P : A → Prop) (f : A → B → A) (l : list B) (a : A) :
  P a → (∀ acc x, x ∈ l → P acc → P (f acc x)) → P (fold_left f l a).
Proof.
  revert a. induction l as [|x l IH]; intros a Ha Hf; simpl; [done|].
  apply IH; [apply Hf; [left|done]|]. intros acc y Hy. apply Hf. by right.
Qed.



Lemma parent_snoc (root : Path) (file : string) : parent (root ++ [file]) = root.
Proof. unfold parent. apply removelast_last. Qed.


Section Restore.

Variable sha256 : string → string.








End Restore.

Definition demo_tree : Node :=
  NDir {[ "a.txt" := NFile (mkFile "changed" 33188 1);
          "new.txt" := NFile (mkFile "n" 33188 1);
          ".savior" := NDir {[ "metadata.json" := NFile (mkFile "{}" 33188 0) ]} ]}.

Definition demo_savior : Savior :=
  {| project_dir := ["home"; "u"; "proj"]; patterns := [".savior/"] |}.

Definition demo_backup_files : gmap Path BackupMeta :=
  {[ ["a.txt"] := mkBackupMeta "hello" 5 33188 ]}.


End RestoreSpec.

(** ** The incremental differ *)

Module IncrementalSpec.
Import Incremental.

Section Differ.

Variable sha256 : string → string.

Lemma diff_step_no_project_dir self fs (l : list Path) (d : Diff) :
  project_dir self = None → fold_left (diff_step sha256 self fs) l d = d.
Proof.
  intros Hnone. induction l as [|x l IH]; simpl; [done|].
  unfold diff_step at 2. by rewrite Hnone.
Qed.

(** An object as [__init__] builds it has no [project_dir]: every file
    is skipped, nothing is classified as added or modified, every
    indexed path is reported deleted and the index is emptied. *)
Lemma find_changed_files_after_init backup_dir state_file fs files :
  find_changed_files sha256 (init backup_dir state_file) fs files
  = ({| backup_dir := backup_dir; project_dir := None; file_states := ∅ |},
     (∅, ∅, dom (default ∅ state_file))).
Proof.
  unfold find_changed_files. rewrite diff_step_no_project_dir by done. simpl.
  by rewrite dom_empty_L, difference_empty_L.
Qed.

End Differ.

(** A project with three files; then [a.txt] is modified and [g.txt]
    is deleted. *)
Definition file_a : Path := ["home"; "u"; "proj"; "a.txt"].
Definition file_b : Path := ["home"; "u"; "proj"; "b.txt"].
Definition file_g : Path := ["home"; "u"; "proj"; "g.txt"].

Definition fs_before : FsView :=
  λ p, if decide (p = file_a) then Some (mkFile "a1" 33188 1)
       else if decide (p = file_b) then Some (mkFile "b1" 33188 1)
       else if decide (p = file_g) then Some (mkFile "g1" 33188 1)
       else None.

Definition fs_after : FsView :=
  λ p, if decide (p = file_a) then Some (mkFile "a2" 33188 2)
       else if decide (p = file_b) then Some (mkFile "b1" 33188 1)
       else None.

Definition savior_dir : Path := ["home"; "u"; "proj"; ".savior"].

(** The two backups: each one builds its object from the state file. *)
Definition first_run :=
  find_changed_files Examples.toy_digest (init savior_dir None) fs_before
    {[file_a; file_b; file_g]}.

Definition second_run :=
  find_changed_files Examples.toy_digest
    (init savior_dir (Some (file_states first_run.1))) fs_after
    {[file_a; file_b]}.

(** C1, on the code: the second backup classifies nothing at all. The
    modified file is not reported as added or modified and the deleted
    file is not reported as deleted. *)
Theorem incremental_diff_reports_nothing :
  file_states first_run.1 = ∅
  ∧ second_run.2 = (∅, ∅, ∅)
  ∧ (file_a ∉ second_run.2.1.1 ∪ second_run.2.1.2)
  ∧ "g.txt" ∉ second_run.2.2.
Proof.
  unfold second_run, first_run.
  rewrite !find_changed_files_after_init. simpl.
  rewrite dom_empty_L. repeat split; set_solver.
Qed.

(** The same two runs on objects that do carry the project directory:
    the classification the documentation describes. *)
Definition with_project_dir (self : IncrementalBackup) : IncrementalBackup :=
  {| backup_dir := backup_dir self;
     project_dir := Some ["home"; "u"; "proj"];
     file_states := file_states self |}.

Definition first_run_fixed :=
  find_changed_files Examples.toy_digest
    (with_project_dir (init savior_dir None)) fs_before
    {[file_a; file_b; file_g]}.

Definition second_run_fixed :=
  find_changed_files Examples.toy_digest
    (with_project_dir (init savior_dir (Some (file_states first_run_fixed.1))))
    fs_after {[file_a; file_b]}.

Lemma incremental_diff_with_project_dir :
  second_run_fixed.2 = (∅, {[file_a]}, {["g.txt"]}).
Proof. vm_compute. reflexivity. Qed.

End IncrementalSpec.

(** ** Backup and restore round trip *)

Module RoundTripSpec.
Import Core Datetime.

Section Restore.

Variable sha256 : string → string.

(** [restore_backup] opens every archive as gzip-compressed: an archive
    written without compression cannot be restored. *)
Lemma restore_backup_uncompressed sv temp_dir git_conflicts now backup_index
    check_conflicts auto_backup force (p : Project) backup t :
  sorted_desc (backups (_load_metadata p)) !! Z.to_nat backup_index = Some backup →
  store p !! path backup = Some (TarStored t) →
  Tarfile.gz t = false →
  restore_backup sha256 sv temp_dir git_conflicts now backup_index
    check_conflicts auto_backup force p = (p, false).
Proof.
  intros Hb Hs Hgz. unfold restore_backup.
  case_match; [done|]. rewrite Hb, Hs. simpl. by rewrite Hgz.
Qed.

End Restore.

(** A project with one file, backed up without compression (level 0),
    then edited, then restored from that backup. *)
Definition no_match (name pattern : string) : bool := false.
Definition unit_size (t : Tarfile.TarFile) : nat := 1.

Definition tree_v1 : Node := NDir {[ "a.txt" := NFile (mkFile "hello" 33188 0) ]}.
Definition tree_v2 : Node := NDir {[ "a.txt" := NFile (mkFile "changed" 33188 1) ]}.

Definition demo_savior : Savior := Savior_init ["home"; "u"; "proj"] tree_v1 false [].

Definition t0 : datetime := mkDatetime 2025 9 21 14 30 5 0.

Definition backed_up (compression_level : Z) : Project * (Backup + Exn) :=
  create_backup no_match unit_size demo_savior (mkClock t0 t0 t0) None ""
    compression_level (mkProject tree_v1 ∅ None).

Definition edited_to (tr : Node) (p : Project) : Project :=
  {| tree := tr; store := store p; metadata_file := metadata_file p |}.

Definition edited (p : Project) : Project := edited_to tree_v2 p.

Definition restored (compression_level : Z) : Project * bool :=
  restore_backup Examples.toy_digest demo_savior ["tmp"; "savior_restore_x"]
    (Conflicts.mkGitConflicts [] [] []) t0 0 true true false
    (edited (backed_up compression_level).1).

(** C3, on the code: a full backup made with compression level 0 is
    written and recorded, holds the file as it was, and cannot be
    restored: [restore_backup] answers [False] and the working tree
    keeps the later content. *)
Theorem level0_backup_not_restored :
  (∃ b, (backed_up 0).2 = inl b
        ∧ store (backed_up 0).1 !! path b
          = Some (TarStored (Tarfile.mkTarFile false
                    [Tarfile.mkTarInfo "a.txt" Tarfile.REGTYPE 420 0 "" "hello"])))
  ∧ (restored 0).2 = false
  ∧ tree_file ["a.txt"] (tree (restored 0).1) = Some (mkFile "changed" 33188 1).
Proof.
  split; [|split].
  - eexists. split; [vm_compute; reflexivity|]. vm_compute. reflexivity.
  - vm_compute. reflexivity.
  - vm_compute. reflexivity.
Qed.

(** With any level from 1 to 9 the same scenario restores the file. *)
Lemma compressed_backup_restored :
  Forall (λ level, (restored level).2 = true
                   ∧ data <$> tree_file ["a.txt"] (tree (restored level).1)
                     = Some "hello")
         [1; 2; 3; 4; 5; 6; 7; 8; 9]%Z.
Proof. repeat constructor; vm_compute; reflexivity. Qed.

(** The deduplicated strategy on a project with a large and a small
    file: the backup records the large file only, and the restore
    brings back the large file only. *)
Definition large_text : string := Examples.text_of_size 1500.

Definition dedup_v1 : Node :=
  NDir {[ "main.py" := NFile (mkFile large_text 33188 0);
          "tiny.txt" := NFile (mkFile "hi" 33188 0) ]}.

Definition dedup_v2 : Node :=
  NDir {[ "main.py" := NFile (mkFile "oops" 33188 1);
          "tiny.txt" := NFile (mkFile "bye" 33188 1) ]}.

Definition dedup_backed_up : CoreDedup.DedupProject * option Backup :=
  CoreDedup.create_backup_dedup no_match Examples.toy_digest demo_savior
    (mkClock t0 t0 t0) None "2025-09-21T14:30:05" "v1"
    (CoreDedup.mkDedupProject (mkProject dedup_v1 ∅ None) Dedup._init_store).

Definition dedup_restored : CoreDedup.DedupProject * bool :=
  CoreDedup.restore_backup_dedup Examples.toy_digest demo_savior
    ["tmp"; "savior_restore_x"] (Conflicts.mkGitConflicts [] [] []) t0 0
    (CoreDedup.mkDedupProject
       (edited_to dedup_v2 (CoreDedup.project dedup_backed_up.1))
       (CoreDedup.dedup_store dedup_backed_up.1)).

Lemma dedup_backup_restores_eligible_only :
  dedup_restored.2 = true
  ∧ data <$> tree_file ["main.py"] (tree (CoreDedup.project dedup_restored.1))
    = Some large_text
  ∧ data <$> tree_file ["tiny.txt"] (tree (CoreDedup.project dedup_restored.1))
    = Some "bye".
Proof. repeat split; vm_compute; reflexivity. Qed.

End RoundTripSpec.

(** ** Unsafe archive members *)

Module ExtractionSpec.
Import Core Tarfile Safety.

(** A member name that [safe_extract] refuses. *)
Definition unsafe_name (m : TarInfo) : Prop :=
  startswith (name m) "/" = true ∨ contains ".." (name m) = true.

(** A member name that leaves the directory it is extracted to, once
    its leading slashes are gone. *)
Definition escapes (dest : Path) (m : TarInfo) : Prop :=
  is_under dest (join_norm dest (lstrip_slash (name m))) = false.

Lemma check_members_unsafe max_size (ms : list TarInfo) : ∀ total_size,
  Exists unsafe_name ms → is_Some (check_members max_size total_size ms).
Proof.
  induction ms as [|m ms IH]; intros total Hex; [by apply Exists_nil in Hex|].
  cbn [check_members].
  destruct (startswith (name m) "/" || contains ".." (name m)) eqn:Hn; [eauto|].
  destruct ((issym m || islnk m)
            && (startswith (linkname m) "/" || contains ".." (linkname m)));
    [eauto|].
  destruct (max_size <? total + size m); [eauto|].
  apply IH. apply Exists_cons in Hex as [[H|H]|Hex]; [| |done].
  - rewrite H in Hn. done.
  - rewrite H, orb_true_r in Hn. done.
Qed.

Lemma safe_extract_rejects archive extract_to max_size_mb fs ms :
  open_r_gz archive = Some ms → Exists unsafe_name ms →
  ∃ err, safe_extract archive extract_to max_size_mb fs = (fs, (false, Some err)).
Proof.
  intros Hopen Hex. unfold safe_extract. rewrite Hopen.
  destruct (check_members_unsafe (max_size_mb * 1024 * 1024) ms 0 Hex) as [e ->].
  eauto.
Qed.

Lemma apply_data_filter_escapes dest m :
  escapes dest m → apply_data_filter dest m = None.
Proof. unfold escapes, apply_data_filter. by intros ->. Qed.

Lemma extractall_data_fails dest (ms : list TarInfo) : ∀ fs,
  Exists (escapes dest) ms → ∃ fs', extractall data_filter dest ms fs = inl fs'.
Proof.
  induction ms as [|m ms IH]; intros fs Hex; [by apply Exists_nil in Hex|].
  cbn [extractall apply_filter].
  destruct (apply_data_filter dest m) as [m'|] eqn:Hf; [|eauto].
  destruct (extract_member dest m' fs) as [fs'|]; [|eauto].
  apply IH. apply Exists_cons in Hex as [H|H]; [|done].
  by rewrite (apply_data_filter_escapes _ _ H) in Hf.
Qed.

(** What the [data] filter lets through is written below [dest]. *)
Lemma extract_filtered_inside dest m m' fs fs' q :
  apply_data_filter dest m = Some m' → extract_member dest m' fs = Some fs' →
  is_under dest q = false → fs' !! q = fs !! q.
Proof.
  unfold apply_data_filter, extract_member. intros Hf He Hq.
  destruct (is_under dest (join_norm dest (lstrip_slash (name m)))) eqn:Hu;
    [|done]. simpl in Hf.
  match type of Hf with
  | (if ?c then _ else _) = _ => destruct c; [|done]
  end.
  injection Hf as <-. simpl in He.
  destruct (mtype m); try (by injection He as <-).
  destruct (clashes fs _); [done|]. injection He as <-.
  apply lookup_insert_ne. intros <-. congruence.
Qed.

Lemma extractall_data_inside dest (ms : list TarInfo) q : ∀ fs,
  is_under dest q = false →
  match extractall data_filter dest ms fs with
  | inl fs' | inr fs' => fs' !! q = fs !! q
  end.
Proof.
  induction ms as [|m ms IH]; intros fs Hq; [done|].
  cbn [extractall apply_filter].
  destruct (apply_data_filter dest m) as [m'|] eqn:Hf; [|done].
  destruct (extract_member dest m' fs) as [fs'|] eqn:He; [|done].
  specialize (IH fs' Hq).
  rewrite <- (extract_filtered_inside _ _ _ _ _ _ Hf He Hq).
  by destruct (extractall data_filter dest ms fs').
Qed.

Lemma safe_extract_inside archive extract_to max_size_mb fs q :
  is_under extract_to q = false →
  (safe_extract archive extract_to max_size_mb fs).1 !! q = fs !! q.
Proof.
  intros Hq. unfold safe_extract.
  destruct (open_r_gz archive) as [ms|]; [|done].
  destruct (check_members _ 0 ms); [done|].
  pose proof (extractall_data_inside extract_to ms q fs Hq) as H.
  by destruct (extractall data_filter extract_to ms fs).
Qed.

Section Restore.

Variable sha256 : string → string.

Lemma restore_backup_rejects sv temp_dir git_conflicts now backup_index
    check_conflicts auto_backup force (p : Project) backup t :
  sorted_desc (backups (_load_metadata p)) !! Z.to_nat backup_index = Some backup →
  store p !! path backup = Some (TarStored t) →
  Exists (escapes temp_dir) (members t) →
  restore_backup sha256 sv temp_dir git_conflicts now backup_index
    check_conflicts auto_backup force p = (p, false).
Proof.
  intros Hb Hs Hex. unfold restore_backup.
  case_match; [done|]. rewrite Hb, Hs. simpl.
  destruct (gz t); [|done].
  by destruct (extractall_data_fails temp_dir (members t) ∅ Hex) as [fs' ->].
Qed.

(** X10. Where unsafe members are refused.  [safe_extract] refuses, before
    it extracts anything, every archive with a member whose name starts
    with a slash or contains two dots, and never writes outside of the
    directory it extracts to.  [restore_backup] ends with [False] and
    leaves the project as it was for every archive with a member whose
    name, once its leading slashes are stripped, resolves outside of
    the directory of extraction. *)
Theorem unsafe_members_rejected (archive : option TarFile) (extract_to : Path)
    (max_size_mb : nat) (fs : gmap Path File)
    (sv : Savior) (temp_dir : Path) (git_conflicts : Conflicts.GitConflicts)
    (now : Datetime.datetime) (backup_index : Z)
    (check_conflicts auto_backup force : bool) (p : Project) :
  (∀ ms, open_r_gz archive = Some ms → Exists unsafe_name ms →
         ∃ err, safe_extract archive extract_to max_size_mb fs
                = (fs, (false, Some err)))
  ∧ (∀ q, is_under extract_to q = false →
          (safe_extract archive extract_to max_size_mb fs).1 !! q = fs !! q)
  ∧ (∀ backup t,
       sorted_desc (backups (_load_metadata p)) !! Z.to_nat backup_index
       = Some backup →
       store p !! path backup = Some (TarStored t) →
       Exists (escapes temp_dir) (members t) →
       restore_backup sha256 sv temp_dir git_conflicts now backup_index
         check_conflicts auto_backup force p = (p, false)).
Proof.
  split; [intros ms; apply safe_extract_rejects|].
  split; [intros q; apply safe_extract_inside|].
  intros backup t. apply restore_backup_rejects.
Qed.

End Restore.

(** Archives with one member each: a traversal name, an absolute name. *)
Definition evil_traversal : TarFile :=
  mkTarFile true [mkTarInfo "../../etc/passwd" REGTYPE 420 0 "" "root::0:0"].

Definition evil_absolute : TarFile :=
  mkTarFile true [mkTarInfo "/etc/passwd" REGTYPE 420 0 "" "root::0:0"].

Definition project_with (t : TarFile) : Project :=
  {| tree := NDir {[ "a.txt" := NFile (mkFile "hello" 33188 0) ]};
     store := {[ ["home"; "u"; "proj"; ".savior"; "x.tar.gz"] := TarStored t ]};
     metadata_file :=
       Some {| backups := [ {| timestamp := Datetime.mkDatetime 2025 9 21 14 30 5 0;
                               path := ["home"; "u"; "proj"; ".savior"; "x.tar.gz"];
                               description := "x";
                               bsize := 1 |} ];
               watching := false |} |}.

Definition demo_savior : Savior :=
  {| project_dir := ["home"; "u"; "proj"]; patterns := [".savior/"] |}.

Definition restore_demo (t : TarFile) : Project * bool :=
  restore_backup Examples.toy_digest demo_savior ["tmp"; "savior_restore_x"]
    (Conflicts.mkGitConflicts [] [] []) (Datetime.mkDatetime 2025 9 21 15 0 0 0)
    0 true true false (project_with t).

Lemma unsafe_members_rejected_witness :
  restore_demo evil_traversal = (project_with evil_traversal, false).
Proof.
  destruct (unsafe_members_rejected Examples.toy_digest None [] 0 ∅ demo_savior
              ["tmp"; "savior_restore_x"] (Conflicts.mkGitConflicts [] [] [])
              (Datetime.mkDatetime 2025 9 21 15 0 0 0) 0 true true false
              (project_with evil_traversal)) as (_ & _ & H).
  eapply H.
  - reflexivity.
  - reflexivity.
  - apply Exists_cons_hd. reflexivity.
Defined.

(** An absolute member name does not stop a full restore: the [data]
    filter strips the leading slash, the restore succeeds, and the
    member is restored inside of the project. *)
Lemma full_restore_accepts_absolute_member :
  (restore_demo evil_absolute).2 = true
  ∧ data <$> tree_file ["etc"; "passwd"] (tree (restore_demo evil_absolute).1)
    = Some "root::0:0".
Proof. split; vm_compute; reflexivity. Qed.

(** C6, on the code: path traversal in [restore_incremental].  The
    function checks no member name and names no extraction filter.
    With the trusting default of [extractall] (every Python before
    3.14) a base archive with the member [../../etc/passwd] is not
    refused: the restore runs to its end and the member is written
    outside of the target directory.  (With the [data] filter as
    default the exception of the filter leaves the call.) *)
Theorem incremental_restore_writes_outside :
  match Incremental.restore_incremental fully_trusted (λ _, [])
          (Some (mkTarFile true [])) (Some evil_traversal)
          ["srv"; "restore"] ["tmp"; "savior_incremental_x"] ∅ with
  | inr fs => data <$> fs !! ["etc"; "passwd"] = Some "root::0:0"
  | inl _ => False
  end
  ∧ Incremental.restore_incremental data_filter (λ _, [])
      (Some (mkTarFile true [])) (Some evil_traversal)
      ["srv"; "restore"] ["tmp"; "savior_incremental_x"] ∅ = inl ∅.
Proof. split; vm_compute; reflexivity. Qed.

End ExtractionSpec.

(** ** The IPC authentication gate *)

Module DaemonSpec.
Import Daemon.

Section Server.

Variable State : Type.
Variable _add_project : Json → Json → State → State * Outcome.
Variable _remove_project : Json → State → State * Outcome.
Variable _list_projects : State → State * Outcome.
Variable _get_status : State → State * Outcome.
Variable stop : State → State * Outcome.
Variable _log : string → State → State.
Variable py_str : Json → string.

Local Abbreviation handle :=
  (_handle_client State _add_project _remove_project
     _list_projects _get_status stop _log py_str).
Local Abbreviation process :=
  (_process_command State _add_project _remove_project
     _list_projects _get_status stop py_str).

(** The request carries the daemon's token in its [auth] field. *)
Definition authenticated (auth_token : string) (command : gmap string Json) : Prop :=
  command !! "auth" = Some (JStr auth_token).

Lemma eq_str_get_auth auth_token command :
  eq_str (get command "auth") auth_token = true ↔ authenticated auth_token command.
Proof.
  unfold get, authenticated.
  destruct (command !! "auth") as [[| | |s| |]|]; simpl; try (split; done).
  destruct (String.eqb_spec s auth_token) as [->|Hne]; split; try done.
  intros [= ->]. done.
Qed.

(** What a client gets when the handlers were not called: these
    replies do not depend on the handlers. *)
Definition undispatched (st : State) (r : State * Reply) : Prop :=
  r = (st, Sent (error "Authentication failed"))
  ∨ r = (st, Sent (error "Request timeout"))
  ∨ r = (st, Sent (error "Invalid JSON"))
  ∨ r = (_log "Client error" st, Sent (error "Internal error")).

(** C7. The IPC authentication gate.  A request whose [auth] field is
    missing or is not the daemon's token is answered with the
    authentication failure, the daemon's state is as before and no
    handler has run (the answer is the same whatever the handlers are);
    a request bearing the token is answered by [_process_command]; and
    whatever arrives on a connection, [_process_command] is reached by
    requests bearing the token only. *)
Theorem auth_gate (auth_token : string) (st : State) :
  (∀ command, ¬ authenticated auth_token command →
     handle auth_token (Loaded (JObj command)) st
     = (st, Sent (error "Authentication failed")))
  ∧ (∀ command, authenticated auth_token command →
       handle auth_token (Loaded (JObj command)) st
       = match process command st with
         | (st', Returns response) => (st', Sent response)
         | (st', Raises) => (_log "Client error" st', Sent (error "Internal error"))
         | (st', Exits) => (st', NoReply)
         end)
  ∧ (∀ received,
       (∃ command, received = Loaded (JObj command)
                   ∧ authenticated auth_token command)
       ∨ undispatched st (handle auth_token received st)).
Proof.
  split; [|split].
  - intros command Hauth. simpl.
    destruct (eq_str (get command "auth") auth_token) eqn:He; [|done].
    by apply eq_str_get_auth in He.
  - intros command Hauth. simpl.
    apply eq_str_get_auth in Hauth. by rewrite Hauth.
  - unfold undispatched. intros [| | |[| | | | |command]]; simpl; try tauto.
    destruct (eq_str (get command "auth") auth_token) eqn:He; simpl; [|tauto].
    left. exists command. split; [done|]. by apply eq_str_get_auth.
Qed.

End Server.

(** A daemon whose handlers count their calls. *)
Definition counting (st : nat) : nat * Outcome := (S st, Returns JNull).

Definition demo_handle : string → Received → nat → nat * Reply :=
  _handle_client nat (λ _ _, counting) (λ _, counting) counting counting counting
    (λ _ st, st) (λ _, "?").

Lemma auth_gate_witness :
  demo_handle "s3cret"
    (Loaded (JObj {[ "type" := JStr "stop"; "auth" := JStr "guess" ]})) 0
  = (0, Sent (error "Authentication failed")).
Proof.
  apply (proj1 (auth_gate nat (λ _ _, counting) (λ _, counting) counting counting
                  counting (λ _ st, st) (λ _, "?") "s3cret" 0)).
  unfold authenticated. intros H. vm_compute in H. discriminate H.
Defined.

End DaemonSpec.

(** ** Atomic persistence *)

Module PersistSpec.
Import Persist.

Lemma append_empty_r (s : string) : s +:+ "" = s.
Proof.
  induction s as [|a s IH]; [done|].
  change (String a (s +:+ "") = String a s). by f_equal.
Qed.

Lemma append_assoc (a b c : string) : (a +:+ b) +:+ c = a +:+ (b +:+ c).
Proof.
  induction a as [|x a IH]; [done|].
  change (String x ((a +:+ b) +:+ c) = String x (a +:+ (b +:+ c))). by f_equal.
Qed.

(** The whole text of a document written in chunks. *)
Definition text_of (chunks : list string) : string := foldr String.append "" chunks.

Lemma trace_app (l1 l2 : list Step) : ∀ d,
  trace d (l1 ++ l2) = trace d l1 ++ trace (fold_left run_step l1 d) l2.
Proof. induction l1 as [|s l1 IH]; intros d; simpl; [done|]. by rewrite IH. Qed.

Lemma trace_writes (p : Path) (chunks : list string) : ∀ (d : Disk) (q : Path) d',
  q ≠ p → d' ∈ trace d (map (Write p) chunks) → d' !! q = d !! q.
Proof.
  induction chunks as [|c chunks IH]; intros d q d' Hq Hin; simpl in Hin.
  - by apply elem_of_nil in Hin.
  - apply elem_of_cons in Hin as [->|Hin].
    + simpl. by rewrite lookup_insert_ne.
    + rewrite (IH _ q d' Hq Hin). simpl. by rewrite lookup_insert_ne.
Qed.

Lemma run_writes (p : Path) (chunks : list string) : ∀ (d : Disk) text,
  d !! p = Some text →
  fold_left run_step (map (Write p) chunks) d !! p = Some (text +:+ text_of chunks)
  ∧ ∀ q, q ≠ p → fold_left run_step (map (Write p) chunks) d !! q = d !! q.
Proof.
  induction chunks as [|c chunks IH]; intros d text Hd; simpl.
  - by rewrite append_empty_r.
  - destruct (IH (<[p := default "" (d !! p) +:+ c]> d) (text +:+ c)) as [IH1 IH2].
    { by rewrite lookup_insert_eq, Hd. }
    split; [by rewrite IH1, append_assoc|].
    intros q Hq. rewrite IH2 by done. by rewrite lookup_insert_ne.
Qed.

(** [_save_metadata] persists atomically: the metadata file holds its
    old text until the temporary file, fully written, replaces it. *)
Lemma _save_metadata_atomic (metadata_file temp_path : Path) (chunks : list string)
    (d : Disk) :
  temp_path ≠ metadata_file →
  atomic metadata_file d (_save_metadata metadata_file temp_path chunks)
    (text_of chunks).
Proof.
  intros Hne d' Hin. unfold _save_metadata in Hin. cbn [trace] in Hin.
  apply elem_of_cons in Hin as [->|Hin].
  { left. simpl. by rewrite lookup_insert_ne. }
  rewrite trace_app in Hin. apply elem_of_app in Hin as [Hin|Hin].
  - left. rewrite (trace_writes _ _ _ _ _ (not_eq_sym Hne) Hin).
    simpl. by rewrite lookup_insert_ne.
  - simpl in Hin. apply list_elem_of_singleton in Hin as ->. right.
    destruct (run_writes temp_path chunks (<[temp_path := ""]> d) "") as [H1 _];
      [by rewrite lookup_insert_eq|].
    simpl. rewrite H1. simpl. by rewrite lookup_insert_eq.
Qed.

(** Writing in place is not atomic: right after the file is opened it
    is empty, which is neither its old text nor the new one. *)
Lemma dump_to_torn (path : Path) (chunks : list string) (d : Disk) (old : string) :
  d !! path = Some old → old ≠ "" → text_of chunks ≠ "" →
  ¬ atomic path d (dump_to path chunks) (text_of chunks).
Proof.
  intros Hold Ho Hn Hat.
  destruct (Hat (<[path := ""]> d)) as [H|H].
  - unfold dump_to. cbn [trace]. left.
  - rewrite lookup_insert_eq, Hold in H. congruence.
  - rewrite lookup_insert_eq in H. congruence.
Qed.

(** The index of a store with one chunk, replacing the empty index. *)
Definition index_file : Path := ["proj"; ".savior"; ".dedup_store"; "index.json"].
Definition stats_file : Path := ["proj"; ".savior"; ".dedup_store"; "stats.json"].

Definition disk_before : Disk := {[ index_file := "{}"; stats_file := "{}" ]}.
Definition new_index : list string := ["{"; " habc: {ref_count: 1}"; "}"].

(** C5, on the code: [_save_index] and [_save_stats] write in place.
    While the new index is being written, the index file on disk is
    first empty and then holds a part of the text only; neither is the
    old document nor the new one.  [_save_metadata] does go through a
    temporary file and a rename. *)
Theorem dedup_index_written_in_place :
  ¬ atomic index_file disk_before (_save_index index_file new_index)
      (text_of new_index)
  ∧ ¬ atomic stats_file disk_before (_save_stats stats_file new_index)
        (text_of new_index)
  ∧ (λ d, d !! index_file) <$> trace disk_before (_save_index index_file new_index)
    = [ Some ""; Some "{"; Some "{ habc: {ref_count: 1}";
        Some (text_of new_index) ]
  ∧ (∀ metadata_file temp_path chunks d,
       temp_path ≠ metadata_file →
       atomic metadata_file d (_save_metadata metadata_file temp_path chunks)
         (text_of chunks)).
Proof.
  split; [|split; [|split]].
  - apply (dump_to_torn index_file new_index disk_before "{}"); done.
  - apply (dump_to_torn stats_file new_index disk_before "{}"); done.
  - vm_compute. reflexivity.
  - apply _save_metadata_atomic.
Qed.

End PersistSpec.


(** * Further properties of the code *)

(** ** Writing to and walking directory trees *)

Module WalkFacts.
Import TreeFacts.

Lemma tree_lookup_app (a b : Path) : ∀ n,
  tree_lookup (a ++ b) n = tree_lookup a n ≫= tree_lookup b.
Proof.
  induction a as [|x a IH]; intros n; simpl; [done|].
  destruct n as [f|es]; [done|].
  destruct (es !! x) as [c|]; simpl; [apply IH|done].
Qed.

Lemma tree_file_empty_dir (q : Path) : tree_file q (NDir ∅) = None.
Proof.
  unfold tree_file. destruct q as [|x q]; simpl; [done|].
  by rewrite lookup_empty.
Qed.

Lemma tree_lookup_below_file (q : Path) (f : File) :
  q ≠ [] → tree_lookup q (NFile f) = None.
Proof. by destruct q. Qed.

Lemma tree_put_cons (nm nm' : string) (p : Path) (f : File) (es : gmap string Node) :
  tree_put (nm :: nm' :: p) f (NDir es)
  = c' ← tree_put (nm' :: p) f (default (NDir ∅) (es !! nm));
    Some (NDir (<[nm := c']> es)).
Proof. reflexivity. Qed.

Lemma tree_unlink_cons (nm nm' : string) (p : Path) (es : gmap string Node) :
  tree_unlink (nm :: nm' :: p) (NDir es)
  = NDir (alter (tree_unlink (nm' :: p)) nm es).
Proof. reflexivity. Qed.


(** ... and no other regular file appears, vanishes or changes. *)
Lemma tree_put_frame (p : Path) (f : File) : ∀ q n n',
  tree_put p f n = Some n' → q ≠ p → tree_file q n' = tree_file q n.
Proof.
  induction p as [|nm p IH]; intros q n n' H Hq.
  - by destruct n.
  - destruct n as [g|es]; [done|]. destruct p as [|nm' p].
    + cbn [tree_put] in H.
      assert (n' = NDir (<[nm := NFile f]> es) ∧ ∀ es', es !! nm ≠ Some (NDir es'))
        as [-> Hnd] by (destruct (es !! nm) as [[?|?]|]; split; congruence).
      destruct q as [|x q]; [done|].
      unfold tree_file. cbn [tree_lookup].
      destruct (decide (x = nm)) as [->|Hne]; [|by rewrite lookup_insert_ne].
      rewrite lookup_insert_eq. simpl.
      assert (q ≠ []) by congruence.
      rewrite tree_lookup_below_file by done.
      destruct (es !! nm) as [[g|es']|] eqn:Hnm; simpl; [|by destruct (Hnd es')|done].
      by rewrite tree_lookup_below_file.
    + rewrite tree_put_cons in H.
      destruct (tree_put (nm' :: p) f (default (NDir ∅) (es !! nm))) as [c'|] eqn:Hc;
        [|done].
      injection H as <-.
      destruct q as [|x q]; [done|].
      unfold tree_file. cbn [tree_lookup].
      destruct (decide (x = nm)) as [->|Hne]; [|by rewrite lookup_insert_ne].
      rewrite lookup_insert_eq. simpl.
      assert (Hq' : q ≠ nm' :: p) by congruence.
      specialize (IH q _ _ Hc Hq'). unfold tree_file in IH. rewrite IH.
      destruct (es !! nm) as [c|]; simpl; [done|].
      apply (tree_file_empty_dir q).
Qed.


(** A copy changes no regular file other than the one it writes: at
    [dst], or inside [dst] when that is a directory. *)
Lemma copy2_frame (dst : Path) (f : File) (n n' : Node) (q : Path) :
  copy2 dst f n = Some n' → q ≠ dst → q ≠ dst ++ [name dst] →
  tree_file q n' = tree_file q n.
Proof.
  unfold copy2. intros H Hq1 Hq2.
  destruct (tree_lookup dst n) as [[g|es]|]; by eapply tree_put_frame.
Qed.

(** Unlinking changes no other regular file. *)
Lemma tree_file_unlink_ne (p : Path) : ∀ (q : Path) (t : Node),
  q ≠ p → tree_file q (tree_unlink p t) = tree_file q t.
Proof.
  induction p as [|nm p IH]; intros q t Hq; [by destruct t|].
  destruct t as [f|es]; [by destruct p|].
  destruct p as [|nm' p].
  - cbn [tree_unlink]. destruct (es !! nm) as [[f|es']|] eqn:Hnm; [|done..].
    destruct q as [|x q]; [done|].
    unfold tree_file. cbn [tree_lookup].
    destruct (decide (x = nm)) as [->|Hne]; [|by rewrite lookup_delete_ne].
    rewrite lookup_delete_eq, Hnm. simpl.
    assert (q ≠ []) by congruence.
    by rewrite tree_lookup_below_file.
  - rewrite tree_unlink_cons.
    destruct q as [|x q]; [done|].
    unfold tree_file. cbn [tree_lookup].
    destruct (decide (x = nm)) as [->|Hne]; [|by rewrite lookup_alter_ne].
    rewrite lookup_alter_eq. destruct (es !! nm) as [c|]; [|done]. simpl.
    apply (IH q c). congruence.
Qed.

(** After unlinking there is no regular file at the path. *)
Lemma tree_file_unlink_eq (p : Path) : ∀ (t : Node),
  p ≠ [] → tree_file p (tree_unlink p t) = None.
Proof.
  induction p as [|nm p IH]; intros t Hp; [done|].
  destruct t as [f|es]; [by destruct p|].
  destruct p as [|nm' p].
  - cbn [tree_unlink]. unfold tree_file.
    destruct (es !! nm) as [[f|es']|] eqn:Hnm; cbn [tree_lookup].
    + by rewrite lookup_delete_eq.
    + by rewrite Hnm.
    + by rewrite Hnm.
  - rewrite tree_unlink_cons. unfold tree_file. cbn [tree_lookup].
    rewrite lookup_alter_eq. destruct (es !! nm) as [c|]; [|done]. simpl.
    by apply (IH c).
Qed.

(** The regular files left by a sequence of unlinks. *)
Lemma tree_file_unlinks (U : list Path) (q : Path) : ∀ t,
  [] ∉ U →
  tree_file q (fold_left (λ t p, tree_unlink p t) U t)
  = if decide (q ∈ U) then None else tree_file q t.
Proof.
  induction U as [|p U IH]; intros t HU; cbn [fold_left].
  - case_decide as Hin; [by apply elem_of_nil in Hin|done].
  - rewrite IH by (intros ?; apply HU; by right).
    assert (p ≠ []) by (intros ->; apply HU; left).
    destruct (decide (q = p)) as [->|Hne].
    + rewrite tree_file_unlink_eq by done.
      destruct (decide (p ∈ U)); case_decide as Hin; try done.
      all: exfalso; apply Hin; left.
    + rewrite tree_file_unlink_ne by done.
      destruct (decide (q ∈ U)) as [HU'|HU']; case_decide as Hin; try done.
      * exfalso. apply Hin. by right.
      * by apply elem_of_cons in Hin as [?|?].
Qed.

(** The names [os.walk] lists for a directory. *)
Definition subdirs (es : gmap string Node) : list string :=
  map_fold (λ nm c acc, match c with NDir _ => nm :: acc | _ => acc end) [] es.

Definition nondirs (es : gmap string Node) : list string :=
  map_fold (λ nm c acc, match c with NFile _ => nm :: acc | _ => acc end) [] es.

Lemma elem_of_nondirs (es : gmap string Node) (nm : string) :
  nm ∈ nondirs es ↔ ∃ f, es !! nm = Some (NFile f).
Proof.
  unfold nondirs.
  rewrite (elem_of_map_fold_app _
             (λ k c, match c with NFile _ => [k] | NDir _ => [] end)).
  2:{ by intros k [?|?] acc. }
  split.
  - intros (k & [f|?] & Hk & Hin); [|by apply elem_of_nil in Hin].
    apply list_elem_of_singleton in Hin as ->. eauto.
  - intros [f Hf]. exists nm, (NFile f). split; [done|]. by apply list_elem_of_singleton.
Qed.

(** [os.walk] visits exactly the directories of the tree, each with
    its own listing. *)
Lemma os_walk_spec (n : Node) : ∀ (root r : Path) (dirs files : list string),
  (r, dirs, files) ∈ os_walk root n ↔
  ∃ rel es, r = root ++ rel ∧ tree_lookup rel n = Some (NDir es)
            ∧ dirs = subdirs es ∧ files = nondirs es.
Proof.
  induction n as [f|es IH] using Node_child_ind; intros root r dirs files.
  - simpl. split; [by intros ?%elem_of_nil|].
    intros (rel & es & _ & Hl & _). by destruct rel.
  - cbn [os_walk]. rewrite elem_of_cons.
    rewrite (elem_of_map_fold_app _
               (λ d c, match c with
                       | NDir _ => os_walk (root ++ [d]) c
                       | NFile _ => []
                       end)).
    2:{ by intros k [?|?] acc. }
    split.
    + intros [[= -> -> ->]|(d & c & Hd & Hin)].
      * exists [], es. by rewrite app_nil_r.
      * destruct c as [|es']; [by apply elem_of_nil in Hin|].
        apply (IH d _ Hd) in Hin as (rel & es'' & -> & Hl & -> & ->).
        exists (d :: rel), es''. rewrite <- app_assoc. simpl.
        rewrite Hd. simpl. done.
    + intros (rel & es' & -> & Hl & -> & ->).
      destruct rel as [|d rel].
      * left. simpl in Hl. injection Hl as ->. by rewrite app_nil_r.
      * right. simpl in Hl. destruct (es !! d) as [c|] eqn:Hd; [|done].
        simpl in Hl. exists d, c. split; [done|].
        destruct c as [g|es''].
        { by destruct rel. }
        apply (IH d _ Hd). exists rel, es'.
        by rewrite <- app_assoc.
Qed.

(** Every regular file of the tree is listed once its directory is
    visited, and only regular files are listed. *)
Lemma os_walk_lists (n : Node) (r : Path) (dirs files : list string) (nm : string) :
  (r, dirs, files) ∈ os_walk [] n →
  nm ∈ files ↔ is_Some (tree_file (r ++ [nm]) n).
Proof.
  intros (rel & es & -> & Hl & -> & ->)%os_walk_spec. simpl.
  rewrite elem_of_nondirs. unfold tree_file.
  rewrite tree_lookup_app, Hl. simpl.
  destruct (es !! nm) as [[f|es']|]; simpl.
  - split; eauto.
  - split; [by intros [? ?]|by intros [? ?]].
  - split; [by intros [? ?]|by intros [? ?]].
Qed.

Lemma os_walk_visits (n : Node) (rel : Path) (nm : string) :
  is_Some (tree_file (rel ++ [nm]) n) →
  ∃ dirs files, (rel, dirs, files) ∈ os_walk [] n ∧ nm ∈ files.
Proof.
  intros Hf.
  assert (∃ es, tree_lookup rel n = Some (NDir es)) as [es Hes].
  { destruct Hf as [f Hf]. unfold tree_file in Hf.
    rewrite tree_lookup_app in Hf.
    destruct (tree_lookup rel n) as [[g|es]|]; [done|eauto|done]. }
  exists (subdirs es), (nondirs es).
  assert (Hin : (rel, subdirs es, nondirs es) ∈ os_walk [] n).
  { apply os_walk_spec. exists rel, es. done. }
  split; [done|]. by apply (os_walk_lists n rel _ _ nm Hin).
Qed.

(** Folding over a [flat_map]. *)
Lemma fold_left_flat_map {A B C} (f : A → C → A) (g : B → list C) (l : list B) :
  ∀ a, fold_left f (flat_map g l) a = fold_left (λ a x, fold_left f (g x) a) l a.
Proof.
  induction l as [|x l IH]; intros a; simpl; [done|].
  by rewrite fold_left_app, IH.
Qed.

Lemma elem_of_flat_map {A B} (g : A → list B) (l : list A) (y : B) :
  y ∈ flat_map g l ↔ ∃ x, x ∈ l ∧ y ∈ g x.
Proof.
  rewrite list_elem_of_In, in_flat_map. setoid_rewrite list_elem_of_In. done.
Qed.

End WalkFacts.


(** ** The loops of a restoration *)

Module RestoreLoopSpec.
Import Core Conflicts WalkFacts.

Lemma fold_left_ind {A B} (P : list B → A → Prop) (f : A → B → A) (l : list B) (a : A) :
  P [] a → (∀ pre x acc, P pre acc → P (pre ++ [x]) (f acc x)) →
  P l (fold_left f l a).
Proof.
  intros Ha Hf.
  assert (H : ∀ pre a, P pre a → P (pre ++ l) (fold_left f l a)).
  { clear a Ha. induction l as [|x l IH]; intros pre a Ha; simpl.
    - by rewrite app_nil_r.
    - rewrite (cons_middle x pre l), app_assoc. apply IH. by apply Hf. }
  by apply (H []).
Qed.

Lemma foldl_inv {A B} (P : A → Prop) (f : A → B → A) (l : list B) (a : A) :
  P a → (∀ acc x, x ∈ l → P acc → P (f acc x)) → P (foldl f a l).
Proof.
  revert a. induction l as [|x l IH]; intros a Ha Hf; simpl; [done|].
  apply IH; [apply Hf; [left|done]|]. intros acc y Hy. apply Hf. by right.
Qed.

Lemma path_snoc (rel : Path) :
  rel ≠ [] → rel = parent rel ++ [name rel].
Proof. intros H. unfold parent, name. by apply app_removelast_last. Qed.

Lemma name_snoc (root : Path) (file : string) : name (root ++ [file]) = file.
Proof. unfold name. apply last_last. Qed.

Lemma tree_file_root_dir (es : gmap string Node) : tree_file [] (NDir es) = None.
Proof. reflexivity. Qed.

(** *** The files a restoration removes *)

(** The paths the first loop of [restore_backup] unlinks. *)
Definition absent_targets (sv : Savior) (backup_files : gmap Path BackupMeta)
    (tr : Node) : list Path :=
  flat_map
    (λ '(root, _, files),
       if bool_decide (".savior" ∈ project_dir sv ++ root) then []
       else flat_map
              (λ file,
                 if bool_decide (root ++ [file] ∉ dom backup_files)
                    && negb (startswith (str (root ++ [file])) ".savior")
                 then [root ++ [file]] else []) files)
    (os_walk [] tr).

Lemma remove_absent_unlinks sv backup_files (tr : Node) :
  remove_absent sv backup_files tr
  = fold_left (λ t p, tree_unlink p t) (absent_targets sv backup_files tr) tr.
Proof.
  unfold remove_absent, absent_targets. rewrite fold_left_flat_map.
  generalize (os_walk [] tr). intros l. generalize tr.
  induction l as [|[[root dirs] files] l IH]; intros t; simpl; [done|].
  rewrite <- IH. f_equal.
  case_bool_decide; [done|].
  rewrite fold_left_flat_map. clear IH.
  revert t. induction files as [|file files IHf]; intros t; simpl; [done|].
  rewrite <- IHf. f_equal.
  by destruct (bool_decide _ && negb _).
Qed.

Lemma elem_of_absent_targets sv backup_files (tr : Node) (rel : Path) :
  rel ∈ absent_targets sv backup_files tr ↔
  rel ≠ [] ∧ is_Some (tree_file rel tr)
  ∧ (".savior" ∉ project_dir sv ++ parent rel)
  ∧ (rel ∉ dom backup_files)
  ∧ startswith (str rel) ".savior" = false.
Proof.
  unfold absent_targets. rewrite elem_of_flat_map. split.
  - intros ([[root dirs] files] & Hw & Hin).
    case_bool_decide as Hs; [by apply elem_of_nil in Hin|].
    apply elem_of_flat_map in Hin as (file & Hfile & Hin).
    destruct (bool_decide (root ++ [file] ∉ dom backup_files)
              && negb (startswith (str (root ++ [file])) ".savior")) eqn:Hc;
      [|by apply elem_of_nil in Hin].
    apply list_elem_of_singleton in Hin as ->.
    apply andb_true_iff in Hc as [Hd Hp].
    apply bool_decide_eq_true in Hd. apply negb_true_iff in Hp.
    rewrite RestoreSpec.parent_snoc.
    split; [by destruct root|].
    split; [by apply (os_walk_lists tr root dirs files file Hw)|done].
  - intros (Hne & Hf & Hs & Hd & Hp).
    rewrite (path_snoc rel Hne) in Hf.
    destruct (os_walk_visits tr _ _ Hf) as (dirs & files & Hw & Hin).
    exists (parent rel, dirs, files). split; [done|].
    rewrite bool_decide_eq_false_2 by done.
    apply elem_of_flat_map. exists (name rel). split; [done|].
    rewrite <- (path_snoc rel Hne).
    rewrite bool_decide_eq_true_2, Hp by done. simpl.
    by apply list_elem_of_singleton.
Qed.

Lemma absent_targets_nonempty sv backup_files (tr : Node) :
  [] ∉ absent_targets sv backup_files tr.
Proof. by intros (? & _)%elem_of_absent_targets. Qed.

(** X6. What a restoration removes.  The first loop of [restore_backup]
    deletes every regular file of the working tree that is not a path
    of the backup, unless one of its directories is named [.savior] or
    its relative path starts with [.savior]; every other regular file
    keeps its place and content, and no file appears.  Files the backup
    never held (ignored, too large, unreadable ones) are deleted like
    any other. *)
Theorem restore_removes_files_absent_from_backup (sv : Savior)
    (backup_files : gmap Path BackupMeta) (es : gmap string Node) (rel : Path) :
  let tr := NDir es in
  let spared := ".savior" ∈ project_dir sv ++ parent rel
                ∨ rel ∈ dom backup_files
                ∨ startswith (str rel) ".savior" = true in
  (spared → tree_file rel (remove_absent sv backup_files tr) = tree_file rel tr)
  ∧ (¬ spared → tree_file rel (remove_absent sv backup_files tr) = None).
Proof.
  intros tr spared.
  rewrite remove_absent_unlinks,
    tree_file_unlinks by apply absent_targets_nonempty.
  split.
  - intros Hsp. case_decide as Hin; [|done].
    apply elem_of_absent_targets in Hin as (_ & _ & Hs & Hd & Hp).
    destruct Hsp as [?|[?|Hsp]]; [done..|]. by rewrite Hp in Hsp.
  - intros Hsp. case_decide as Hin; [done|].
    destruct (tree_file rel tr) as [f|] eqn:Hf; [|done].
    exfalso. apply Hin, elem_of_absent_targets.
    split; [by intros ->|]. split; [by rewrite Hf|].
    split; [intros ?; apply Hsp; by left|].
    split; [intros ?; apply Hsp; right; by left|].
    destruct (startswith (str rel) ".savior") eqn:Hp; [|done].
    exfalso. apply Hsp. right. by right.
Qed.

Definition demo_es : gmap string Node :=
  {[ "a.txt" := NFile (mkFile "changed" 33188 1);
     "__pycache__" := NDir {[ "m.pyc" := NFile (mkFile "code" 33188 1) ]};
     ".savior" := NDir {[ "metadata.json" := NFile (mkFile "{}" 33188 0) ]} ]}.

Lemma restore_removes_files_absent_from_backup_witness :
  tree_file ["a.txt"]
    (remove_absent RestoreSpec.demo_savior RestoreSpec.demo_backup_files (NDir demo_es))
  = Some (mkFile "changed" 33188 1)
  ∧ tree_file ["__pycache__"; "m.pyc"]
      (remove_absent RestoreSpec.demo_savior RestoreSpec.demo_backup_files (NDir demo_es))
    = None.
Proof.
  split.
  - apply (restore_removes_files_absent_from_backup RestoreSpec.demo_savior
             RestoreSpec.demo_backup_files demo_es ["a.txt"]).
    right. left. compute_done.
  - apply (restore_removes_files_absent_from_backup RestoreSpec.demo_savior
             RestoreSpec.demo_backup_files demo_es ["__pycache__"; "m.pyc"]).
    intros [H|[H|H]].
    + revert H. compute_done.
    + revert H. compute_done.
    + vm_compute in H. discriminate H.
Defined.

(** *** The scan of the conflict detector *)

Section Detector.

Variable sha256 : string → string.









(** *** The conflicts reported *)





End Detector.

(** *** The safety archive *)


(** *** Conflict resolution *)

Definition conflict_backups : Path := [".savior"; "conflict_backups"].

(** X9. Conflict resolution writes below [.savior/conflict_backups]
    only.  Whatever the conflicts and whatever the strategy,
    [apply_resolution_strategy] leaves every regular file whose path
    does not start with [.savior/conflict_backups] where and as it
    was, also when a copy fails half-way. *)
Theorem conflict_resolution_keeps_working_files (tree : Node)
    (conflicts : FileConflicts) (strategy : ConflictType → ConflictResolution)
    (q : Path) :
  ¬ conflict_backups `prefix_of` q →
  tree_file q (apply_resolution_strategy tree conflicts strategy).1 = tree_file q tree.
Proof.
  intros Hq. unfold apply_resolution_strategy.
  apply (foldl_inv (λ acc : Node * option Actions, tree_file q acc.1 = tree_file q tree));
    [done|].
  intros acc [conflict_type its] _ Hacc.
  apply (foldl_inv (λ acc : Node * option Actions, tree_file q acc.1 = tree_file q tree));
    [done|].
  intros [t res] item _ Ht. simpl in Ht.
  destruct res as [actions|]; [|done].
  destruct (strategy conflict_type); try done.
  destruct (tree_lookup (path item) t) as [[f|?]|]; try done.
  destruct (copy2 _ f t) as [t'|] eqn:Hc; [|done]. simpl.
  rewrite <- Ht. eapply copy2_frame; [exact Hc|..].
  - intros ->. apply Hq. by apply prefix_app_r.
  - intros ->. apply Hq. rewrite <- app_assoc. by apply prefix_app_r.
Qed.

Lemma conflict_resolution_keeps_working_files_witness :
  tree_file ["a.txt"]
    (apply_resolution_strategy (NDir demo_es)
       (detect_file_conflicts Examples.toy_digest ["home"; "u"; "proj"] (NDir demo_es)
          RestoreSpec.demo_backup_files)
       suggest_resolution_strategy).1
  = Some (mkFile "changed" 33188 1).
Proof.
  rewrite (conflict_resolution_keeps_working_files (NDir demo_es) _ _ ["a.txt"]).
  - reflexivity.
  - intros [k Hk]. discriminate Hk.
Defined.

End RestoreLoopSpec.


(** ** What a backup collects *)

Module CollectSpec.
Import Core TreeFacts WalkFacts.

Section Collect.

Variable fnmatch : string → string → bool.

(** A file is eligible for a backup when neither its relative path nor
    the relative path of one of its directories is ignored, it is
    smaller than the size ceiling and it is readable. *)
Definition eligible (patterns : list string) (rel_root rel : Path) (f : File) : Prop :=
  (∀ r, r ≠ [] → r `prefix_of` rel →
        should_ignore fnmatch patterns (str (rel_root ++ r)) = false)
  ∧ st_size f < MAX_FILE_SIZE ∧ readable f = true.

Lemma prefix_cons_inv_nonempty (d : string) (r rel : Path) :
  r ≠ [] → r `prefix_of` d :: rel → ∃ r', r = d :: r' ∧ r' `prefix_of` rel.
Proof.
  intros Hr [k Hk]. destruct r as [|x r]; [done|].
  simpl in Hk. injection Hk as -> ->. exists r. split; [done|]. by exists k.
Qed.

Lemma _collect_walk_spec (patterns : list string) (project_dir : Path) (n : Node) :
  ∀ rel_root p,
    p ∈ _collect_walk fnmatch patterns project_dir rel_root n ↔
    ∃ rel f, p = project_dir ++ rel_root ++ rel ∧ rel ≠ []
             ∧ tree_file rel n = Some f ∧ eligible patterns rel_root rel f.
Proof.
  induction n as [g|es IH] using Node_child_ind; intros rel_root p.
  - simpl. split; [by intros ?%elem_of_nil|].
    intros (rel & f & _ & Hne & Hf & _). unfold tree_file in Hf.
    by rewrite tree_lookup_below_file in Hf.
  - cbn [_collect_walk]. rewrite elem_of_app.
    rewrite (elem_of_map_fold_app _
               (λ filename c,
                  match c with
                  | NFile f =>
                      if negb (should_ignore fnmatch patterns
                                 (str (rel_root ++ [filename])))
                         && (st_size f <? MAX_FILE_SIZE) && readable f
                      then [project_dir ++ rel_root ++ [filename]] else []
                  | NDir _ => []
                  end)).
    2:{ intros k [f|?] acc; [|done]. by destruct (negb _ && _ && _). }
    rewrite (elem_of_map_fold_app _
               (λ d c,
                  match c with
                  | NDir _ =>
                      if should_ignore fnmatch patterns (str (rel_root ++ [d]))
                      then []
                      else _collect_walk fnmatch patterns project_dir
                             (rel_root ++ [d]) c
                  | NFile _ => []
                  end)).
    2:{ intros k [?|?] acc; [done|]. by destruct (should_ignore _ _ _). }
    split.
    + intros [(nm & c & Hnm & Hp)|(d & c & Hd & Hp)].
      * destruct c as [f|?]; [|by apply elem_of_nil in Hp].
        destruct (should_ignore fnmatch patterns (str (rel_root ++ [nm]))) eqn:Hig;
          simpl in Hp; [by apply elem_of_nil in Hp|].
        destruct (st_size f <? MAX_FILE_SIZE) eqn:Hsz; simpl in Hp;
          [|by apply elem_of_nil in Hp].
        destruct (readable f) eqn:Hr; [|by apply elem_of_nil in Hp].
        apply list_elem_of_singleton in Hp as ->.
        exists [nm], f. split; [done|]. split; [done|].
        split; [unfold tree_file; simpl; by rewrite Hnm|].
        split; [|split; [by apply Nat.ltb_lt|done]].
        intros r Hr0 Hpre.
        apply prefix_cons_inv_nonempty in Hpre as (r' & -> & Hr'); [|done].
        apply prefix_nil_inv in Hr' as ->. done.
      * destruct c as [|es']; [by apply elem_of_nil in Hp|].
        destruct (should_ignore fnmatch patterns (str (rel_root ++ [d]))) eqn:Hig;
          [by apply elem_of_nil in Hp|].
        apply (IH d _ Hd) in Hp as (rel & f & -> & Hne & Hf & Hel & Hsz & Hr).
        exists (d :: rel), f. rewrite <- !app_assoc. split; [done|].
        split; [done|].
        split; [unfold tree_file in *; simpl; by rewrite Hd|].
        split; [|done].
        intros r Hr0 Hpre.
        apply prefix_cons_inv_nonempty in Hpre as (r' & -> & Hr'); [|done].
        destruct (decide (r' = [])) as [->|Hr'0]; [done|].
        specialize (Hel r' Hr'0 Hr'). by rewrite <- app_assoc in Hel.
    + intros (rel & f & -> & Hne & Hf & Hel & Hsz & Hr).
      destruct rel as [|nm rel]; [done|].
      unfold tree_file in Hf. simpl in Hf.
      destruct (es !! nm) as [c|] eqn:Hnm; [|done]. simpl in Hf.
      destruct rel as [|x rel].
      * left. simpl in Hf. destruct c as [f'|?]; [|done]. injection Hf as ->.
        exists nm, (NFile f). split; [done|].
        rewrite (Hel [nm]) by done.
        apply Nat.ltb_lt in Hsz. rewrite Hsz, Hr. simpl.
        by apply list_elem_of_singleton.
      * right. destruct c as [f'|es']; [done|].
        exists nm, (NDir es'). split; [done|].
        rewrite (Hel [nm]); [|done|by apply prefix_cons, prefix_nil].
        apply (IH nm _ Hnm). exists (x :: rel), f.
        rewrite <- !app_assoc. split; [done|]. split; [done|].
        split; [done|]. split; [|done].
        intros r Hr0 Hpre. rewrite <- app_assoc. apply (Hel (nm :: r)); [done|].
        by apply prefix_cons.
Qed.

(** X1. What a backup collects.  [_collect_files] returns exactly the
    regular files below the project directory that are eligible: not
    ignored, with no ignored directory on the way to them, smaller than
    100 MiB and readable. *)
Theorem collected_files_are_the_eligible_files (patterns : list string)
    (project_dir : Path) (tree : Node) (p : Path) :
  p ∈ _collect_files fnmatch patterns project_dir tree ↔
  ∃ rel f, p = project_dir ++ rel ∧ rel ≠ [] ∧ tree_file rel tree = Some f
           ∧ eligible patterns [] rel f.
Proof.
  unfold _collect_files. rewrite elem_of_list_to_set.
  apply _collect_walk_spec.
Qed.

Lemma elem_of_archive_members (sv : Savior) (tr : Node) (files : gset Path)
    (m : Tarfile.TarInfo) :
  m ∈ archive_members sv tr (elements files) ↔
  ∃ rel f, project_dir sv ++ rel ∈ files ∧ tree_file rel tr = Some f
           ∧ m = Tarfile.tar_add f (str rel).
Proof.
  unfold archive_members. rewrite elem_of_flat_map. split.
  - intros (fp & Hfp%elem_of_elements & Hm).
    destruct (relative_to fp (project_dir sv)) as [rel|] eqn:Hrel;
      [|by apply elem_of_nil in Hm].
    apply PathFacts.relative_to_Some in Hrel as ->.
    destruct (tree_file rel tr) as [f|] eqn:Hf; [|by apply elem_of_nil in Hm].
    apply list_elem_of_singleton in Hm as ->. eauto.
  - intros (rel & f & Hin & Hf & ->). exists (project_dir sv ++ rel).
    split; [by apply elem_of_elements|].
    rewrite PathFacts.relative_to_app, Hf. by apply list_elem_of_singleton.
Qed.

End Collect.

End CollectSpec.


(** ** Creating a backup *)

Module BackupSpec.
Import Core Datetime RetentionSpec CollectSpec WalkFacts.

Lemma foldr_insert_desc_newest (b : Backup) (bs : list Backup) :
  (∀ x, x ∈ bs → (to_micro (timestamp x) < to_micro (timestamp b))%Z) →
  foldr insert_desc [b] bs = b :: foldr insert_desc [] bs.
Proof.
  induction bs as [|x bs IH]; intros Hlt; simpl; [done|].
  rewrite IH by (intros y Hy; apply Hlt; by right). simpl.
  assert (to_micro (timestamp x) < to_micro (timestamp b))%Z by (apply Hlt; left).
  destruct (Z.leb_spec (to_micro (timestamp b)) (to_micro (timestamp x))); [lia|done].
Qed.

(** A backup newer than all others sorts first. *)
Lemma sorted_desc_snoc_newest (b : Backup) (bs : list Backup) :
  (∀ x, x ∈ bs → (to_micro (timestamp x) < to_micro (timestamp b))%Z) →
  sorted_desc (bs ++ [b]) = b :: sorted_desc bs.
Proof.
  intros Hlt. unfold sorted_desc. rewrite foldr_app. simpl.
  by apply foldr_insert_desc_newest.
Qed.

(** The cleanup adds no entry to the metadata ... *)
Lemma cleanup_backups_sub now (p : Project) (b : Backup) :
  b ∈ backups (_load_metadata (_cleanup_old_backups now p).1) →
  b ∈ backups (_load_metadata p).
Proof.
  rewrite cleanup_backups. intros Hin%unique_by_path_sub.
  apply elem_of_app in Hin as [Hin|Hin].
  - unfold recent in Hin. apply elem_of_take in Hin as (i & Hi & _).
    apply elem_of_sorted_desc. by eapply list_elem_of_lookup_2.
  - apply list_elem_of_filter in Hin as [_ Hin]. by apply elem_of_sorted_desc.
Qed.

(** ... and no file to the store, and leaves the working tree alone. *)
Lemma cleanup_store_sub now (p : Project) (q : Path) :
  store (_cleanup_old_backups now p).1 !! q = None
  ∨ store (_cleanup_old_backups now p).1 !! q = store p !! q.
Proof.
  destruct (fold_left (cleanup_step now (recent_paths p))
              (sorted_desc (backups (_load_metadata p))) (recent p, store p, 0))
    as [[kept st] n] eqn:Hf.
  rewrite (cleanup_unfold _ _ _ _ _ Hf). simpl.
  assert (H : ∀ l kept st0 n,
            (fold_left (cleanup_step now (recent_paths p)) l (kept, st0, n)).1.2 !! q = None
            ∨ (fold_left (cleanup_step now (recent_paths p)) l (kept, st0, n)).1.2 !! q
              = st0 !! q).
  { clear. induction l as [|b l IH]; intros kept st0 n; cbn [fold_left]; [by right|].
    destruct (cleanup_step now (recent_paths p) (kept, st0, n) b) as [[k1 st1] n1] eqn:Hs.
    destruct (IH k1 st1 n1) as [H|H]; [by left|]. rewrite H.
    unfold cleanup_step in Hs. case_bool_decide; [right; congruence|].
    destruct (retention_verdict now b); [right; congruence|].
    case_bool_decide; [|right; congruence].
    injection Hs as _ <- _. unfold unlink_stored.
    destruct (decide (q = path b)) as [->|Hne].
    - left. apply lookup_delete_eq.
    - right. by apply lookup_delete_ne. }
  specialize (H (sorted_desc (backups (_load_metadata p))) (recent p) (store p) 0).
  by rewrite Hf in H.
Qed.

Lemma cleanup_tree now (p : Project) : tree (_cleanup_old_backups now p).1 = tree p.
Proof.
  destruct (fold_left (cleanup_step now (recent_paths p))
              (sorted_desc (backups (_load_metadata p))) (recent p, store p, 0))
    as [[kept st] n] eqn:Hf.
  by rewrite (cleanup_unfold _ _ _ _ _ Hf).
Qed.

(** The newest backup survives the cleanup, with its archive. *)
Lemma cleanup_keeps_newest now (p : Project) (b : Backup) (rest : list Backup) :
  sorted_desc (backups (_load_metadata p)) = b :: rest →
  b ∈ backups (_load_metadata (_cleanup_old_backups now p).1)
  ∧ store (_cleanup_old_backups now p).1 !! path b = store p !! path b.
Proof.
  intros Hs. split.
  - rewrite cleanup_backups. unfold recent. rewrite Hs. simpl.
    rewrite bool_decide_eq_false_2 by set_solver. left.
  - apply cleanup_store. intros (b0 & _ & Heq & Hn & _). apply Hn.
    unfold recent_paths, recent. rewrite Hs, Heq. simpl. set_solver.
Qed.

(** [os.makedirs] writes, removes and changes no regular file. *)
Lemma tree_makedirs_frame (d : Path) : ∀ (n n' : Node) (q : Path),
  tree_makedirs d n = Some n' → tree_file q n' = tree_file q n.
Proof.
  induction d as [|nm d IH]; intros n n' q H.
  - destruct n; simpl in H; congruence.
  - destruct n as [g|es]; [done|]. simpl in H.
    destruct (tree_makedirs d (default (NDir ∅) (es !! nm))) as [c'|] eqn:Hc; [|done].
    injection H as <-.
    destruct q as [|x q]; [done|].
    unfold tree_file. cbn [tree_lookup].
    destruct (decide (x = nm)) as [->|Hne]; [|by rewrite lookup_insert_ne].
    rewrite lookup_insert_eq. simpl.
    specialize (IH _ _ q Hc). unfold tree_file in IH. rewrite IH.
    destruct (es !! nm) as [c|]; simpl; [done|].
    apply (tree_file_empty_dir q).
Qed.

Section Backup.

Variable fnmatch : string → string → bool.
Variable archive_size : Tarfile.TarFile → nat.

(** X2. A new backup is recorded, and its archive holds the collected
    files.  When [create_backup] returns a backup that is newer than
    every backup of the metadata, the backup carries the time of the
    call, it is listed in the metadata afterwards, and the store holds
    at its path an archive that is gzip-compressed unless the
    compression level is 0 and has one member for every collected file,
    named by the file's relative path and holding the file's bytes,
    and no other member.  No regular file of the working tree changes. *)
Theorem new_backup_is_recorded_and_stored (sv : Savior) (clock : Clock)
    (usage : option DiskUsage) (description : string) (compression_level : Z)
    (p p' : Project) (b : Backup) :
  create_backup fnmatch archive_size sv clock usage description compression_level p
  = (p', inl b) →
  (∀ x, x ∈ backups (_load_metadata p) →
        (to_micro (timestamp x) < to_micro (t_backup clock))%Z) →
  timestamp b = t_backup clock
  ∧ b ∈ backups (_load_metadata p')
  ∧ (∀ q, tree_file q (tree p') = tree_file q (tree p))
  ∧ ∃ t, store p' !! path b = Some (TarStored t)
         ∧ Tarfile.gz t = negb (compression_level =? 0)%Z
         ∧ bsize b = archive_size t
         ∧ ∀ m, m ∈ Tarfile.members t ↔
                ∃ rel f,
                  project_dir sv ++ rel
                    ∈ _collect_files fnmatch (patterns sv) (project_dir sv) (tree p')
                  ∧ tree_file rel (tree p') = Some f
                  ∧ m = Tarfile.tar_add f (str rel).
Proof.
  unfold create_backup. intros H Hnew.
  destruct (tree_makedirs [".savior"] (tree p)) as [tr|] eqn:Hmk; [|done].
  set (p0 := {| tree := tr; store := store p; metadata_file := metadata_file p |}) in *.
  set (p1 := (_cleanup_old_backups (t_cleanup clock) p0).1) in *.
  assert (Htr : tree p1 = tr) by apply cleanup_tree.
  destruct (elements (_collect_files fnmatch (patterns sv) (project_dir sv) (tree p1)))
    as [|file0 files0] eqn:Hfiles; [done|].
  rewrite <- Hfiles in H.
  destruct (negb (_check_disk_space usage _)); [done|].
  match type of H with
  | ((_cleanup_old_backups _ ?P3).1, inl ?B) = _ =>
      set (p3 := P3) in *; set (b0 := B) in *
  end.
  injection H as <- <-.
  assert (Hsorted : sorted_desc (backups (_load_metadata p3))
                    = b0 :: sorted_desc (backups (_load_metadata p1))).
  { unfold p3. simpl. apply sorted_desc_snoc_newest.
    intros x Hx. apply Hnew. by apply cleanup_backups_sub in Hx. }
  destruct (cleanup_keeps_newest (t_cleanup_after clock) p3 b0 _ Hsorted) as [Hin Hst].
  split; [done|]. split; [exact Hin|]. split.
  { intros q. rewrite cleanup_tree. unfold p3. simpl. rewrite Htr.
    by eapply tree_makedirs_frame. }
  eexists. split; [rewrite Hst; unfold p3; simpl; apply lookup_insert_eq|].
  split; [done|]. split; [done|].
  intros m. simpl. rewrite cleanup_tree. unfold p3. simpl.
  apply elem_of_archive_members.
Qed.

(** X3. A failed backup adds nothing.  When [create_backup] raises
    (the backup directory cannot be made, there is no file to back up,
    or the disk is too full), the store holds no file it did not hold
    before, the metadata lists no backup it did not list before, and no
    regular file of the working tree has changed. *)
Theorem failed_backup_adds_nothing (sv : Savior) (clock : Clock)
    (usage : option DiskUsage) (description : string) (compression_level : Z)
    (p p' : Project) (e : Exn) :
  create_backup fnmatch archive_size sv clock usage description compression_level p
  = (p', inr e) →
  (∀ q, store p' !! q = None ∨ store p' !! q = store p !! q)
  ∧ (∀ x, x ∈ backups (_load_metadata p') → x ∈ backups (_load_metadata p))
  ∧ (∀ q, tree_file q (tree p') = tree_file q (tree p)).
Proof.
  unfold create_backup. intros H.
  destruct (tree_makedirs [".savior"] (tree p)) as [tr|] eqn:Hmk.
  2:{ injection H as <- _. split; [by right|done]. }
  set (p0 := {| tree := tr; store := store p; metadata_file := metadata_file p |}) in *.
  assert (Hp' : p' = (_cleanup_old_backups (t_cleanup clock) p0).1).
  { destruct (elements _) as [|file0 files0]; [congruence|].
    destruct (negb (_check_disk_space usage _)); [congruence|done]. }
  subst p'. split; [|split].
  - intros q. apply (cleanup_store_sub _ p0 q).
  - intros x Hx. by apply cleanup_backups_sub in Hx.
  - intros q. rewrite cleanup_tree. simpl. by eapply tree_makedirs_frame.
Qed.

End Backup.

Definition demo_project : Project :=
  {| tree := NDir {[ "a.txt" := NFile (mkFile "hello" 33188 0) ]};
     store := ∅;
     metadata_file := None |}.

Definition demo_clock : Clock :=
  {| t_cleanup := mkDatetime 2025 9 21 14 30 4 0;
     t_backup := mkDatetime 2025 9 21 14 30 5 0;
     t_cleanup_after := mkDatetime 2025 9 21 14 30 6 0 |}.

Definition demo_savior : Savior :=
  {| project_dir := ["home"; "u"; "proj"]; patterns := [".savior/"] |}.

Lemma new_backup_is_recorded_and_stored_witness :
  ∃ p' b,
    create_backup (λ _ _, false) (λ _, 0) demo_savior demo_clock None "" 6 demo_project
    = (p', inl b)
    ∧ b ∈ backups (_load_metadata p').
Proof.
  eexists _, _. split; [vm_compute; reflexivity|].
  eapply (new_backup_is_recorded_and_stored (λ _ _, false) (λ _, 0) demo_savior
            demo_clock None "" 6 demo_project).
  - vm_compute. reflexivity.
  - intros x Hx. vm_compute in Hx. by apply elem_of_nil in Hx.
Defined.

Definition empty_project : Project :=
  {| tree := NDir ∅; store := ∅; metadata_file := None |}.

Lemma failed_backup_adds_nothing_witness :
  ∃ p' e,
    create_backup (λ _ _, false) (λ _, 0) demo_savior demo_clock None "" 6 empty_project
    = (p', inr e)
    ∧ ∀ q, tree_file q (tree p') = tree_file q (tree empty_project).
Proof.
  eexists _, _. split; [vm_compute; reflexivity|].
  eapply (failed_backup_adds_nothing (λ _ _, false) (λ _, 0) demo_savior
            demo_clock None "" 6 empty_project).
  vm_compute. reflexivity.
Defined.

End BackupSpec.


(** ** Purging *)

Module PurgeSpec.
Import Core Datetime RetentionSpec.

(** Newest first. *)
Definition newer_eq (a b : Backup) : Prop :=
  (to_micro (timestamp b) ≤ to_micro (timestamp a))%Z.

(** A list in which every backup is at least as recent as those after it. *)
Fixpoint newest_first (l : list Backup) : Prop :=
  match l with
  | [] => True
  | x :: l' => Forall (newer_eq x) l' ∧ newest_first l'
  end.

Lemma insert_desc_sorted (b : Backup) (l : list Backup) :
  newest_first l → newest_first (insert_desc b l).
Proof.
  induction l as [|x l IH]; intros Hs; simpl.
  - by split.
  - destruct Hs as [Hx Hs].
    destruct (Z.leb_spec (to_micro (timestamp x)) (to_micro (timestamp b))).
    + split; [|by split].
      constructor; [done|].
      eapply Forall_impl; [exact Hx|]. unfold newer_eq. intros y Hy. lia.
    + split; [|by apply IH].
      rewrite insert_desc_perm. constructor; [|done]. unfold newer_eq. lia.
Qed.

Lemma sorted_desc_sorted (l : list Backup) : newest_first (sorted_desc l).
Proof.
  induction l as [|x l IH]; simpl; [done|]. by apply insert_desc_sorted.
Qed.

Lemma newest_first_app (l1 l2 : list Backup) (k d : Backup) :
  newest_first (l1 ++ l2) → k ∈ l1 → d ∈ l2 → newer_eq k d.
Proof.
  induction l1 as [|x l1 IH]; intros Hs Hk Hd; [by apply elem_of_nil in Hk|].
  destruct Hs as [Hx Hs].
  apply elem_of_cons in Hk as [->|Hk]; [|by apply IH].
  rewrite Forall_forall in Hx. apply Hx. apply elem_of_app. by right.
Qed.

Lemma slice_split {A} (l : list A) (k : Z) : slice_to l k ++ slice_from l k = l.
Proof. apply take_drop. Qed.

Lemma unlink_if_exists_lookup (d : Path) (q : Path) (st : gmap Path StoredFile) :
  (if bool_decide (d ∈ dom st) then unlink_stored d st else st) !! q
  = if bool_decide (q = d) then None else st !! q.
Proof.
  unfold unlink_stored.
  destruct (decide (q = d)) as [->|Hne].
  - rewrite (bool_decide_eq_true_2 (d = d)) by done.
    case_bool_decide as Hdom; [apply lookup_delete_eq|by apply not_elem_of_dom].
  - rewrite (bool_decide_eq_false_2 (q = d)) by done.
    case_bool_decide; [by apply lookup_delete_ne|done].
Qed.

Lemma unlink_all_lookup (D : list Backup) (q : Path) : ∀ st : gmap Path StoredFile,
  fold_left
    (λ st backup,
       if bool_decide (path backup ∈ dom st) then unlink_stored (path backup) st
       else st) D st !! q
  = if bool_decide (q ∈ map path D) then None else st !! q.
Proof.
  induction D as [|d D IH]; intros st; cbn [fold_left map].
  - case_bool_decide as H; [by apply elem_of_nil in H|done].
  - rewrite IH, unlink_if_exists_lookup. clear IH.
    destruct (decide (q = path d)) as [->|Hne].
    + rewrite (bool_decide_eq_true_2 (path d ∈ path d :: map path D)) by left.
      rewrite (bool_decide_eq_true_2 (path d = path d)) by done.
      by case_bool_decide.
    + rewrite (bool_decide_eq_false_2 (q = path d)) by done.
      case_bool_decide as H1; case_bool_decide as H2; try done.
      * exfalso. apply H2. by right.
      * exfalso. by apply elem_of_cons in H2 as [?|?].
Qed.

(** X4. What a purge keeps.  [purge_backups] splits the backups,
    newest first, into those it keeps listed and those it purges: every
    kept backup is at least as recent as every purged one, the archive
    at the path of every purged backup is deleted, no other stored file
    and no file of the working tree changes, and for a count that is
    not negative the backups kept are as many as asked for, or all. *)
Theorem purge_keeps_the_newest (keep_recent : Z) (p : Project) :
  let bs := backups (_load_metadata p) in
  let p' := purge_backups keep_recent p in
  let K := backups (_load_metadata p') in
  ∃ D, K ++ D ≡ₚ bs
       ∧ (∀ k d, k ∈ K → d ∈ D → newer_eq k d)
       ∧ (∀ q, store p' !! q
               = if bool_decide (q ∈ map path D) then None else store p !! q)
       ∧ tree p' = tree p
       ∧ ((0 ≤ keep_recent)%Z → length K = Z.to_nat keep_recent `min` length bs).
Proof.
  intros bs p' K.
  exists (slice_from (sorted_desc bs) keep_recent).
  assert (HK : K = slice_to (sorted_desc bs) keep_recent) by reflexivity.
  rewrite HK. split; [|split; [|split; [|split]]].
  - by rewrite slice_split, sorted_desc_perm.
  - intros k d Hk Hd.
    pose proof (sorted_desc_sorted bs) as Hs.
    rewrite <- (slice_split (sorted_desc bs) keep_recent) in Hs.
    by eapply newest_first_app.
  - intros q. unfold p', purge_backups. simpl. apply unlink_all_lookup.
  - done.
  - intros Hk. unfold slice_to, slice_index.
    destruct (Z.ltb_spec keep_recent 0); [lia|].
    rewrite length_take. by rewrite sorted_desc_perm.
Qed.

Lemma purge_keeps_the_newest_witness :
  length (backups (_load_metadata (purge_backups 5 demo_project))) = 5.
Proof.
  destruct (purge_keeps_the_newest 5 demo_project) as (D & _ & _ & _ & _ & H).
  rewrite H; [reflexivity|lia].
Defined.

End PurgeSpec.


(** ** The content store: retrieval, statistics, maintenance *)

Module StoreSpec.
Import Dedup DedupSpec WalkFacts.

(** The bytes the index accounts for. *)
Definition index_bytes (m : gmap string IndexEntry) : nat :=
  map_fold (λ _ e acc, e_size e + acc) 0 m.

Lemma index_bytes_delete (m : gmap string IndexEntry) (h : string) (e : IndexEntry) :
  m !! h = Some e → index_bytes m = e_size e + index_bytes (delete h m).
Proof.
  intros Hh. unfold index_bytes.
  apply (map_fold_delete_L (λ _ e acc, e_size e + acc)); [|done].
  intros. lia.
Qed.

Lemma index_bytes_insert (m : gmap string IndexEntry) (h : string) (e : IndexEntry) :
  index_bytes (<[h := e]> m) = e_size e + index_bytes (delete h m).
Proof.
  rewrite (index_bytes_delete (<[h := e]> m) h e) by apply lookup_insert_eq.
  by rewrite delete_insert_eq.
Qed.

Lemma index_bytes_insert_new (m : gmap string IndexEntry) (h : string) (e : IndexEntry) :
  m !! h = None → index_bytes (<[h := e]> m) = e_size e + index_bytes m.
Proof. intros Hh. by rewrite index_bytes_insert, delete_id. Qed.

Section Store.

Variable sha256 : string → string.

(** *** Retrieval *)

(** Every indexed hash has its chunk on disk, and the bytes of the
    chunk hash to it. *)
Definition chunks_sound (s : DeduplicationStore) : Prop :=
  ∀ h e, index s !! h = Some e →
         ∃ g, disk s !! _get_chunk_path h = Some g ∧ sha256 (data g) = h.

Lemma chunks_sound_init : chunks_sound _init_store.
Proof. intros h e. simpl. by rewrite lookup_empty. Qed.

Lemma chunks_sound_store fs now s p b :
  chunks_sound s → chunks_sound (store_file sha256 fs now s p b).1.
Proof.
  intros Hs. unfold store_file.
  destruct (fs p) as [f|]; [|done].
  destruct (String.eqb (sha256 (data f)) ""); [done|].
  set (h0 := sha256 (data f)).
  destruct (index s !! h0) as [e0|] eqn:He0; simpl.
  - intros h e; simpl. destruct (decide (h = h0)) as [->|Hne].
    + intros _. by apply (Hs h0 e0).
    + rewrite lookup_insert_ne by done. apply Hs.
  - intros h e; simpl. destruct (decide (h = h0)) as [->|Hne].
    + intros _. exists f. by rewrite lookup_insert_eq.
    + rewrite lookup_insert_ne by done. intros He.
      rewrite lookup_insert_ne; [by apply (Hs h e)|].
      intros Heq. by apply _get_chunk_path_inj in Heq.
Qed.





(** *** Statistics *)

Definition stats_sound (s : DeduplicationStore) : Prop :=
  total_stored (stats s) = Z.of_nat (index_bytes (index s))
  ∧ space_saved (stats s) = total_deduplicated (stats s)
  ∧ (0 ≤ total_deduplicated (stats s))%Z.

Lemma stats_sound_init : stats_sound _init_store.
Proof. done. Qed.

Lemma stats_sound_store fs now s p b :
  stats_sound s → stats_sound (store_file sha256 fs now s p b).1.
Proof.
  intros (H1 & H2 & H3). unfold store_file.
  destruct (fs p) as [f|]; [|done].
  destruct (String.eqb (sha256 (data f)) ""); [done|].
  set (h0 := sha256 (data f)).
  destruct (index s !! h0) as [e0|] eqn:He0; unfold stats_sound; simpl.
  - rewrite index_bytes_insert. simpl.
    rewrite <- (index_bytes_delete _ _ _ He0).
    split; [done|]. split; lia.
  - rewrite index_bytes_insert_new by done. simpl.
    split; [lia|]. done.
Qed.

Lemma stats_sound_remove s h0 b :
  stats_sound s → stats_sound (remove_reference s h0 b).1.
Proof.
  intros (H1 & H2 & H3). unfold remove_reference.
  destruct (index s !! h0) as [e0|] eqn:He0; [|done].
  destruct (_ =? 0)%nat; unfold stats_sound; simpl.
  - rewrite (index_bytes_delete _ _ _ He0) in H1.
    split; [lia|done].
  - rewrite index_bytes_insert. simpl.
    rewrite <- (index_bytes_delete _ _ _ He0). done.
Qed.

(** X15. The statistics agree with the index.  After any sequence of
    [store_file] and [remove_reference] calls on a fresh store, the
    recorded number of stored bytes is the sum of the sizes of the
    indexed chunks, the bytes saved equal the bytes deduplicated, and
    neither is negative. *)
Theorem stats_agree_with_index (ops : list op) :
  let s := run sha256 ops _init_store in
  total_stored (stats s) = Z.of_nat (index_bytes (index s))
  ∧ space_saved (stats s) = total_deduplicated (stats s)
  ∧ (0 ≤ total_deduplicated (stats s))%Z.
Proof.
  intros s. unfold s, run.
  assert (H : ∀ s0, stats_sound s0 → stats_sound (fold_left (step sha256) ops s0)).
  { induction ops as [|o ops' IH]; intros s0 Hs; simpl; [done|].
    apply IH. destruct o; simpl; [by apply stats_sound_store|by apply stats_sound_remove]. }
  apply (H _init_store), stats_sound_init.
Qed.

End Store.

(** *** Orphaned chunks *)

Definition cleanup_list (idx : gmap string IndexEntry) (d0 : gmap Path File)
    (l : list (Path * File)) : gmap Path File * nat :=
  foldr (uncurry (λ chunk_file (_ : File) acc, cleanup_chunk idx chunk_file acc))
    (d0, 0) l.

Lemma cleanup_list_cons idx d0 q0 f0 l :
  cleanup_list idx d0 ((q0, f0) :: l) = cleanup_chunk idx q0 (cleanup_list idx d0 l).
Proof. reflexivity. Qed.

Lemma cleanup_foldr (idx : gmap string IndexEntry) (d0 : gmap Path File)
    (l : list (Path * File)) :
  NoDup l.*1 → (∀ q f, (q, f) ∈ l → d0 !! q = Some f) →
  (∀ q, (cleanup_list idx d0 l).1 !! q
        = if bool_decide (q ∈ l.*1) && is_orphan idx q then None else d0 !! q)
  ∧ (cleanup_list idx d0 l).2 + size (cleanup_list idx d0 l).1 = size d0.
Proof.
  induction l as [|[q0 f0] l IH]; intros Hnd Hin.
  - by split.
  - rewrite fmap_cons in Hnd. apply NoDup_cons in Hnd as [Hq0 Hnd]. simpl in Hq0.
    destruct IH as [IH1 IH2]; [done|intros q f ?; apply Hin; by right|].
    rewrite cleanup_list_cons.
    set (r := cleanup_list idx d0 l) in *.
    assert (Hr0 : r.1 !! q0 = Some f0).
    { rewrite IH1. rewrite bool_decide_eq_false_2 by done. simpl. apply Hin. left. }
    assert (Hb : ∀ q, q ≠ q0 →
                 bool_decide (q ∈ ((q0, f0) :: l).*1) = bool_decide (q ∈ l.*1)).
    { intros q Hne. apply bool_decide_ext. rewrite fmap_cons, elem_of_cons. simpl. tauto. }
    unfold cleanup_chunk. destruct (is_orphan idx q0) eqn:Ho; simpl.
    + split.
      * intros q. destruct (decide (q = q0)) as [->|Hne].
        -- rewrite lookup_delete_eq, Ho.
           rewrite bool_decide_eq_true_2; [done|]. left.
        -- rewrite lookup_delete_ne by done. rewrite IH1. by rewrite Hb.
      * rewrite map_size_delete_Some by eauto.
        assert (size r.1 ≠ 0); [|lia].
        intros Hz. apply map_size_empty_iff in Hz. by rewrite Hz, lookup_empty in Hr0.
    + split; [|done].
      intros q. rewrite IH1. destruct (decide (q = q0)) as [->|Hne].
      * by rewrite Ho, !andb_false_r.
      * by rewrite Hb.
Qed.

Lemma cleanup_orphaned_chunks_spec (s : DeduplicationStore) :
  let r := cleanup_orphaned_chunks s in
  index r.1 = index s ∧ stats r.1 = stats s
  ∧ (∀ q, disk r.1 !! q = if is_orphan (index s) q then None else disk s !! q)
  ∧ r.2 + size (disk r.1) = size (disk s).
Proof.
  unfold cleanup_orphaned_chunks. rewrite map_fold_foldr.
  change (foldr _ _ _) with (cleanup_list (index s) (disk s) (map_to_list (disk s))).
  pose proof (cleanup_foldr (index s) (disk s) (map_to_list (disk s))
                (NoDup_fst_map_to_list _)) as H.
  destruct H as [H1 H2]; [by intros q f ?%elem_of_map_to_list|].
  destruct (cleanup_list _ _ _) as [d cleaned]. simpl in *.
  split; [done|]. split; [done|]. split; [|done].
  intros q. rewrite H1.
  destruct (is_orphan (index s) q); [|by rewrite andb_false_r].
  rewrite andb_true_r. case_bool_decide as Hq; [done|].
  apply not_elem_of_dom. intros Hd. apply Hq.
  apply elem_of_dom in Hd as [f Hf].
  apply list_elem_of_fmap. exists (q, f). split; [done|]. by apply elem_of_map_to_list.
Qed.

Lemma cleanup_nothing (s : DeduplicationStore) :
  (∀ q, is_Some (disk s !! q) → is_orphan (index s) q = false) →
  cleanup_orphaned_chunks s = (s, 0).
Proof.
  intros Hno.
  destruct (cleanup_orphaned_chunks_spec s) as (Hi & Hs & Hd & Hn).
  destruct (cleanup_orphaned_chunks s) as [s' n]. simpl in *.
  assert (Hdisk : disk s' = disk s).
  { apply map_eq. intros q. rewrite Hd.
    destruct (is_orphan (index s) q) eqn:Ho; [|done].
    destruct (disk s !! q) eqn:Hq; [|done].
    rewrite Hno in Ho by eauto. done. }
  rewrite Hdisk in Hn. f_equal; [|lia].
  destruct s, s'. simpl in *. congruence.
Qed.

(** X16. What the maintenance pass removes.  [cleanup_orphaned_chunks]
    deletes exactly the files two levels below [chunks] whose name is
    not an indexed hash with a positive reference count, returns their
    number, leaves the index and the statistics as they were, and finds
    nothing to delete when run again. *)
Theorem cleanup_removes_exactly_the_orphans (s : DeduplicationStore) :
  let r := cleanup_orphaned_chunks s in
  index r.1 = index s ∧ stats r.1 = stats s
  ∧ (∀ q, disk r.1 !! q = if is_orphan (index s) q then None else disk s !! q)
  ∧ r.2 + size (disk r.1) = size (disk s)
  ∧ cleanup_orphaned_chunks r.1 = (r.1, 0).
Proof.
  intros r. destruct (cleanup_orphaned_chunks_spec s) as (Hi & Hs & Hd & Hn).
  fold r in Hi, Hs, Hd, Hn.
  split; [done|]. split; [done|]. split; [done|]. split; [done|].
  apply cleanup_nothing. intros q [f Hq]. rewrite Hi.
  rewrite Hd in Hq. by destruct (is_orphan (index s) q).
Qed.

(** X17. A store kept by its own operations has no orphans.  After any
    sequence of [store_file] and [remove_reference] calls on a fresh
    store, [cleanup_orphaned_chunks] deletes nothing and returns 0. *)
Theorem cleanup_finds_no_orphans_after_store_operations (sha256 : string → string)
    (ops : list op) :
  let s := run sha256 ops _init_store in
  cleanup_orphaned_chunks s = (s, 0).
Proof.
  intros s. apply cleanup_nothing. intros q Hq.
  destruct (store_inv_reachable sha256 ops) as [Hinv Hdom]. fold s in Hinv, Hdom.
  apply elem_of_dom in Hq. rewrite Hdom in Hq.
  apply elem_of_map in Hq as (h & -> & Hh).
  apply elem_of_dom in Hh as [e He].
  specialize (Hinv h). rewrite He in Hinv. destruct Hinv as (_ & _ & Hpos & _).
  unfold is_orphan, _get_chunk_path. rewrite He. simpl.
  destruct (ref_count e); [lia|done].
Qed.


End StoreSpec.


(** ** Integrity checks and safe file operations *)

Module SafetySpec.
Import Tarfile Safety Persist ExtractionSpec.

(** *** Checksum files *)

(** A text without white space. *)
Definition no_whitespace (s : string) : Prop := take_word s = s.

Lemma take_word_app (w rest : string) :
  no_whitespace w → take_word (w +:+ String " "%char rest) = w.
Proof.
  unfold no_whitespace. induction w as [|c w IH]; intros Hw; [done|].
  change (String c w +:+ String " "%char rest)
    with (String c (w +:+ String " "%char rest)).
  simpl in *. destruct (is_whitespace c); [done|].
  injection Hw as Hw. by rewrite IH.
Qed.

Lemma first_word_app (w rest : string) :
  no_whitespace w → w ≠ "" → first_word (w +:+ String " "%char rest) = Some w.
Proof.
  intros Hw Hne. destruct w as [|c w]; [done|].
  pose proof (take_word_app _ rest Hw) as Ht.
  change (String c w +:+ String " "%char rest)
    with (String c (w +:+ String " "%char rest)) in *.
  unfold no_whitespace in Hw. simpl in Hw. cbn [first_word].
  destruct (is_whitespace c) eqn:Hc; [done|]. by rewrite Ht.
Qed.

Section Integrity.

Variable sha256 : string → string.

(** X12. A checksum file detects a changed archive.  Once
    [create_checksum_file] has written the checksum file of an archive
    (the digest being one word, and the checksum file not the archive
    itself), [verify_checksum] accepts the archive as it is, accepts
    another content only when it has the same digest, and rejects a
    missing archive; an archive without a checksum file is always
    accepted. *)
Theorem checksum_file_detects_changes (fs : gmap Path string)
    (archive_path checksum_path : Path) (content : string) :
  fs !! archive_path = Some content →
  with_suffix archive_path ".sha256" = Some checksum_path →
  checksum_path ≠ archive_path →
  no_whitespace (sha256 content) → sha256 content ≠ "" →
  let r := create_checksum_file sha256 fs archive_path in
  r.2 = true
  ∧ verify_checksum sha256 r.1 archive_path = Some true
  ∧ (∀ content',
       verify_checksum sha256 (<[archive_path := content']> r.1) archive_path
       = Some (String.eqb (sha256 content) (sha256 content')))
  ∧ verify_checksum sha256 (delete archive_path r.1) archive_path = Some false
  ∧ verify_checksum sha256 (delete checksum_path r.1) archive_path = Some true.
Proof.
  intros Hfs Hws Hne Hword Hnonempty r.
  assert (Hr : r = (<[checksum_path :=
                        sha256 content +:+ "  " +:+ Fs.name archive_path
                        +:+ String (ascii_of_nat 10) EmptyString]> fs, true)).
  { unfold r, create_checksum_file, calculate_checksum. by rewrite Hfs, Hws. }
  rewrite Hr. simpl.
  assert (Hfw : first_word (sha256 content +:+ "  " +:+ Fs.name archive_path
                            +:+ String (ascii_of_nat 10) EmptyString)
                = Some (sha256 content)).
  { by apply (first_word_app (sha256 content)). }
  split; [done|].
  unfold verify_checksum, calculate_checksum. rewrite Hws.
  split; [|split; [|split]].
  - rewrite lookup_insert_eq, Hfw, lookup_insert_ne, Hfs by done. simpl.
    by rewrite String.eqb_refl.
  - intros content'.
    rewrite lookup_insert_ne, lookup_insert_eq, Hfw, lookup_insert_eq by done.
    done.
  - rewrite lookup_delete_ne, lookup_insert_eq, Hfw, lookup_delete_eq by done.
    done.
  - by rewrite lookup_delete_eq.
Qed.

End Integrity.

Lemma checksum_file_detects_changes_witness :
  verify_checksum Examples.toy_digest
    (<[ ["b"; "backup.tar.gz"] := "tampered" ]>
       (create_checksum_file Examples.toy_digest
          {[ ["b"; "backup.tar.gz"] := "archive" ]} ["b"; "backup.tar.gz"]).1)
    ["b"; "backup.tar.gz"]
  = Some false.
Proof.
  destruct (checksum_file_detects_changes Examples.toy_digest
              {[ ["b"; "backup.tar.gz"] := "archive" ]}
              ["b"; "backup.tar.gz"] ["b"; "backup.tar.sha256"] "archive")
    as (_ & _ & H & _);
    [reflexivity|reflexivity|discriminate|reflexivity|discriminate|].
  exact (H "tampered").
Defined.

(** *** Atomic writes *)

(** X13. [atomic_write] replaces a file in one step.  While
    [atomic_write] runs, the file holds either what it held before or
    the whole new content; afterwards it holds the new content, the
    temporary file is gone and every other file is as it was. *)
Theorem atomic_write_replaces_in_one_step (filepath temp_path : Path)
    (content : string) (d : Disk) :
  temp_path ≠ filepath →
  let d' := fold_left run_step (atomic_write filepath temp_path content) d in
  atomic filepath d (atomic_write filepath temp_path content) content
  ∧ d' !! filepath = Some content
  ∧ d' !! temp_path = None
  ∧ ∀ q, q ≠ filepath → q ≠ temp_path → d' !! q = d !! q.
Proof.
  intros Hne d'. unfold d', atomic_write, atomic. simpl.
  rewrite !lookup_insert_eq. simpl.
  change ("" +:+ content) with content.
  split; [|split; [|split]].
  - intros d0 Hd0.
    repeat (apply elem_of_cons in Hd0 as [->|Hd0]);
      [| | |by apply elem_of_nil in Hd0].
    + left. by rewrite lookup_insert_ne.
    + left. by rewrite lookup_insert_ne, lookup_insert_ne.
    + right. apply lookup_insert_eq.
  - done.
  - rewrite lookup_insert_ne by done. apply lookup_delete_eq.
  - intros q Hq1 Hq2.
    by rewrite lookup_insert_ne, lookup_delete_ne, !lookup_insert_ne.
Qed.

Lemma atomic_write_replaces_in_one_step_witness :
  fold_left run_step (atomic_write ["etc"; "conf"] ["etc"; ".tmp_1"] "new")
    {[ ["etc"; "conf"] := "old" ]} !! ["etc"; "conf"]
  = Some "new".
Proof.
  apply (atomic_write_replaces_in_one_step ["etc"; "conf"] ["etc"; ".tmp_1"] "new").
  discriminate.
Defined.

(** *** Safe extraction *)

Definition safe_member (m : TarInfo) : Prop :=
  startswith (name m) "/" = false ∧ contains ".." (name m) = false
  ∧ (issym m || islnk m = true →
     startswith (linkname m) "/" = false ∧ contains ".." (linkname m) = false).

Definition total_size (ms : list TarInfo) : nat := foldr (λ m acc, size m + acc) 0 ms.

Lemma check_members_None (max_size : nat) (ms : list TarInfo) : ∀ total,
  total ≤ max_size →
  check_members max_size total ms = None →
  Forall safe_member ms ∧ total + total_size ms ≤ max_size.
Proof.
  induction ms as [|m ms IH]; intros total Ht H; simpl in *.
  - split; [by apply Forall_nil|simpl; lia].
  - destruct (startswith (name m) "/") eqn:H1; [done|].
    destruct (contains ".." (name m)) eqn:H2; [done|]. simpl in H.
    destruct ((issym m || islnk m)
              && (startswith (linkname m) "/" || contains ".." (linkname m))) eqn:H3;
      [done|].
    destruct (Nat.ltb_spec max_size (total + size m)) as [H4|H4]; [done|].
    apply IH in H as [Hall Hsz]; [|done]. split; [|lia].
    apply Forall_cons. split; [|done]. split; [done|]. split; [done|].
    intros Hl. rewrite Hl in H3. simpl in H3. by apply orb_false_iff in H3.
Qed.

(** X11. What [safe_extract] accepts.  When [safe_extract] reports
    success, the archive could be opened, no member name and no link
    target starts with a slash or contains two dots, the members
    together are no larger than the limit, all members were extracted,
    and no file outside the destination has changed. *)
Theorem safe_extract_accepts_checked_archives_only (archive : option TarFile)
    (extract_to : Path) (max_size_mb : nat) (fs : gmap Path File) :
  let r := safe_extract archive extract_to max_size_mb fs in
  r.2.1 = true →
  ∃ ms, open_r_gz archive = Some ms
        ∧ Forall safe_member ms
        ∧ total_size ms ≤ max_size_mb * 1024 * 1024
        ∧ extractall data_filter extract_to ms fs = inr r.1
        ∧ ∀ q, is_under extract_to q = false → r.1 !! q = fs !! q.
Proof.
  intros r Hok.
  assert (Hin : ∀ q, is_under extract_to q = false → r.1 !! q = fs !! q)
    by (intros q; apply safe_extract_inside).
  unfold r in *. unfold safe_extract in *.
  destruct (open_r_gz archive) as [ms|]; [|done].
  destruct (check_members _ 0 ms) eqn:Hchk; [done|].
  apply check_members_None in Hchk as [Hall Hsz]; [|lia].
  destruct (extractall data_filter extract_to ms fs) as [fs'|fs'] eqn:Hex; [done|].
  exists ms. simpl in *. done.
Qed.

Lemma safe_extract_accepts_checked_archives_only_witness :
  ∃ ms, open_r_gz (Some (mkTarFile true [tar_add (mkFile "hello" 33188 0) "a.txt"]))
        = Some ms
        ∧ total_size ms ≤ 1 * 1024 * 1024.
Proof.
  destruct (safe_extract_accepts_checked_archives_only
              (Some (mkTarFile true [tar_add (mkFile "hello" 33188 0) "a.txt"]))
              ["tmp"; "x"] 1 ∅) as (ms & H1 & _ & H3 & _).
  - vm_compute. reflexivity.
  - exists ms. by split.
Defined.

End SafetySpec.


(** ** The daemon's command handlers *)

Module HandlerSpec.
Import Daemon.

Section Handlers.

Variable resolve : string → option Path.
Variable home cwd : Path.
Variable popen : list string → string → Z + string.
Variable executable : string.
Variable now_iso : string.
Variable pid_exists : Z → bool.
Variable getpid : Z.
Variable py_str : Json → string.

Local Abbreviation add_project := (_add_project resolve home cwd popen executable now_iso py_str).
Local Abbreviation list_projects := (_list_projects pid_exists).
Local Abbreviation handle :=
  (handle_client resolve home cwd popen executable now_iso pid_exists getpid py_str).
Local Abbreviation process :=
  (process_command resolve home cwd popen executable now_iso pid_exists getpid py_str).

(** A path the daemon accepts for watching: it resolves to a place
    under the home or the current directory whose text starts with none
    of the forbidden prefixes. *)
Definition acceptable (p : string) : Prop :=
  ∃ project_path, resolve p = Some project_path
    ∧ (∀ forbidden_path, forbidden_path ∈ forbidden →
         startswith (abs_str project_path) forbidden_path = false)
    ∧ (home `prefix_of` project_path ∨ cwd `prefix_of` project_path).

Lemma relative_to_prefix (p base : Path) :
  is_Some (relative_to p base) ↔ base `prefix_of` p.
Proof.
  split.
  - intros [rel ->%PathFacts.relative_to_Some]. by exists rel.
  - intros [rel ->]. rewrite PathFacts.relative_to_app. eauto.
Qed.

Lemma _validate_project_path_spec (path : Json) :
  _validate_project_path resolve home cwd path = true ↔
  ∃ p, path = JStr p ∧ acceptable p.
Proof.
  unfold _validate_project_path, acceptable. split.
  - destruct path as [| | |p| |]; try done.
    destruct (resolve p) as [pp|] eqn:Hres; [|done].
    destruct (existsb _ forbidden) eqn:Hforb; [discriminate|].
    intros H. exists p. split; [done|]. exists pp. split; [done|]. split.
    + intros fp Hfp. destruct (startswith (abs_str pp) fp) eqn:Hs; [|done].
      assert (existsb (λ forbidden_path, startswith (abs_str pp) forbidden_path)
                forbidden = true); [|congruence].
      apply existsb_exists. exists fp. split; [by apply list_elem_of_In|done].
    + case_bool_decide as Hh; [left; by apply relative_to_prefix|].
      apply bool_decide_eq_true in H. right. by apply relative_to_prefix.
  - intros (p & -> & pp & -> & Hforb & Hunder).
    destruct (existsb _ forbidden) eqn:He.
    + apply existsb_exists in He as (fp & Hfp%list_elem_of_In & Hs).
      by rewrite Hforb in Hs.
    + case_bool_decide as Hh; [done|]. apply bool_decide_eq_true.
      destruct Hunder as [?|?]; [|by apply relative_to_prefix].
      exfalso. by apply Hh, relative_to_prefix.
Qed.

(** When [_add_project] changes the state. *)
Lemma _add_project_changes (path options : Json) (st st' : DaemonState) (r : Outcome) :
  add_project path options st = (st', r) → st' ≠ st →
  ∃ p child,
    path = JStr p ∧ acceptable p
    ∧ size (projects st) < max_projects ∧ (p ∉ dom (projects st))
    ∧ st' = _log ("Added project: " +:+ p +:+ " (PID: " +:+ py_str (JNum child) +:+ ")")
              {| projects :=
                   <[p := {| pid := child; started := now_iso;
                             options := options |}]> (projects st);
                 processes := {[p]} ∪ processes st;
                 log := log st; terminated := terminated st;
                 running := running st; pid_file := pid_file st |}
    ∧ r = Returns (JObj {[ "status" := JStr "added"; "pid" := JNum child ]}).
Proof.
  unfold _add_project. intros H Hne.
  destruct (_validate_project_path resolve home cwd path) eqn:Hv; cbn [negb] in H;
    [|congruence].
  apply _validate_project_path_spec in Hv as (p & -> & Hacc).
  destruct (max_projects <=? size (projects st)) eqn:Hsz; [congruence|].
  apply Nat.leb_gt in Hsz.
  case_bool_decide as Hin; [congruence|].
  destruct options as [| | | | |o]; try congruence.
  destruct (interval_arg py_str o) as [interval|]; [|congruence].
  destruct (popen _ p) as [child|e]; [|congruence].
  injection H as <- <-. exists p, child. done.
Qed.

Lemma _add_project_size (path options : Json) (st : DaemonState) :
  size (projects st) ≤ max_projects →
  size (projects (add_project path options st).1) ≤ max_projects.
Proof.
  intros Hle. unfold _add_project.
  destruct (negb _); [done|].
  destruct (max_projects <=? size (projects st)) eqn:Hsz; [done|].
  apply Nat.leb_gt in Hsz.
  destruct path as [| | |p| |]; try done.
  case_bool_decide as Hin; [done|].
  destruct options as [| | | | |o]; try done.
  destruct (interval_arg py_str o) as [interval|]; [|done].
  destruct (popen _ p) as [child|e]; [|done].
  simpl. rewrite map_size_insert_None by (by apply not_elem_of_dom). lia.
Qed.

(** X23. Registering and unregistering a project.  [_add_project]
    changes the daemon's state only when the path is acceptable, fewer
    than twenty projects are registered and the path is not among them;
    it then registers the path with the pid of the watcher it started
    and replies with that pid.  [_remove_project] on that path
    afterwards restores the registered projects, sends the watcher
    [SIGTERM] and replies that the project was removed; on a path that
    is not registered it changes nothing. *)
Theorem add_project_registers_acceptable_paths (path options : Json)
    (st st' : DaemonState) (r : Outcome) :
  add_project path options st = (st', r) → st' ≠ st →
  ∃ p child,
    path = JStr p ∧ acceptable p
    ∧ size (projects st) < max_projects ∧ (p ∉ dom (projects st))
    ∧ projects st'
      = <[p := {| pid := child; started := now_iso; options := options |}]> (projects st)
    ∧ r = Returns (JObj {[ "status" := JStr "added"; "pid" := JNum child ]})
    ∧ (let rm := _remove_project (JStr p) st' in
       projects rm.1 = projects st
       ∧ terminated rm.1 = terminated st ++ [child]
       ∧ rm.2 = Returns (JObj {[ "status" := JStr "removed" ]})
       ∧ _remove_project (JStr p) rm.1
         = (rm.1, Returns (error "Project not being watched"))).
Proof.
  intros H Hne.
  destruct (_add_project_changes path options st st' r H Hne)
    as (p & child & -> & Hacc & Hsz & Hin & -> & ->).
  exists p, child.
  split; [done|]. split; [done|]. split; [done|]. split; [done|].
  split; [done|]. split; [done|].
  unfold _remove_project. simpl. rewrite lookup_insert_eq. simpl.
  rewrite delete_insert_eq, lookup_delete_eq.
  split; [|done]. apply delete_id. by apply not_elem_of_dom.
Qed.

(** X24. The daemon never watches more than twenty projects, and lists
    live watchers only.  Whatever a client sends, a daemon with at most
    twenty registered projects has at most twenty afterwards; and after
    [_list_projects] the registered projects are those registered
    before whose watcher process still exists. *)
Theorem daemon_bounds_and_prunes_projects (auth_token : string) (received : Received)
    (st : DaemonState) :
  (size (projects st) ≤ max_projects →
   size (projects (handle auth_token received st).1) ≤ max_projects)
  ∧ (∀ p info,
       projects (list_projects st).1 !! p = Some info ↔
       projects st !! p = Some info ∧ pid_exists (pid info) = true).
Proof.
  split.
  - intros Hsz.
    assert (Hadd : ∀ path options,
              size (projects (add_project path options st).1) ≤ max_projects).
    { intros path options. by apply _add_project_size. }
    assert (Hrm : ∀ path,
              size (projects (_remove_project path st).1) ≤ max_projects).
    { intros path. unfold _remove_project.
      destruct path as [| | |p| |]; try done.
      destruct (projects st !! p) eqn:Hp; [|done]. simpl.
      rewrite map_size_delete_Some by eauto. lia. }
    assert (Hls : size (projects (list_projects st).1) ≤ max_projects).
    { simpl. etrans; [apply map_size_filter|done]. }
    assert (Hproc : ∀ command, size (projects (process command st).1) ≤ max_projects).
    { intros command. unfold process_command, _process_command.
      repeat case_match; simplify_eq; simpl; try done;
        try apply Hadd; try apply Hrm; try apply Hls.
      all: match goal with
           | H : stop _ = _ |- _ => unfold stop in H; simplify_eq; done
           end. }
    unfold handle_client, _handle_client.
    destruct received as [| | |[| | | | |command]]; simpl; try done.
    destruct (negb _); [done|].
    specialize (Hproc command). unfold process_command in Hproc.
    destruct (_process_command _ _ _ _ _ _ _ _ _) as [st' [resp| |]]; simpl in *; done.
  - intros p info. simpl. apply map_lookup_filter_Some.
Qed.

End Handlers.

(** A daemon with nothing registered, and an environment in which
    [/home/u/proj] resolves to itself and every watcher gets pid 4242. *)
Definition demo_state : DaemonState :=
  {| projects := ∅; processes := ∅; log := []; terminated := [];
     running := true; pid_file := true |}.

Definition demo_add (path : string) : DaemonState * Outcome :=
  _add_project (λ _, Some ["home"; "u"; "proj"]) ["home"; "u"] ["srv"]
    (λ _ _, inl 4242%Z) "python3" "2025-09-21T14:30:05" (λ _, "20")
    (JStr path) (JObj ∅) demo_state.

Lemma add_project_registers_acceptable_paths_witness :
  ∃ child, pid <$> projects (demo_add "/home/u/proj").1 !! "/home/u/proj" = Some child.
Proof.
  destruct (demo_add "/home/u/proj") as [st' r] eqn:Ha.
  destruct (add_project_registers_acceptable_paths
              (λ _, Some ["home"; "u"; "proj"]) ["home"; "u"] ["srv"]
              (λ _ _, inl 4242%Z) "python3" "2025-09-21T14:30:05" (λ _, "20")
              (JStr "/home/u/proj") (JObj ∅) demo_state st' r Ha)
    as (p & child & Hp & _ & _ & _ & Hst & _).
  - intros ->.
    apply (f_equal (λ x, pid <$> projects x.1 !! "/home/u/proj")) in Ha.
    vm_compute in Ha. discriminate Ha.
  - injection Hp as <-. exists child. simpl. by rewrite Hst, lookup_insert_eq.
Defined.

Lemma daemon_bounds_and_prunes_projects_witness :
  size (projects
          (handle_client (λ _, Some ["home"; "u"; "proj"]) ["home"; "u"] ["srv"]
             (λ _ _, inl 4242%Z) "python3" "2025-09-21T14:30:05" (λ _, true) 1%Z
             (λ _, "20") "secret"
             (Loaded (JObj {[ "auth" := JStr "secret"; "type" := JStr "add_project";
                              "path" := JStr "/home/u/proj" ]}))
             demo_state).1) ≤ max_projects.
Proof.
  apply (daemon_bounds_and_prunes_projects (λ _, Some ["home"; "u"; "proj"])
           ["home"; "u"] ["srv"] (λ _ _, inl 4242%Z) "python3" "2025-09-21T14:30:05"
           (λ _, true) 1%Z (λ _, "20") "secret").
  vm_compute. lia.
Defined.

End HandlerSpec.


(** ** Incremental backups *)

Module IncrementalChangeSpec.
Import Incremental RestoreLoopSpec.

Section Differ.

Variable sha256 : string → string.

(** A file of the set that the differ can read, with its path relative
    to the project directory. *)
Definition seen (dir : Path) (fs : FsView) (p rel : Path) (f : File) : Prop :=
  relative_to p dir = Some rel ∧ fs p = Some f.

Definition classified (self : IncrementalBackup) (dir : Path) (fs : FsView)
    (pre : list Path) (d : Diff) : Prop :=
  (∀ p, p ∈ added d ↔
        p ∈ pre ∧ ∃ rel f, seen dir fs p rel f ∧ file_states self !! str rel = None)
  ∧ (∀ p, p ∈ modified d ↔
          p ∈ pre ∧ ∃ rel f old, seen dir fs p rel f
                                 ∧ file_states self !! str rel = Some old
                                 ∧ hash old ≠ sha256 (data f))
  ∧ (∀ k, k ∈ dom (current_files d) ↔
          ∃ p rel f, p ∈ pre ∧ seen dir fs p rel f ∧ str rel = k).

Lemma diff_step_classified (self : IncrementalBackup) (dir : Path) (fs : FsView)
    (pre : list Path) (d : Diff) (x : Path) :
  project_dir self = Some dir →
  classified self dir fs pre d →
  classified self dir fs (pre ++ [x]) (diff_step sha256 self fs d x).
Proof.
  intros Hdir (Ha & Hm & Hc). unfold diff_step, classified. rewrite Hdir.
  setoid_rewrite elem_of_app. setoid_rewrite list_elem_of_singleton.
  unfold _get_file_info.
  (* the three parts when [x] leaves a set as it was *)
  assert (Hadd : (∀ rel f, seen dir fs x rel f → file_states self !! str rel ≠ None) →
            ∀ p, p ∈ added d ↔
                 (p ∈ pre ∨ p = x)
                 ∧ ∃ rel f, seen dir fs p rel f ∧ file_states self !! str rel = None).
  { intros Hx p. rewrite Ha. split.
    - intros [? ?]. split; [by left|done].
    - intros [[?| ->] HQ]; [done|]. exfalso.
      destruct HQ as (rel' & f' & Hs & Hn). by apply (Hx rel' f'). }
  assert (Hmod : (∀ rel f old, seen dir fs x rel f →
                    file_states self !! str rel = Some old →
                    hash old = sha256 (data f)) →
            ∀ p, p ∈ modified d ↔
                 (p ∈ pre ∨ p = x)
                 ∧ ∃ rel f old, seen dir fs p rel f
                                ∧ file_states self !! str rel = Some old
                                ∧ hash old ≠ sha256 (data f)).
  { intros Hx p. rewrite Hm. split.
    - intros [? ?]. split; [by left|done].
    - intros [[?| ->] HQ]; [done|]. exfalso.
      destruct HQ as (rel' & f' & old' & Hs & Ho & Hh). by apply Hh, (Hx rel' f'). }
  assert (Hcur : (∀ rel f, ¬ seen dir fs x rel f) →
            ∀ k, k ∈ dom (current_files d) ↔
                 ∃ p rel f, (p ∈ pre ∨ p = x) ∧ seen dir fs p rel f ∧ str rel = k).
  { intros Hx k. rewrite Hc. split.
    - intros (p & rel' & f' & ? & ? & ?). exists p, rel', f'. split; [by left|done].
    - intros (p & rel' & f' & [?| ->] & Hs & ?); [by exists p, rel', f'|].
      by destruct (Hx rel' f'). }
  destruct (relative_to x dir) as [rel|] eqn:Hrel.
  2:{ split; [|split].
      - apply Hadd. intros rel f [? ?]. congruence.
      - apply Hmod. intros rel f old [? ?]. congruence.
      - apply Hcur. intros rel f [? ?]. congruence. }
  destruct (fs x) as [f|] eqn:Hf; simpl.
  2:{ split; [|split].
      - apply Hadd. intros rel' f [? ?]. congruence.
      - apply Hmod. intros rel' f old [? ?]. congruence.
      - apply Hcur. intros rel' f [? ?]. congruence. }
  assert (Hcur' : ∀ k, k ∈ dom (<[str rel := {| hash := sha256 (data f);
                                                  mtime := st_mtime f;
                                                  fsize := st_size f |}]>
                                  (current_files d)) ↔
                      ∃ p rel f, (p ∈ pre ∨ p = x) ∧ seen dir fs p rel f ∧ str rel = k).
  { intros k. rewrite dom_insert_L, elem_of_union, elem_of_singleton, Hc. split.
    - intros [->|(p & rel' & f' & ? & ? & ?)].
      + exists x, rel, f. split; [by right|done].
      + exists p, rel', f'. split; [by left|done].
    - intros (p & rel' & f' & [?| ->] & [Hr Hf'] & <-).
      + right. by exists p, rel', f'.
      + left. congruence. }
  destruct (file_states self !! str rel) as [old|] eqn:Hold.
  - case_bool_decide as Hh; simpl; (split; [|split]); try exact Hcur'.
    + apply Hadd. intros rel' f' [? ?]. congruence.
    + intros p. rewrite elem_of_union, elem_of_singleton, Hm. split.
      * intros [->|[? ?]]; [|split; [by left|done]].
        split; [by right|]. by exists rel, f, old.
      * intros [[?| ->] HQ]; [by right|by left].
    + apply Hadd. intros rel' f' [? ?]. congruence.
    + apply Hmod. intros rel' f' old' [? ?] ?. by simplify_eq.
  - simpl. split; [|split]; try exact Hcur'.
    + intros p. rewrite elem_of_union, elem_of_singleton, Ha. split.
      * intros [->|[? ?]]; [|split; [by left|done]].
        split; [by right|]. by exists rel, f.
      * intros [[?| ->] HQ]; [by right|by left].
    + apply Hmod. intros rel' f' old' [? ?] ?. congruence.
Qed.

Lemma find_changed_files_classified (self : IncrementalBackup) (dir : Path)
    (fs : FsView) (files : gset Path) :
  project_dir self = Some dir →
  classified self dir fs (elements files)
    (fold_left (diff_step sha256 self fs) (elements files) (mkDiff ∅ ∅ ∅)).
Proof.
  intros Hdir.
  apply (fold_left_ind (classified self dir fs)).
  - unfold classified. simpl. rewrite dom_empty_L.
    split; [|split]; intros x; (split; [by intros ?%elem_of_empty|]).
    + by intros [?%elem_of_nil _].
    + by intros [?%elem_of_nil _].
    + by intros (? & ? & ? & ?%elem_of_nil & _).
  - intros pre x d Hd. by apply diff_step_classified.
Qed.

(** X20. What the differ reports.  For an object whose project
    directory is set, [find_changed_files] reports as added exactly the
    readable files of the set whose relative path has no recorded
    state, as modified exactly those whose recorded hash differs from
    the hash of their content, and as deleted exactly the recorded
    paths that no readable file of the set has; the states it records
    afterwards are those of the readable files of the set. *)
Theorem changed_files_are_classified (self : IncrementalBackup) (dir : Path)
    (fs : FsView) (files : gset Path) :
  project_dir self = Some dir →
  let r := find_changed_files sha256 self fs files in
  let present k := ∃ p rel f, p ∈ files ∧ seen dir fs p rel f ∧ str rel = k in
  (∀ p, p ∈ r.2.1.1 ↔
        p ∈ files ∧ ∃ rel f, seen dir fs p rel f ∧ file_states self !! str rel = None)
  ∧ (∀ p, p ∈ r.2.1.2 ↔
          p ∈ files ∧ ∃ rel f old, seen dir fs p rel f
                                   ∧ file_states self !! str rel = Some old
                                   ∧ hash old ≠ sha256 (data f))
  ∧ (∀ k, k ∈ r.2.2 ↔ k ∈ dom (file_states self) ∧ ¬ present k)
  ∧ (∀ k, k ∈ dom (file_states r.1) ↔ present k).
Proof.
  intros Hdir r present.
  destruct (find_changed_files_classified self dir fs files Hdir) as (Ha & Hm & Hc).
  unfold r, find_changed_files. simpl.
  setoid_rewrite elem_of_elements in Ha.
  setoid_rewrite elem_of_elements in Hm.
  setoid_rewrite elem_of_elements in Hc.
  split; [exact Ha|]. split; [exact Hm|]. split; [|exact Hc].
  intros k. rewrite elem_of_difference, Hc. done.
Qed.

(** *** Incremental archives *)

Variable manifest_file : Datetime.datetime → option Path → list string → File.

(** The last two components of a path. *)
Definition last_two (p : Path) : Path := drop (length p - 2) p.

Lemma removelast_take {A} (l : list A) : removelast l = take (length l - 1) l.
Proof.
  induction l as [|x l IH]; [done|].
  destruct l as [|y l]; [done|].
  change (removelast (x :: y :: l)) with (x :: removelast (y :: l)).
  rewrite IH. simpl. by rewrite Nat.sub_0_r.
Qed.

Lemma relative_to_grandparent (p : Path) :
  relative_to p (parent (parent p)) = Some (last_two p).
Proof.
  unfold parent, last_two.
  assert (Hgp : removelast (removelast p) = take (length p - 2) p).
  { rewrite !removelast_take, length_take, take_take. f_equal. lia. }
  rewrite Hgp.
  rewrite <- (take_drop (length p - 2) p) at 1.
  apply PathFacts.relative_to_app.
Qed.

Lemma changed_members_Some (fs : FsView) (changed : list Path) :
  (∀ p, p ∈ changed → is_Some (fs p)) →
  ∃ ms, changed_members fs changed = Some ms
        ∧ ∀ m, m ∈ ms ↔ ∃ p f, p ∈ changed ∧ fs p = Some f
                               ∧ m = Tarfile.tar_add f (str (last_two p)).
Proof.
  induction changed as [|x changed IH]; intros Hall.
  - exists []. split; [done|]. intros m. split; [by intros ?%elem_of_nil|].
    by intros (? & ? & ?%elem_of_nil & _).
  - destruct IH as (ms & Hms & Hiff); [intros p Hp; apply Hall; by right|].
    destruct (Hall x) as [f Hf]; [left|].
    exists (Tarfile.tar_add f (str (last_two x)) :: ms). split.
    + unfold changed_members in *. cbn [foldr].
      by rewrite Hf, relative_to_grandparent, Hms.
    + intros m. rewrite elem_of_cons, Hiff. split.
      * intros [->|(p & g & Hp & Hg & ->)].
        -- exists x, f. split; [left|done].
        -- exists p, g. split; [by right|done].
      * intros (p & g & [->|Hp]%elem_of_cons & Hg & ->).
        -- left. congruence.
        -- right. eauto.
Qed.

Lemma changed_files_readable (self : IncrementalBackup) (fs : FsView)
    (files : gset Path) (p : Path) :
  let r := find_changed_files sha256 self fs files in
  p ∈ r.2.1.1 ∪ r.2.1.2 → is_Some (fs p).
Proof.
  intros r. unfold r, find_changed_files. simpl.
  destruct (project_dir self) as [dir|] eqn:Hdir.
  - destruct (find_changed_files_classified self dir fs files Hdir) as (Ha & Hm & _).
    rewrite elem_of_union. intros [Hp|Hp].
    + apply Ha in Hp as (_ & rel & f & [_ Hf] & _). eauto.
    + apply Hm in Hp as (_ & rel & f & old & [_ Hf] & _). eauto.
  - rewrite (IncrementalSpec.diff_step_no_project_dir sha256) by done. simpl.
    set_solver.
Qed.

(** X21. What an incremental archive holds.  [create_incremental_backup]
    always writes a gzip-compressed archive, named after the time of
    the call, that holds the manifest as [MANIFEST.json] and one member
    for every file reported added or modified, with the file's bytes;
    each of these members is named by the last two components of the
    file's path (its directory's name and its own name), whatever lies
    above them. *)
Theorem incremental_archive_members_keep_two_components (self : IncrementalBackup)
    (fs : FsView) (files : gset Path) (base_backup : option Path)
    (timestamp : Datetime.datetime) :
  let r := create_incremental_backup sha256 manifest_file self fs files base_backup
             timestamp in
  let c := find_changed_files sha256 self fs files in
  r.1 = c.1
  ∧ ∃ t, r.2 = Some (backup_dir self
                     ++ ["incremental_" +:+ Datetime.human_time timestamp +:+ ".tar.gz"],
                     t)
         ∧ Tarfile.gz t = true
         ∧ ∀ m, m ∈ Tarfile.members t ↔
                m = Tarfile.tar_add (manifest_file timestamp base_backup (elements c.2.2))
                      "MANIFEST.json"
                ∨ ∃ p f, p ∈ c.2.1.1 ∪ c.2.1.2 ∧ fs p = Some f
                         ∧ m = Tarfile.tar_add f (str (last_two p)).
Proof.
  intros r c. unfold r, c, create_incremental_backup.
  pose proof (changed_files_readable self fs files) as Hr. cbv zeta in Hr.
  destruct (find_changed_files sha256 self fs files)
    as [self' [[added modified] deleted]]. simpl in *.
  destruct (changed_members_Some fs (elements (added ∪ modified))) as (ms & Hms & Hiff).
  { intros p Hp%elem_of_elements. by apply Hr. }
  split; [done|]. rewrite Hms. simpl. eexists. split; [reflexivity|].
  split; [done|]. intros m. simpl. rewrite elem_of_cons, Hiff.
  by setoid_rewrite elem_of_elements.
Qed.

(** X22. The incremental archive of a fresh object.  An object as
    [__init__] builds it has no project directory, so the archive that
    [create_incremental_backup] writes with it holds the manifest and
    nothing else, the manifest lists every recorded path as deleted,
    and the recorded states are emptied. *)
Theorem incremental_archive_of_fresh_object_is_empty (backup_dir : Path)
    (state_file : option (gmap string FileInfo)) (fs : FsView) (files : gset Path)
    (base_backup : option Path) (timestamp : Datetime.datetime) :
  let r := create_incremental_backup sha256 manifest_file (init backup_dir state_file)
             fs files base_backup timestamp in
  file_states r.1 = ∅
  ∧ ∃ path,
      r.2 = Some (path,
                  Tarfile.mkTarFile true
                    [Tarfile.tar_add
                       (manifest_file timestamp base_backup
                          (elements (dom (default ∅ state_file))))
                       "MANIFEST.json"]).
Proof.
  intros r. unfold r, create_incremental_backup.
  rewrite (IncrementalSpec.find_changed_files_after_init sha256). simpl.
  rewrite (left_id_L ∅ (∪)), elements_empty. simpl. eauto.
Qed.

End Differ.

Definition demo_self : IncrementalBackup :=
  {| backup_dir := ["proj"; ".savior"]; project_dir := Some ["proj"]; file_states := ∅ |}.

Lemma changed_files_are_classified_witness :
  ["proj"; "a.txt"]
  ∈ (find_changed_files Examples.toy_digest demo_self DedupSpec.demo_fs
       {[ ["proj"; "a.txt"] ]}).2.1.1.
Proof.
  apply (changed_files_are_classified Examples.toy_digest demo_self ["proj"]
           DedupSpec.demo_fs {[ ["proj"; "a.txt"] ]} eq_refl).
  split; [by apply elem_of_singleton|].
  exists ["a.txt"], (mkFile "hello" 33188 0). by split.
Defined.

End IncrementalChangeSpec.


(** ** Backups into the content store *)

Module DedupBackupSpec.
Import Core CoreDedup Dedup Datetime StoreSpec BackupSpec.

(** *** The manifest's file name *)

Lemma append_cons (c : ascii) (a b : string) : String c a +:+ b = String c (a +:+ b).
Proof. reflexivity. Qed.

Lemma length_append (a b : string) :
  String.length (a +:+ b) = String.length a + String.length b.
Proof.
  induction a as [|c a IH]; [done|]. rewrite append_cons. simpl. by rewrite IH.
Qed.

Lemma substring_all (b : string) : substring 0 (String.length b) b = b.
Proof. induction b as [|c b IH]; [done|]. simpl. by rewrite IH. Qed.

Lemma substring_app_l (a b : string) : substring 0 (String.length a) (a +:+ b) = a.
Proof.
  induction a as [|c a IH]; [by destruct b|]. rewrite append_cons. simpl. by rewrite IH.
Qed.

Lemma substring_app_r (a b : string) :
  substring (String.length a) (String.length b) (a +:+ b) = b.
Proof.
  induction a as [|c a IH]; [apply substring_all|]. rewrite append_cons. simpl. apply IH.
Qed.

Lemma rfind_app (c : ascii) (a b : string) :
  rfind c b = None → rfind c (a +:+ String c b) = Some (String.length a).
Proof.
  intros Hb. induction a as [|x a IH].
  - change ("" +:+ String c b) with (String c b). simpl.
    by rewrite Hb, Ascii.eqb_refl.
  - rewrite append_cons. simpl. by rewrite IH.
Qed.

Lemma name_manifest_path (backup_dir : Path) (backup_id : string) :
  name (manifest_path backup_dir backup_id) = backup_id +:+ ".json".
Proof.
  unfold manifest_path, name.
  change [".dedup_manifests"; backup_id +:+ ".json"]
    with ([".dedup_manifests"] ++ [backup_id +:+ ".json"]).
  rewrite app_assoc. apply last_last.
Qed.

(** The backup id is read back from the name of the manifest. *)
Lemma stem_manifest_path (backup_dir : Path) (backup_id : string) :
  backup_id ≠ "" → stem (manifest_path backup_dir backup_id) = backup_id.
Proof.
  intros Hne. unfold stem, suffix. rewrite name_manifest_path.
  change (backup_id +:+ ".json") with (backup_id +:+ String "."%char "json").
  rewrite rfind_app by reflexivity.
  rewrite length_append. simpl String.length.
  assert (0 < String.length backup_id) by (destruct backup_id; [done|simpl; lia]).
  assert (Hc : (0 <? String.length backup_id)
               && (String.length backup_id <? String.length backup_id + 5 - 1) = true).
  { apply andb_true_iff. split; apply Nat.ltb_lt; lia. }
  rewrite Hc.
  assert (Hsuf : substring (String.length backup_id)
                   (String.length backup_id + 5 - String.length backup_id)
                   (backup_id +:+ ".json") = ".json").
  { replace (String.length backup_id + 5 - String.length backup_id)
      with (String.length ".json") by (simpl; lia).
    apply substring_app_r. }
  rewrite Hsuf. simpl String.length.
  replace (String.length backup_id + 5 - 5) with (String.length backup_id) by lia.
  apply substring_app_l.
Qed.

Lemma make_backup_id_nonempty (t : datetime) : make_backup_id t ≠ "".
Proof. unfold make_backup_id, compact_time, pad4. discriminate. Qed.

Lemma contains_app_r (needle a b : string) :
  contains needle b = true → contains needle (a +:+ b) = true.
Proof.
  intros Hb. induction a as [|c a IH]; [by destruct b|].
  rewrite append_cons. simpl. rewrite IH. apply orb_true_r.
Qed.

Section Dedup.

Variable fnmatch : string → string → bool.
Variable sha256 : string → string.

(** *** The loop over the collected files *)

Definition recorded (tr : Node) (ds : DeduplicationStore)
    (dedup_files : gmap Path FileMeta) : Prop :=
  ∀ rel meta, dedup_files !! rel = Some meta →
    ∃ f, tree_file rel tr = Some f
         ∧ hash meta = sha256 (data f) ∧ meta_size meta = st_size f
         ∧ is_Some (index ds !! hash meta).

Lemma store_file_index_mono fs now s p b h :
  is_Some (index s !! h) → is_Some (index (store_file sha256 fs now s p b).1 !! h).
Proof.
  intros Hh. unfold store_file.
  destruct (fs p) as [f|]; [|done].
  destruct (String.eqb (sha256 (data f)) ""); [done|].
  destruct (index s !! sha256 (data f)) eqn:He; simpl;
    (destruct (decide (h = sha256 (data f))) as [->|Hne];
      [rewrite lookup_insert_eq; eauto|by rewrite lookup_insert_ne]).
Qed.

Lemma store_file_Some fs now s p b s' meta :
  store_file sha256 fs now s p b = (s', Some meta) →
  ∃ f, fs p = Some f ∧ hash meta = sha256 (data f) ∧ meta_size meta = st_size f
       ∧ is_Some (index s' !! hash meta).
Proof.
  unfold store_file. intros H.
  destruct (fs p) as [f|]; [|done].
  destruct (String.eqb (sha256 (data f)) ""); [done|].
  injection H as <- <-. exists f. simpl.
  split; [done|]. split; [done|]. split; [done|].
  destruct (index s !! sha256 (data f)); simpl; rewrite lookup_insert_eq; eauto.
Qed.

Lemma dedup_step_recorded sv tr now_iso backup_id ds dedup_files file_path :
  chunks_sound sha256 ds → recorded tr ds dedup_files →
  let r := dedup_step sha256 sv tr now_iso backup_id (ds, dedup_files) file_path in
  chunks_sound sha256 r.1 ∧ recorded tr r.1 r.2.
Proof.
  intros Hs Hr. unfold dedup_step.
  destruct (should_deduplicate (view sv tr) file_path); [|done].
  destruct (relative_to file_path (project_dir sv)) as [rel|] eqn:Hrel; [|done].
  destruct (store_file sha256 (view sv tr) now_iso ds file_path backup_id)
    as [ds' [meta|]] eqn:Hst; simpl.
  - assert (Hs' : chunks_sound sha256 ds').
    { pose proof (chunks_sound_store sha256 (view sv tr) now_iso ds file_path backup_id Hs)
        as H. by rewrite Hst in H. }
    assert (Hmono : ∀ h, is_Some (index ds !! h) → is_Some (index ds' !! h)).
    { intros h Hh.
      pose proof (store_file_index_mono (view sv tr) now_iso ds file_path backup_id h Hh)
        as H. by rewrite Hst in H. }
    split; [done|]. intros r m.
    destruct (decide (r = rel)) as [->|Hne].
    + rewrite lookup_insert_eq. intros [= <-].
      apply store_file_Some in Hst as (f & Hf & Hh & Hsz & Hi).
      unfold view in Hf. rewrite Hrel in Hf. simpl in Hf. eauto.
    + rewrite lookup_insert_ne by done. intros Hm.
      destruct (Hr _ _ Hm) as (f & ? & ? & ? & ?). eauto 10.
  - assert (Hs' : chunks_sound sha256 ds').
    { pose proof (chunks_sound_store sha256 (view sv tr) now_iso ds file_path backup_id Hs)
        as H. by rewrite Hst in H. }
    assert (Hmono : ∀ h, is_Some (index ds !! h) → is_Some (index ds' !! h)).
    { intros h Hh.
      pose proof (store_file_index_mono (view sv tr) now_iso ds file_path backup_id h Hh)
        as H. by rewrite Hst in H. }
    split; [done|]. intros r m Hm.
    destruct (Hr _ _ Hm) as (f & ? & ? & ? & ?). eauto 10.
Qed.

Lemma dedup_loop_recorded sv tr now_iso backup_id file_list ds :
  chunks_sound sha256 ds →
  let r := dedup_loop sha256 sv tr now_iso backup_id file_list ds in
  chunks_sound sha256 r.1 ∧ recorded tr r.1 r.2.
Proof.
  intros Hs. unfold dedup_loop.
  apply (RestoreSpec.fold_left_inv
           (λ acc : DeduplicationStore * gmap Path FileMeta,
              chunks_sound sha256 acc.1 ∧ recorded tr acc.1 acc.2)).
  - split; [done|]. intros rel meta; simpl. by rewrite lookup_empty.
  - intros [ds0 files0] x _ [H1 H2]. by apply dedup_step_recorded.
Qed.

(** X18. A manifest can be restored from.  When [create_backup_dedup]
    returns a backup (on a store in which every indexed chunk is on
    disk with bytes that hash to its key), the backup's description is
    marked [[DEDUP]], the manifest is stored where
    [restore_backup_dedup] looks for it, namely under the id read back
    from the backup's path, and for every file the manifest lists the
    working tree holds that file with the recorded hash and size and
    the store holds an indexed chunk whose bytes have that hash. *)
Theorem dedup_manifest_can_be_restored_from (sv : Savior) (clock : Clock)
    (usage : option DiskUsage) (now_iso description : string)
    (dp dp' : DedupProject) (b : Backup) :
  create_backup_dedup fnmatch sha256 sv clock usage now_iso description dp
  = (dp', Some b) →
  chunks_sound sha256 (dedup_store dp) →
  contains "[DEDUP]" (Core.description b) = true
  ∧ ∃ manifest,
      store (project dp') !! manifest_path (backup_dir sv) (stem (path b))
      = Some (ManifestStored manifest)
      ∧ ∀ rel meta, files manifest !! rel = Some meta →
          ∃ f g, tree_file rel (tree (project dp')) = Some f
                 ∧ hash meta = sha256 (data f) ∧ meta_size meta = st_size f
                 ∧ is_Some (index (dedup_store dp') !! hash meta)
                 ∧ disk (dedup_store dp') !! _get_chunk_path (hash meta) = Some g
                 ∧ sha256 (data g) = sha256 (data f).
Proof.
  unfold create_backup_dedup. intros H Hs.
  destruct (tree_makedirs [".savior"] (tree (project dp))) as [tr|]; [|done].
  match type of H with
  | context [elements (_collect_files _ _ _ (tree ?P))] => set (p1 := P) in *
  end.
  destruct (elements _) as [|file0 files0] eqn:Hfiles; [done|].
  rewrite <- Hfiles in H.
  destruct (negb (_check_disk_space usage _)); [done|].
  pose proof (dedup_loop_recorded sv (tree p1) now_iso (make_backup_id (t_backup clock))
                (elements (_collect_files fnmatch (patterns sv) (project_dir sv) (tree p1)))
                (dedup_store dp) Hs) as Hloop.
  cbv zeta in Hloop.
  destruct (dedup_loop sha256 sv (tree p1) now_iso _ _ (dedup_store dp))
    as [ds dedup_files]. simpl in Hloop. destruct Hloop as [Hs' Hrec].
  injection H as <- <-. simpl.
  split; [by apply contains_app_r|].
  rewrite stem_manifest_path by apply make_backup_id_nonempty.
  eexists. split; [apply lookup_insert_eq|]. simpl.
  intros rel meta Hm.
  destruct (Hrec _ _ Hm) as (f & Hf & Hh & Hsz & [e He]).
  destruct (Hs' _ _ He) as (g & Hg & Hgh).
  exists f, g. rewrite <- Hh. eauto 10.
Qed.

End Dedup.

Lemma dedup_manifest_can_be_restored_from_witness :
  ∃ dp' b,
    create_backup_dedup (λ _ _, false) Examples.toy_digest
      BackupSpec.demo_savior BackupSpec.demo_clock None "t0" "nightly"
      {| project := BackupSpec.demo_project; dedup_store := _init_store |}
    = (dp', Some b)
    ∧ contains "[DEDUP]" (Core.description b) = true.
Proof.
  eexists _, _. split; [vm_compute; reflexivity|].
  eapply (dedup_manifest_can_be_restored_from (λ _ _, false) Examples.toy_digest
            BackupSpec.demo_savior BackupSpec.demo_clock None "t0" "nightly"
            {| project := BackupSpec.demo_project; dedup_store := _init_store |}).
  - vm_compute. reflexivity.
  - apply chunks_sound_init.
Defined.

End DedupBackupSpec.


(** ** Restoring from the content store *)

Module DedupRestoreSpec.
Import Core CoreDedup Dedup WalkFacts.

Section Restore.

Variable sha256 : string → string.



Lemma tree_put_frame_below (p : Path) (g : File) (n n' : Node) (q : Path) :
  tree_put p g n = Some n' → ¬ p `prefix_of` q → tree_file q n' = tree_file q n.
Proof.
  intros Hput Hq. eapply tree_put_frame; [exact Hput|]. by intros ->.
Qed.




End Restore.

Definition demo_backup : Backup :=
  {| timestamp := Datetime.mkDatetime 2025 9 21 14 30 5 0;
     path := ["home"; "u"; "proj"; ".savior"; ".dedup_manifests";
              "20250921_143005_dedup.json"];
     description := "nightly [DEDUP]";
     bsize := 0 |}.



End DedupRestoreSpec.

